(** * MayaSpeechify client: synthesis client and worker pool

    A shallow embedding of the Go client (worker.go, main.go, scanner.go,
    config.go): the path helper [getOutputPath], the per-file pipeline
    [processSingleFile], the worker loop and the channel-based pool of
    [processFiles], the scan of [discoverFiles], the configuration of
    [LoadConfig] and [validateConfig], and the path of [main] and [run] from
    the flags to the exit status.

    Go strings are byte strings and are modelled by [string]; [[]byte] is
    [list Byte.byte]; [int] and [time.Duration] are [Z].  The operating
    system, the clock and the HTTP endpoint are an explicit environment. *)

From Stdlib Require Import ZArith String Ascii List Lia DecimalString DecimalZ DecimalPos.
From stdpp Require Import gmap strings list fin_maps relations.

Open Scope string_scope.
Open Scope Z_scope.

Abbreviation bytes := (list Byte.byte).

(** ** Package strings *)

(** [s[n:]] *)
Fixpoint str_drop (n : nat) (s : string) : string :=
  match n, s with
  | O, _ => s
  | S n', String _ s' => str_drop n' s'
  | S _, EmptyString => EmptyString
  end.

(** [s[:n]] *)
Fixpoint str_take (n : nat) (s : string) : string :=
  match n, s with
  | O, _ => EmptyString
  | S n', String c s' => String c (str_take n' s')
  | S _, EmptyString => EmptyString
  end.

(** [strings.HasSuffix]: [len(s) >= len(suffix) && s[len(s)-len(suffix):] == suffix] *)
Definition strings_HasSuffix (s suffix : string) : bool :=
  (String.length suffix <=? String.length s)%nat
  && String.eqb (str_drop (String.length s - String.length suffix) s) suffix.

(** [strings.TrimSuffix] *)
Definition strings_TrimSuffix (s suffix : string) : string :=
  if strings_HasSuffix s suffix
  then str_take (String.length s - String.length suffix) s
  else s.

(** [%d] of an [int] *)
Definition itoa (n : Z) : string := NilZero.string_of_int (Z.to_int n).

(** [string(b)] for [b []byte] *)
Definition string_of_bytes (b : bytes) : string := string_of_list_byte b.

(** ** Packages os and path/filepath *)

Inductive GOOS := Linux | Windows.

(** [os.IsPathSeparator] *)
Definition os_IsPathSeparator (goos : GOOS) (c : ascii) : bool :=
  match goos with
  | Linux => Ascii.eqb c "/"
  | Windows => Ascii.eqb c "\" || Ascii.eqb c "/"
  end.

(** The loop of [filepath.Ext]:
    [for i := len(path) - 1; i >= 0 && !os.IsPathSeparator(path[i]); i--]
    with [n = i + 1]. *)
Fixpoint ext_loop (goos : GOOS) (path : string) (n : nat) : string :=
  match n with
  | O => ""
  | S i =>
    match String.get i path with
    | None => ""
    | Some c =>
      if os_IsPathSeparator goos c then ""
      else if Ascii.eqb c "." then str_drop i path
      else ext_loop goos path i
    end
  end.

Definition filepath_Ext (goos : GOOS) (path : string) : string :=
  ext_loop goos path (String.length path).

(** main.go: [getOutputPath] *)
Definition getOutputPath (goos : GOOS) (inputPath : string) : string :=
  let ext := filepath_Ext goos inputPath in
  strings_TrimSuffix inputPath ext ++ ".mp3".

(** ** Errors

    Every error value of the client is either produced by a library call
    (package os, net/http, io) or built by [fmt.Errorf].  A library error
    carries its message and the answer of its [Timeout()] method. *)

Inductive error : Type :=
| SysError (timeout : bool) (msg : string)
| Errorf (msg : string)                        (* fmt.Errorf without %w *)
| Errorf_w (prefix : string) (cause : error).  (* fmt.Errorf(prefix + ": %w", cause) *)

(** [err.Error()] *)
Fixpoint Error_msg (e : error) : string :=
  match e with
  | SysError _ msg => msg
  | Errorf msg => msg
  | Errorf_w prefix cause => prefix ++ ": " ++ Error_msg cause
  end.

(** [errors.Unwrap] *)
Definition Unwrap (e : error) : option error :=
  match e with
  | Errorf_w _ cause => Some cause
  | _ => None
  end.

(** Whether some error of the chain reports [Timeout() == true]
    (what [errors.As] with an [interface{ Timeout() bool }] target finds). *)
Fixpoint IsTimeout (e : error) : bool :=
  match e with
  | SysError t _ => t
  | Errorf _ => false
  | Errorf_w _ cause => IsTimeout cause
  end.

(** ** worker.go: the data model *)

Record ProcessResult := {
  FilePath : string;
  OutputPath : string;
  Duration : Z;
  Error : option error
}.

(** [VoiceDescription *string] with tag [json:"voice_description,omitempty"] *)
Record SynthesizeRequest := {
  Text : string;
  VoiceDescription : option string
}.

(** main.go: [AppConfig] *)
Record AppConfig := {
  Workers : Z;
  ScanPath : string;
  Recursive : bool;
  Verbose : bool;
  ServerURL : string;
  Timeout : Z
}.

(** ** unicode/utf8 *)

Definition byte_in (lo hi : nat) (c : ascii) : bool :=
  let n := nat_of_ascii c in ((lo <=? n) && (n <=? hi))%nat.

(** [utf8.DecodeRuneInString]: the number of bytes of the encoding at the
    start of the string, and 0 where the function returns [(RuneError, 1)]
    because the bytes are not the encoding of a rune or the string ends
    before the encoding does.  The first byte decides the length and the
    range of the second byte; the other bytes are in 0x80..0xBF. *)
Definition utf8_size (s : string) : nat :=
  match s with
  | EmptyString => 0
  | String c0 rest =>
    let n := nat_of_ascii c0 in
    if (n <? 128)%nat then 1
    else if (n <? 194)%nat then 0                         (* 0x80..0xC1 *)
    else if (n <? 224)%nat then                           (* 0xC2..0xDF *)
      match rest with
      | String c1 _ => if byte_in 128 191 c1 then 2 else 0
      | _ => 0
      end
    else if (n <? 240)%nat then                           (* 0xE0..0xEF *)
      let lo := if (n =? 224)%nat then 160%nat else 128%nat in
      let hi := if (n =? 237)%nat then 159%nat else 191%nat in
      match rest with
      | String c1 (String c2 _) =>
        if byte_in lo hi c1 && byte_in 128 191 c2 then 3 else 0
      | _ => 0
      end
    else if (n <? 245)%nat then                           (* 0xF0..0xF4 *)
      let lo := if (n =? 240)%nat then 144%nat else 128%nat in
      let hi := if (n =? 244)%nat then 143%nat else 191%nat in
      match rest with
      | String c1 (String c2 (String c3 _)) =>
        if byte_in lo hi c1 && byte_in 128 191 c2 && byte_in 128 191 c3 then 4 else 0
      | _ => 0
      end
    else 0                                                (* 0xF5..0xFF *)
  end%nat.

(** [utf8.ValidString]; [skip] counts the bytes still to pass of the
    encoding being read. *)
Fixpoint utf8_valid_loop (skip : nat) (s : string) : bool :=
  match s with
  | EmptyString => true
  | String _ rest =>
    match skip with
    | S k => utf8_valid_loop k rest
    | O =>
      match utf8_size s with
      | O => false
      | S k => utf8_valid_loop k rest
      end
    end
  end.

Definition utf8_ValidString (s : string) : bool := utf8_valid_loop 0 s.

(** U+FFFD, the replacement character, encoded in UTF-8. *)
Definition utf8_RuneError : string := String "239" (String "191" (String "189" "")).

(** ** encoding/json

    The request body is kept as a JSON document; its rendering to bytes and
    the escaping of string values belong to encoding/json. *)

#[warnings="-register-all"]
Inductive JSON : Type :=
| JString (s : string)
| JObject (fields : list (string * JSON)).

(** The value of the JSON string that encoding/json writes for a Go string.
    The encoder walks the string rune by rune and writes [\ufffd] for each
    byte where [utf8.DecodeRuneInString] returns [(RuneError, 1)]; every
    other byte is written as it is or as an escape of itself.  A string
    that is not valid UTF-8 is therefore not sent as it is. *)
Fixpoint json_string_loop (skip : nat) (s : string) : string :=
  match s with
  | EmptyString => EmptyString
  | String c rest =>
    match skip with
    | S k => String c (json_string_loop k rest)
    | O =>
      match utf8_size s with
      | O => utf8_RuneError ++ json_string_loop 0 rest
      | S k => String c (json_string_loop k rest)
      end
    end
  end.

Definition json_string (s : string) : string := json_string_loop 0 s.

(** [json.Marshal] of a [SynthesizeRequest], following its struct tags: the
    "text" member is always present, "voice_description" is omitted for a nil
    pointer. *)
Definition json_Marshal (r : SynthesizeRequest) : JSON + error :=
  inl (JObject (("text", JString (json_string (Text r))) ::
                match VoiceDescription r with
                | Some v => [("voice_description", JString (json_string v))]
                | None => []
                end)).

Definition json_keys (j : JSON) : list string :=
  match j with
  | JString _ => []
  | JObject fields => map fst fields
  end.

(** ** net/http

    What the network and the server make of one call of [client.Post];
    the timeout of the client is applied by [client_Post].  The library
    follows redirects by itself, so one call can put several requests on
    the wire; the times below count from the call, and the response is the
    one the call returns.

    - [NetFail]: the call fails without a response, before any timeout of
      the client (connection refused, DNS failure, a dial or TLS handshake
      the transport gives up on, a URL that cannot be parsed, too many
      redirects).  The error is the library's: [msg] is its text and
      [timeout] the answer of its [Timeout()] method, which is true for the
      dial and handshake timeouts of the default transport.
    - [Reply]: the status line arrives [headers_at] after the call and the
      body is complete at [body_at]; [received] is the number of body bytes
      that have arrived when the client stops reading early.
    - [Broken]: the status line arrives at [headers_at] and the connection
      breaks after the bytes [partial] of the body, with the error of the
      library ([timeout], [msg]) for the break.

    [late] holds the texts of the errors the client reports when its own
    [Timeout] ends the call.  The library builds them: before the status
    line from the operation, the URL and the step that was interrupted,
    while the body is read from the read that was interrupted. *)

Record TimeoutText := {
  awaiting_headers : string;
  reading_body : string
}.

Inductive Exchange : Type :=
| NetFail (timeout : bool) (msg : string)
| Reply (headers_at : Z) (status : Z) (body : bytes) (body_at : Z) (received : nat)
        (late : TimeoutText)
| Broken (headers_at : Z) (status : Z) (partial : bytes) (timeout : bool) (msg : string)
         (late : TimeoutText).

(** [*http.Response]: the status code, and what [io.ReadAll(resp.Body)] will
    return. *)
Record Response := {
  StatusCode : Z;
  Body : bytes * option error
}.

Definition http_StatusOK : Z := 200.

(** [http.Client.Timeout]: zero means no timeout; otherwise the limit covers
    connecting, the response headers and reading the body. *)
Definition deadline_passed (timeout elapsed : Z) : bool :=
  (0 <? timeout) && (timeout <=? elapsed).

(** The errors of an expired [Client.Timeout], before the status line
    (returned by [client.Post]) and while the body is read (returned by
    [resp.Body.Read]): their [Timeout()] is true, their text is the
    library's. *)
Definition err_awaiting_headers (late : TimeoutText) : error :=
  SysError true (awaiting_headers late).

Definition err_reading_body (late : TimeoutText) : error :=
  SysError true (reading_body late).

(** [client.Post] for a client with [Timeout: timeout] *)
Definition client_Post (timeout : Z) (x : Exchange) : Response + error :=
  match x with
  | NetFail t msg => inr (SysError t msg)
  | Reply headers_at status body body_at received late =>
    if deadline_passed timeout headers_at then inr (err_awaiting_headers late)
    else inl {| StatusCode := status;
                Body := if deadline_passed timeout body_at
                        then (take received body, Some (err_reading_body late))
                        else (body, None) |}
  | Broken headers_at status partial t msg late =>
    if deadline_passed timeout headers_at then inr (err_awaiting_headers late)
    else inl {| StatusCode := status; Body := (partial, Some (SysError t msg)) |}
  end.

(** [io.ReadAll] *)
Definition io_ReadAll (body : bytes * option error) : bytes * option error := body.

(** ** The environment: filesystem, clock and endpoint *)

(** The calls of the worker that reach the outside world, in order:
    [os.ReadFile], [client.Post] and [os.WriteFile].  [EvPost] is one call
    of [client.Post] with its arguments; the requests the library sends for
    the call are not recorded. *)
Inductive Event : Type :=
| EvRead (name : string)
| EvPost (url contentType : string) (body : JSON)
| EvWrite (name : string) (data : bytes) (ok : bool).

Record World := {
  files : gmap string bytes;   (* regular files by path *)
  now : nat;                   (* the clock: one tick per operation *)
  log : list Event
}.

(** A failing [os.WriteFile] either leaves the file alone (it could not be
    opened) or has already truncated it and written a prefix. *)
Inductive WriteFault : Type :=
| WriteOk
| WriteDenied (msg : string)
| WriteTorn (written : nat) (msg : string).

Record Env := {
  read_fault : string -> option string;   (* the text of the error of os.ReadFile *)
  write_fault : string -> WriteFault;
  endpoint : nat -> string -> string -> JSON -> Exchange
                       (* by time and the URL, content type and body of the call *)
}.

Definition tick (evs : list Event) (w : World) : World :=
  {| files := files w; now := S (now w); log := log w ++ evs |}.

Definition set_file (name : string) (data : bytes) (w : World) : World :=
  {| files := <[name := data]> (files w); now := now w; log := log w |}.

(** [time.Now] *)
Definition time_Now (w : World) : nat * World := (now w, tick [] w).

(** [os.ReadFile]; the text of the error for a missing file is the one of
    Unix. *)
Definition os_ReadFile (env : Env) (name : string) (w : World)
  : (bytes + error) * World :=
  (match read_fault env name with
   | Some msg => inr (SysError false msg)
   | None =>
     match files w !! name with
     | Some content => inl content
     | None => inr (SysError false ("open " ++ name ++ ": no such file or directory"))
     end
   end, tick [EvRead name] w).

(** [os.WriteFile]: create or truncate, then write. *)
Definition os_WriteFile (env : Env) (name : string) (data : bytes) (w : World)
  : option error * World :=
  match write_fault env name with
  | WriteOk => (None, tick [EvWrite name data true] (set_file name data w))
  | WriteDenied msg => (Some (SysError false msg), tick [EvWrite name data false] w)
  | WriteTorn n msg =>
    (Some (SysError false msg),
     tick [EvWrite name data false] (set_file name (take n data) w))
  end.

(** [client.Post(url, contentType, body)]: one call, with what the
    environment makes of it. *)
Definition http_Post (env : Env) (timeout : Z) (url contentType : string)
    (body : JSON) (w : World) : (Response + error) * World :=
  (client_Post timeout (endpoint env (now w) url contentType body),
   tick [EvPost url contentType body] w).

(** ** Programs over the environment

    The code of a worker is a tree of operations on the environment; it is
    run either to completion ([run]) or one operation at a time inside the
    pool ([step_of]). *)

Inductive Prog (A : Type) : Type :=
| Ret (a : A)
| Now (k : nat -> Prog A)
| ReadFile (name : string) (k : bytes + error -> Prog A)
| Post (timeout : Z) (url contentType : string) (body : JSON)
       (k : Response + error -> Prog A)
| WriteFile (name : string) (data : bytes) (perm : Z) (k : option error -> Prog A).

Arguments Ret {A} a.
Arguments Now {A} k.
Arguments ReadFile {A} name k.
Arguments Post {A} timeout url contentType body k.
Arguments WriteFile {A} name data perm k.

Fixpoint bind {A B : Type} (p : Prog A) (f : A -> Prog B) : Prog B :=
  match p with
  | Ret a => f a
  | Now k => Now (fun t => bind (k t) f)
  | ReadFile name k => ReadFile name (fun r => bind (k r) f)
  | Post timeout url ct body k => Post timeout url ct body (fun r => bind (k r) f)
  | WriteFile name data perm k => WriteFile name data perm (fun r => bind (k r) f)
  end.

Declare Scope prog_scope.
Delimit Scope prog_scope with prog.
Bind Scope prog_scope with Prog.
Notation "'let*' x := p 'in' q" := (bind p (fun x => q))
  (at level 10, x name, p at level 100, q at level 200, only parsing) : prog_scope.

(** One operation of a program, performed on the world. *)
Definition perform {A : Type} (env : Env) (p : Prog A) (w : World)
  : option (Prog A * World) :=
  match p with
  | Ret _ => None
  | Now k => let '(t, w') := time_Now w in Some (k t, w')
  | ReadFile name k => let '(r, w') := os_ReadFile env name w in Some (k r, w')
  | Post timeout url ct body k =>
    let '(r, w') := http_Post env timeout url ct body w in Some (k r, w')
  | WriteFile name data _ k =>
    let '(r, w') := os_WriteFile env name data w in Some (k r, w')
  end.

(** A program run to completion. *)
Fixpoint run {A : Type} (env : Env) (p : Prog A) (w : World) : A * World :=
  match p with
  | Ret a => (a, w)
  | Now k => let '(t, w') := time_Now w in run env (k t) w'
  | ReadFile name k => let '(r, w') := os_ReadFile env name w in run env (k r) w'
  | Post timeout url ct body k =>
    let '(r, w') := http_Post env timeout url ct body w in run env (k r) w'
  | WriteFile name data _ k =>
    let '(r, w') := os_WriteFile env name data w in run env (k r) w'
  end.

Definition timeNow : Prog nat := Now Ret.
Definition readFile (name : string) : Prog (bytes + error) := ReadFile name Ret.
Definition post (timeout : Z) (url contentType : string) (body : JSON)
  : Prog (Response + error) := Post timeout url contentType body Ret.
Definition writeFile (name : string) (data : bytes) (perm : Z)
  : Prog (option error) := WriteFile name data perm Ret.

(** ** worker.go: the goroutines of [processFiles]

    The main goroutine, the goroutine that waits on the WaitGroup and the
    workers share two buffered channels.  Each goroutine is deterministic;
    [step_of] performs the next operation of one of them and is [None] when
    that goroutine is blocked or has finished.  The scheduler is free. *)

Record Chan (A : Type) := {
  buf : list A;
  cap : nat;
  closed : bool
}.
Arguments buf {A} c.
Arguments cap {A} c.
Arguments closed {A} c.

Definition make_chan {A : Type} (n : nat) : Chan A :=
  {| buf := []; cap := n; closed := false |}.
Definition chan_put {A : Type} (x : A) (c : Chan A) : Chan A :=
  {| buf := buf c ++ [x]; cap := cap c; closed := closed c |}.
Definition chan_tail {A : Type} (c : Chan A) : Chan A :=
  {| buf := tail (buf c); cap := cap c; closed := closed c |}.
Definition chan_close {A : Type} (c : Chan A) : Chan A :=
  {| buf := buf c; cap := cap c; closed := true |}.

(** A worker goroutine: at [range jobs], inside the loop body for
    [filePath], or returned (its deferred [wg.Done()] has run). *)
Inductive Worker : Type :=
| WRange
| WBody (filePath : string) (p : Prog ProcessResult)
| WDone.

(** The main goroutine inside [processFiles]: in the loop that starts the
    workers (with loop variable [i]), in the loop that sends the jobs (with
    the files still to send), in the loop over [results], or returned. *)
Inductive Main : Type :=
| MSpawn (i : Z)
| MSend (rest : list string)
| MCollect
| MReturn.

(** The goroutine [go func() { wg.Wait(); close(results) }()]. *)
Inductive Waiter : Type :=
| WaitNotStarted
| Waiting
| WaitDone.

Record Pool := {
  main : Main;
  jobs : Chan string;
  results : Chan ProcessResult;
  wg : nat;
  workers : list Worker;
  waiter : Waiter;
  allResults : list ProcessResult;
  world : World
}.

Definition set_main (m : Main) (s : Pool) : Pool :=
  {| main := m; jobs := jobs s; results := results s; wg := wg s;
     workers := workers s; waiter := waiter s; allResults := allResults s;
     world := world s |}.
Definition set_jobs (c : Chan string) (s : Pool) : Pool :=
  {| main := main s; jobs := c; results := results s; wg := wg s;
     workers := workers s; waiter := waiter s; allResults := allResults s;
     world := world s |}.
Definition set_results (c : Chan ProcessResult) (s : Pool) : Pool :=
  {| main := main s; jobs := jobs s; results := c; wg := wg s;
     workers := workers s; waiter := waiter s; allResults := allResults s;
     world := world s |}.
Definition set_wg (n : nat) (s : Pool) : Pool :=
  {| main := main s; jobs := jobs s; results := results s; wg := n;
     workers := workers s; waiter := waiter s; allResults := allResults s;
     world := world s |}.
Definition set_workers (ws : list Worker) (s : Pool) : Pool :=
  {| main := main s; jobs := jobs s; results := results s; wg := wg s;
     workers := ws; waiter := waiter s; allResults := allResults s;
     world := world s |}.
Definition set_waiter (x : Waiter) (s : Pool) : Pool :=
  {| main := main s; jobs := jobs s; results := results s; wg := wg s;
     workers := workers s; waiter := x; allResults := allResults s;
     world := world s |}.
Definition set_allResults (rs : list ProcessResult) (s : Pool) : Pool :=
  {| main := main s; jobs := jobs s; results := results s; wg := wg s;
     workers := workers s; waiter := waiter s; allResults := rs;
     world := world s |}.
Definition set_world (w : World) (s : Pool) : Pool :=
  {| main := main s; jobs := jobs s; results := results s; wg := wg s;
     workers := workers s; waiter := waiter s; allResults := allResults s;
     world := w |}.

Inductive Tid : Type :=
| TMain
| TWaiter
| TWorker (i : nat).

(** ** worker.go: [processSingleFile] and the body of the worker loop *)

Section Client.

Variable goos : GOOS.

(** [processSingleFile(filePath, client, config)] where [client] is the
    worker's [&http.Client{Timeout: config.Timeout}]; the result is the pair
    [(outputPath, err)]. *)
Definition processSingleFile (filePath : string) (config : AppConfig)
  : Prog (string * option error) :=
  (* Read file contents *)
  let* r := readFile filePath in
  match r with
  | inr err => Ret ("", Some (Errorf_w "failed to read file" err))
  | inl content =>
    (* Prepare request *)
    let reqBody := {| Text := string_of_bytes content; VoiceDescription := None |} in
    match json_Marshal reqBody with
    | inr err => Ret ("", Some (Errorf_w "failed to marshal request" err))
    | inl jsonData =>
      (* Send request to server *)
      let url := ServerURL config ++ "/synthesize" in
      let* r := post (Timeout config) url "application/json" jsonData in
      match r with
      | inr err => Ret ("", Some (Errorf_w "failed to send request" err))
      | inl resp =>
        (* Check response status *)
        if negb (StatusCode resp =? http_StatusOK) then
          let '(bodyBytes, _) := io_ReadAll (Body resp) in
          Ret ("", Some (Errorf ("server returned status " ++ itoa (StatusCode resp)
                                 ++ ": " ++ string_of_bytes bodyBytes)))
        else
          (* Read response body (MP3 data) *)
          let '(mp3Data, err) := io_ReadAll (Body resp) in
          match err with
          | Some err => Ret ("", Some (Errorf_w "failed to read response" err))
          | None =>
            (* Generate output path (same directory as input, .mp3 extension) *)
            let outputPath := getOutputPath goos filePath in
            (* Write MP3 file *)
            let* err := writeFile outputPath mp3Data 420 in
            match err with
            | Some err => Ret ("", Some (Errorf_w "failed to write MP3 file" err))
            | None => Ret (outputPath, None)
            end
          end
      end
    end
  end%prog.

(** The rest of the loop body once [processSingleFile] has returned:
    [result.Duration = time.Since(startTime)] and the result record. *)
Definition finish (filePath : string) (startTime : nat)
    (r : string * option error) : Prog ProcessResult :=
  (let* endTime := timeNow in
   Ret {| FilePath := filePath;
          OutputPath := fst r;
          Duration := Z.of_nat endTime - Z.of_nat startTime;
          Error := snd r |})%prog.

(** The body of [for filePath := range jobs], up to the value sent on
    [results].  Log lines and the progress bar are left out. *)
Definition worker_body (filePath : string) (config : AppConfig) : Prog ProcessResult :=
  (let* startTime := timeNow in
   let* r := processSingleFile filePath config in
   finish filePath startTime r)%prog.

(** ** worker.go: [processFiles] *)

Section Pool.

Variable env : Env.
Variable config : AppConfig.
Variable input : list string.   (* the parameter [files] of [processFiles] *)

(** [numWorkers := config.Workers; if numWorkers > len(files) { numWorkers = len(files) }] *)
Definition numWorkers : Z :=
  if Z.of_nat (length input) <? Workers config
  then Z.of_nat (length input)
  else Workers config.

Definition pool_init (w : World) : Pool :=
  {| main := MSpawn 0;
     jobs := make_chan (length input);
     results := make_chan (length input);
     wg := 0;
     workers := [];
     waiter := WaitNotStarted;
     allResults := [];
     world := w |}.

Definition step_main (s : Pool) : option Pool :=
  match main s with
  | MSpawn i =>
    if i <? numWorkers then
      (* wg.Add(1); go worker(i+1, jobs, results, &wg, config, bar) *)
      Some (set_main (MSpawn (i + 1))
              (set_wg (S (wg s)) (set_workers (workers s ++ [WRange]) s)))
    else
      Some (set_main (MSend input) s)
  | MSend (file :: rest) =>
    (* jobs <- file *)
    if (length (buf (jobs s)) <? cap (jobs s))%nat
    then Some (set_main (MSend rest) (set_jobs (chan_put file (jobs s)) s))
    else None
  | MSend [] =>
    (* close(jobs); go func() { wg.Wait(); close(results) }() *)
    Some (set_main MCollect (set_jobs (chan_close (jobs s)) (set_waiter Waiting s)))
  | MCollect =>
    (* for result := range results { allResults = append(allResults, result) } *)
    match buf (results s) with
    | result :: _ =>
      Some (set_results (chan_tail (results s))
              (set_allResults (allResults s ++ [result]) s))
    | [] => if closed (results s) then Some (set_main MReturn s) else None
    end
  | MReturn => None
  end.

Definition step_waiter (s : Pool) : option Pool :=
  match waiter s with
  | Waiting =>
    (* wg.Wait(); close(results) *)
    if (wg s =? 0)%nat
    then Some (set_results (chan_close (results s)) (set_waiter WaitDone s))
    else None
  | _ => None
  end.

Definition set_worker (i : nat) (wk : Worker) (s : Pool) : Pool :=
  set_workers (<[i := wk]> (workers s)) s.

Definition step_worker (i : nat) (s : Pool) : option Pool :=
  match workers s !! i with
  | Some WRange =>
    (* for filePath := range jobs *)
    match buf (jobs s) with
    | filePath :: _ =>
      Some (set_worker i (WBody filePath (worker_body filePath config))
              (set_jobs (chan_tail (jobs s)) s))
    | [] =>
      (* the loop ends on the closed channel; the deferred wg.Done() runs *)
      if closed (jobs s)
      then Some (set_worker i WDone (set_wg (pred (wg s)) s))
      else None
    end
  | Some (WBody filePath (Ret result)) =>
    (* results <- result *)
    if closed (results s) then None
    else if (length (buf (results s)) <? cap (results s))%nat
    then Some (set_worker i WRange (set_results (chan_put result (results s)) s))
    else None
  | Some (WBody filePath p) =>
    match perform env p (world s) with
    | Some (p', w') => Some (set_worker i (WBody filePath p') (set_world w' s))
    | None => None
    end
  | Some WDone => None
  | None => None
  end.

Definition step_of (t : Tid) (s : Pool) : option Pool :=
  match t with
  | TMain => step_main s
  | TWaiter => step_waiter s
  | TWorker i => step_worker i s
  end.

Definition step (s s' : Pool) : Prop := exists t, step_of t s = Some s'.

(** The pool after the goroutines named by a schedule have each taken one
    step, in order; [None] if one of them could not move. *)
Fixpoint exec (sched : list Tid) (s : Pool) : option Pool :=
  match sched with
  | [] => Some s
  | t :: sched' =>
    match step_of t s with
    | Some s' => exec sched' s'
    | None => None
    end
  end.

(** [processFiles(files, config)] can return [rs] when started in world [w]. *)
Definition processFiles_returns (w : World) (rs : list ProcessResult) (w' : World) : Prop :=
  exists s, rtc step (pool_init w) s /\ main s = MReturn /\
            allResults s = rs /\ world s = w'.

End Pool.
End Client.

(** ** main.go: [printSummary], [run] and the exit status of [main] *)

(** The two counters of [printSummary], as printed. *)
Fixpoint count_results (results : list ProcessResult) (successful failed : Z) : Z * Z :=
  match results with
  | [] => (successful, failed)
  | result :: rest =>
    match Error result with
    | None => count_results rest (successful + 1) failed
    | Some _ => count_results rest successful (failed + 1)
    end
  end.

Definition printSummary (results : list ProcessResult) : Z * Z :=
  count_results results 0 0.

(** [run(config)], given what [discoverFiles] returned and, for a non-empty
    list of files, the results [processFiles] returned (its error is always
    nil). *)
Definition run_app (discovered : list string + error) (results : list ProcessResult)
  : option error :=
  match discovered with
  | inr err => Some (Errorf_w "failed to scan files" err)
  | inl files =>
    if (length files =? 0)%nat then None
    else let _ := printSummary results in None
  end.

(** The exit status of [main] once the flags are validated:
    [if err := run(config); err != nil { ...; os.Exit(1) }], else status 0. *)
Definition main_exit (discovered : list string + error) (results : list ProcessResult) : Z :=
  match run_app discovered results with
  | Some _ => 1
  | None => 0
  end.

(** ** The extension of a path, in the words of the documentation of
    [filepath.Ext]: the suffix beginning at the final dot in the final
    element of the path, empty if there is no dot. *)

Definition final_extension (goos : GOOS) (path ext : string) : Prop :=
  (ext = "" /\
   forall i, String.get i path = Some "."%char ->
     exists j c, (i < j)%nat /\ String.get j path = Some c /\
                 os_IsPathSeparator goos c = true)
  \/
  (exists i, String.get i path = Some "."%char /\ ext = str_drop i path /\
     forall j c, (i < j)%nat -> String.get j path = Some c ->
       c <> "."%char /\ os_IsPathSeparator goos c = false).

(** ** Vocabulary of the statements *)

(** What happened between two states of the world. *)
Definition events_since (w w' : World) : list Event :=
  drop (length (log w)) (log w').

Definition is_write (ev : Event) : bool :=
  match ev with
  | EvWrite _ _ _ => true
  | _ => false
  end.

Definition is_post (ev : Event) : bool :=
  match ev with
  | EvPost _ _ _ => true
  | _ => false
  end.

(** The URL and the body of the request for a file with the given content. *)
Definition request_url (config : AppConfig) : string := ServerURL config ++ "/synthesize".

Definition request_body (content : bytes) : JSON :=
  JObject [("text", JString (json_string (string_of_bytes content)))].

(** What becomes of the call of [client.Post] made at time [t] for a file
    with the given content. *)
Definition exchange_at (env : Env) (config : AppConfig) (t : nat) (content : bytes) : Exchange :=
  endpoint env t (request_url config) "application/json" (request_body content).

(** [fmt.Sprintf("server returned status %d: %s", status, body)] *)
Definition status_message (status : Z) (body : bytes) : string :=
  "server returned status " ++ itoa status ++ ": " ++ string_of_bytes body.

Definition no_colon (s : string) : Prop :=
  forall i, String.get i s <> Some ":"%char.

(** ** Concrete environments *)

Definition bytes_of (s : string) : bytes := list_byte_of_string s.

Definition the_config (workers : Z) : AppConfig :=
  {| Workers := workers; ScanPath := "books"; Recursive := false; Verbose := false;
     ServerURL := "http://localhost:8000"; Timeout := 600000000000 |}.

Definition world_of (fs : gmap string bytes) : World :=
  {| files := fs; now := 0; log := [] |}.

(** The texts of the timeout errors of net/http for the URL of
    [the_config], when the deadline of the context interrupts the call. *)
Definition late_text : TimeoutText :=
  {| awaiting_headers :=
       "Post " ++ String "034" ("http://localhost:8000/synthesize" ++ String "034"
         ": context deadline exceeded (Client.Timeout exceeded while awaiting headers)");
     reading_body :=
       "context deadline exceeded (Client.Timeout or context cancellation while reading body)" |}.

(** An endpoint that answers every request in one millisecond with the
    given status and body. *)
Definition fixed_endpoint (status : Z) (body : bytes) : Env :=
  {| read_fault := fun _ => None;
     write_fault := fun _ => WriteOk;
     endpoint := fun _ _ _ _ => Reply 1000000 status body 2000000 0 late_text |}.

(** An endpoint that sends the text of the request back as the audio. *)
Definition echo_endpoint : Env :=
  {| read_fault := fun _ => None;
     write_fault := fun _ => WriteOk;
     endpoint := fun _ _ _ body =>
       match body with
       | JObject [(_, JString s)] => Reply 1000000 200 (bytes_of s) 2000000 0 late_text
       | _ => Reply 1000000 400 [] 2000000 0 late_text
       end |}.

(** An endpoint that refuses the connection. *)
Definition refused_text : string :=
  "Post " ++ String "034" ("http://localhost:8000/synthesize" ++ String "034"
    ": dial tcp 127.0.0.1:8000: connect: connection refused").

Definition refusing_endpoint : Env :=
  {| read_fault := fun _ => None;
     write_fault := fun _ => WriteOk;
     endpoint := fun _ _ _ _ => NetFail false refused_text |}.

(** An endpoint that does not answer the connection attempt: the default
    transport gives up dialling after thirty seconds, long before the ten
    minutes of the timeout, and the error of the library reports a
    timeout. *)
Definition dial_timeout_text : string :=
  "Post " ++ String "034" ("http://localhost:8000/synthesize" ++ String "034"
    ": dial tcp 127.0.0.1:8000: i/o timeout").

Definition unreachable_endpoint : Env :=
  {| read_fault := fun _ => None;
     write_fault := fun _ => WriteOk;
     endpoint := fun _ _ _ _ => NetFail true dial_timeout_text |}.

(** An endpoint whose answer (status 500) starts in time, but whose body is
    still arriving when the ten minutes of the timeout are over: only
    [received] bytes of it have arrived. *)
Definition stalling_endpoint (body : bytes) (received : nat) : Env :=
  {| read_fault := fun _ => None;
     write_fault := fun _ => WriteOk;
     endpoint := fun _ _ _ _ => Reply 1000000 500 body 900000000000 received late_text |}.

(** An endpoint that answers after the timeout. *)
Definition slow_endpoint : Env :=
  {| read_fault := fun _ => None;
     write_fault := fun _ => WriteOk;
     endpoint := fun _ _ _ _ =>
       Reply 900000000000 200 (bytes_of "ID3") 900000000001 0 late_text |}.

Definition one_file : gmap string bytes := {[ "a.txt" := bytes_of "hello" ]}.

(** The HTTP call exceeds the timeout: the limit is reached before the
    status line or before the end of the body. *)
Definition call_times_out (timeout : Z) (x : Exchange) : bool :=
  match x with
  | NetFail _ _ => false
  | Reply headers_at _ _ body_at _ _ =>
    deadline_passed timeout headers_at || deadline_passed timeout body_at
  | Broken headers_at _ _ _ _ _ => deadline_passed timeout headers_at
  end.

(** The limit is reached before the status line, or while the body of a 200
    response is read. *)
Definition timeout_reported (timeout : Z) (x : Exchange) : Prop :=
  match x with
  | NetFail _ _ => False
  | Reply headers_at status _ body_at _ _ =>
    deadline_passed timeout headers_at = true \/
    (status = http_StatusOK /\ deadline_passed timeout body_at = true)
  | Broken headers_at _ _ _ _ _ => deadline_passed timeout headers_at = true
  end.

(** ** Invariants of the pool *)

(** Every value the program can return satisfies [P], whatever the
    environment answers. *)
Fixpoint always {A : Type} (P : A -> Prop) (p : Prog A) : Prop :=
  match p with
  | Ret a => P a
  | Now k => forall t, always P (k t)
  | ReadFile _ k => forall r, always P (k r)
  | Post _ _ _ _ k => forall r, always P (k r)
  | WriteFile _ _ _ k => forall r, always P (k r)
  end.

(** The program performs at most [n] operations. *)
Fixpoint within {A : Type} (n : nat) (p : Prog A) : Prop :=
  match p with
  | Ret _ => True
  | Now k => match n with O => False | S m => forall t, within m (k t) end
  | ReadFile _ k => match n with O => False | S m => forall r, within m (k r) end
  | Post _ _ _ _ k => match n with O => False | S m => forall r, within m (k r) end
  | WriteFile _ _ _ k => match n with O => False | S m => forall r, within m (k r) end
  end.

(** The job a worker holds. *)
Definition job_of (wk : Worker) : list string :=
  match wk with
  | WBody filePath _ => [filePath]
  | _ => []
  end.

Definition inflight (ws : list Worker) : list string := concat (map job_of ws).

(** The files the main goroutine has still to send. *)
Definition unsent (input : list string) (m : Main) : list string :=
  match m with
  | MSpawn _ => input
  | MSend rest => rest
  | _ => []
  end.

Definition live (wk : Worker) : nat :=
  match wk with
  | WDone => 0
  | _ => 1
  end.

(** The workers that have not returned. *)
Definition count_live (ws : list Worker) : nat := sum_list (map live ws).

Section PoolInvariant.

Variable goos : GOOS.
Variable config : AppConfig.
Variable input : list string.

Definition phase_ok (s : Pool) : Prop :=
  match main s with
  | MSpawn i =>
    i = Z.of_nat (length (workers s)) /\ (i <= numWorkers config input \/ i = 0) /\
    closed (jobs s) = false /\ waiter s = WaitNotStarted /\ closed (results s) = false
  | MSend _ =>
    length (workers s) = Z.to_nat (numWorkers config input) /\
    closed (jobs s) = false /\ waiter s = WaitNotStarted /\ closed (results s) = false
  | MCollect =>
    length (workers s) = Z.to_nat (numWorkers config input) /\
    closed (jobs s) = true /\
    ((waiter s = Waiting /\ closed (results s) = false) \/
     (waiter s = WaitDone /\ closed (results s) = true))
  | MReturn =>
    length (workers s) = Z.to_nat (numWorkers config input) /\
    closed (jobs s) = true /\ waiter s = WaitDone /\
    closed (results s) = true /\ buf (results s) = []
  end.

Record pool_inv (s : Pool) : Prop := {
  inv_jobs :
    input ≡ₚ unsent input (main s) ++ buf (jobs s) ++ inflight (workers s)
              ++ map FilePath (buf (results s) ++ allResults s);
  inv_body :
    forall i filePath p, workers s !! i = Some (WBody filePath p) ->
      always (fun r => FilePath r = filePath) p;
  inv_wg : wg s = count_live (workers s);
  inv_cap_jobs : cap (jobs s) = length input;
  inv_cap_results : cap (results s) = length input;
  inv_phase : phase_ok s;
  inv_closed : closed (results s) = true -> count_live (workers s) = 0%nat;
  inv_done :
    forall i, workers s !! i = Some WDone ->
      buf (jobs s) = [] /\ closed (jobs s) = true
}.

(** The steps a goroutine has still to take, at most. *)
Definition weight (wk : Worker) (c : nat) : Prop :=
  match wk with
  | WRange => c = 1%nat
  | WDone => c = 0%nat
  | WBody _ p => exists d, within d p /\ c = (d + 3)%nat
  end.

Definition main_weight (m : Main) : nat :=
  match m with
  | MSpawn i => 2 * Z.to_nat (numWorkers config input - i) + 5
  | MSend _ => 4
  | MCollect => 2
  | MReturn => 0
  end.

Definition waiter_weight (x : Waiter) : nat :=
  match x with
  | WaitDone => 0
  | _ => 1
  end.

Definition potential (s : Pool) (n : nat) : Prop :=
  exists cs, Forall2 weight (workers s) cs /\
    n = (main_weight (main s) + waiter_weight (waiter s)
         + 9 * length (unsent input (main s)) + 8 * length (buf (jobs s))
         + sum_list cs + length (buf (results s)))%nat.

(** A bound on the number of steps of [processFiles]. *)
Definition step_bound : nat :=
  2 * Z.to_nat (numWorkers config input) + 9 * length input + 6.

End PoolInvariant.

(** [workers >= 1], non-empty server URL, positive timeout. *)
Definition valid_config (config : AppConfig) : Prop :=
  1 <= Workers config /\ ServerURL config <> "" /\ 0 < Timeout config.

(** ** Independence of the worker count: vocabulary *)

(** The endpoint maps each request to a fixed response, whenever it is sent. *)
Definition deterministic_endpoint (env : Env) : Prop :=
  forall t t' url contentType body,
    endpoint env t url contentType body = endpoint env t' url contentType body.

(** A result without its duration: the job, its output path and its
    success or failure. *)
Definition outcome (r : ProcessResult) : string * string * option error :=
  (FilePath r, OutputPath r, Error r).

Definition with_workers (k : Z) (config : AppConfig) : AppConfig :=
  {| Workers := k; ScanPath := ScanPath config; Recursive := Recursive config;
     Verbose := Verbose config; ServerURL := ServerURL config;
     Timeout := Timeout config |}.

(** The program never reads the clock, reads no file but [src] and writes
    no file but [dst]. *)
Fixpoint confined {A : Type} (src dst : string) (q : Prog A) : Prop :=
  match q with
  | Ret _ => True
  | Now _ => False
  | ReadFile name k => name = src /\ forall r, confined src dst (k r)
  | Post _ _ _ _ k => forall r, confined src dst (k r)
  | WriteFile name _ _ k => name = dst /\ forall r, confined src dst (k r)
  end.

Section Reference.

Variable goos : GOOS.
Variable env : Env.
Variable config : AppConfig.
Variable fs0 : gmap string bytes.   (* the files when [processFiles] starts *)

(** What [processSingleFile] returns for a job that runs alone on the
    initial files, and the content of its destination afterwards. *)
Definition alone (filePath : string) : (string * option error) * World :=
  run env (processSingleFile goos filePath config) (world_of fs0).

Definition expected (filePath : string) : string * string * option error :=
  (filePath, fst (fst (alone filePath)), snd (fst (alone filePath))).

Definition written (filePath : string) : option bytes :=
  files (snd (alone filePath)) !! getOutputPath goos filePath.

(** A worker inside the loop body for [filePath] is on course: it has not
    started the pipeline and the destination is untouched; or what is left of
    the pipeline, run from the present world, returns what the job returns
    alone and leaves the destination as the job alone does; or it holds the
    finished result. *)
Definition on_course (filePath : string) (p : Prog ProcessResult) (w : World) : Prop :=
  (p = worker_body goos filePath config /\
   files w !! getOutputPath goos filePath = fs0 !! getOutputPath goos filePath)
  \/
  (exists q startTime,
     p = bind q (finish filePath startTime) /\
     confined filePath (getOutputPath goos filePath) q /\
     fst (run env q w) = fst (alone filePath) /\
     files (snd (run env q w)) !! getOutputPath goos filePath = written filePath)
  \/
  (exists r, p = Ret r /\ outcome r = expected filePath /\
     files w !! getOutputPath goos filePath = written filePath).

Variable input : list string.

Record det_inv (s : Pool) : Prop := {
  det_frame :
    forall path, (forall f, f ∈ input -> getOutputPath goos f <> path) ->
      files (world s) !! path = fs0 !! path;
  det_pending :
    forall f, f ∈ (unsent input (main s) ++ buf (jobs s))%list ->
      files (world s) !! getOutputPath goos f = fs0 !! getOutputPath goos f;
  det_done :
    forall r, r ∈ (buf (results s) ++ allResults s)%list ->
      outcome r = expected (FilePath r) /\
      files (world s) !! getOutputPath goos (FilePath r) = written (FilePath r);
  det_busy :
    forall i filePath p, workers s !! i = Some (WBody filePath p) ->
      on_course filePath p (world s)
}.

End Reference.

(** No job reads what another job (or itself) writes, and no two jobs write
    the same file. *)
Definition jobs_apart (goos : GOOS) (input : list string) : Prop :=
  NoDup (map (getOutputPath goos) input) /\
  forall f g, f ∈ input -> g ∈ input -> getOutputPath goos g <> f.

(** ** Concrete runs of the pool *)

Definition two_files : gmap string bytes :=
  {[ "a.txt" := bytes_of "hello"; "b.txt" := bytes_of "world" ]}.

(** Two sources that differ in the case of their extension only: the
    scanner accepts both, and both have the destination "a.mp3". *)
Definition two_cases : gmap string bytes :=
  {[ "a.txt" := bytes_of "x"; "a.TXT" := bytes_of "y" ]}.

(** One worker, two jobs that succeed: the main goroutine starts the worker,
    sends both jobs and closes the channel; the worker takes each job through
    the loop body and leaves; the results are closed and collected. *)
Definition schedule_one_worker : list Tid :=
  (repeat TMain 5 ++ repeat (TWorker 0) 15 ++ [TWaiter] ++ repeat TMain 3)%list.

(** Two workers, two jobs that succeed: each worker takes one job; the
    second worker finishes its job before the first one goes on. *)
Definition schedule_two_workers : list Tid :=
  (repeat TMain 6 ++ [TWorker 0; TWorker 1] ++ repeat (TWorker 1) 6
   ++ repeat (TWorker 0) 6 ++ [TWorker 0; TWorker 1; TWaiter] ++ repeat TMain 3)%list.

(** Two workers, two jobs that fail after the request (no write). *)
Definition schedule_two_failures : list Tid :=
  (repeat TMain 6 ++ [TWorker 0; TWorker 1] ++ repeat (TWorker 1) 5
   ++ repeat (TWorker 0) 5 ++ [TWorker 0; TWorker 1; TWaiter] ++ repeat TMain 3)%list.

(** Two workers, two jobs: the second worker fails to read its source at
    once, before the first worker has done anything for its job. *)
Definition schedule_second_reads_first : list Tid :=
  (repeat TMain 6 ++ [TWorker 0; TWorker 1] ++ repeat (TWorker 1) 4
   ++ repeat (TWorker 0) 6 ++ [TWorker 0; TWorker 1; TWaiter] ++ repeat TMain 3)%list.

(** The pool at the end of a schedule (the initial pool if the schedule
    cannot be followed). *)
Definition pool_after (goos : GOOS) (env : Env) (config : AppConfig)
    (input : list string) (sched : list Tid) (w : World) : Pool :=
  match exec goos env config input sched (pool_init input w) with
  | Some s => s
  | None => pool_init input w
  end.

(** ** Results and the files they name: vocabulary *)

(** A result for [filePath], given the events so far: a nil error comes
    with the output path of the job and a successful write to it; an error
    comes with an empty output path. *)
Definition good_result (goos : GOOS) (evs : list Event) (filePath : string)
    (r : ProcessResult) : Prop :=
  FilePath r = filePath /\
  (Error r = None ->
   OutputPath r = getOutputPath goos filePath /\
   exists data, In (EvWrite (OutputPath r) data true) evs) /\
  (Error r <> None -> OutputPath r = "").

(** Whatever the environment answers from now on, the loop body ends in a
    good result; a write is an event once it has succeeded. *)
Fixpoint sound (goos : GOOS) (evs : list Event) (filePath : string)
    (p : Prog ProcessResult) : Prop :=
  match p with
  | Ret r => good_result goos evs filePath r
  | Now k => forall t, sound goos evs filePath (k t)
  | ReadFile _ k => forall a, sound goos evs filePath (k a)
  | Post _ _ _ _ k => forall a, sound goos evs filePath (k a)
  | WriteFile name data _ k =>
    name <> "" /\
    sound goos (EvWrite name data true :: evs) filePath (k None) /\
    forall e, sound goos evs filePath (k (Some e))
  end.

Definition named_write (ev : Event) : Prop :=
  match ev with
  | EvWrite name _ _ => name <> ""
  | _ => True
  end.

(** The events since the pool started in [w0], and what they say about the
    files, the workers and the results. *)
Definition results_inv (goos : GOOS) (w0 : World) (s : Pool) : Prop :=
  exists evs,
    log (world s) = (log w0 ++ evs)%list /\
    Forall named_write evs /\
    (forall name data, In (EvWrite name data true) evs ->
       is_Some (files (world s) !! name)) /\
    (forall i filePath p, workers s !! i = Some (WBody filePath p) ->
       sound goos evs filePath p) /\
    (forall r, r ∈ (buf (results s) ++ allResults s)%list ->
       good_result goos evs (FilePath r) r).


(** ** Path elements *)

(** Every byte of the string satisfies [f]. *)
Fixpoint str_forall (f : ascii -> bool) (s : string) : bool :=
  match s with
  | EmptyString => true
  | String c s' => f c && str_forall f s'
  end.

(** A file name: no path separator in it. *)
Definition is_name (goos : GOOS) (s : string) : bool :=
  str_forall (fun c => negb (os_IsPathSeparator goos c)) s.

(** The letters of an extension: neither a dot nor a path separator. *)
Definition is_plain (goos : GOOS) (s : string) : bool :=
  str_forall (fun c => negb (Ascii.eqb c ".") && negb (os_IsPathSeparator goos c)) s.

(** ** Success and failure of a result *)

(** [result.Error == nil] *)
Definition succeeded (r : ProcessResult) : bool :=
  match Error r with
  | None => true
  | Some _ => false
  end.

(** Whether the job of [filePath], run alone on the files [fs0], succeeds. *)
Definition succeeds_alone (goos : GOOS) (env : Env) (config : AppConfig)
    (fs0 : gmap string bytes) (filePath : string) : bool :=
  match snd (fst (alone goos env config fs0 filePath)) with
  | None => true
  | Some _ => false
  end.

(** Two workers, two jobs, stopped midway: both jobs are sent and the job
    channel is closed, the first worker has taken its job and read the
    clock. *)
Definition schedule_midway : list Tid :=
  (repeat TMain 6 ++ [TWorker 0; TWorker 0])%list.

(** ** One worker: the order of the jobs *)

(** The jobs in the order in which their results will be collected: those
    collected, those waiting in the results channel, the one a worker holds,
    those waiting in the job channel, those still to send. *)
Definition in_order (input : list string) (s : Pool) : list string :=
  (map FilePath (allResults s ++ buf (results s)) ++ inflight (workers s)
   ++ buf (jobs s) ++ unsent input (main s))%list.

(** ** The footprint of a job *)

(** A call of the job with source [src] and destination [dst]: a read of
    the source, a call of [client.Post] with the synthesis URL and the
    content type of JSON, a write to the destination. *)
Definition own_event (config : AppConfig) (src dst : string) (ev : Event) : Prop :=
  match ev with
  | EvRead name => name = src
  | EvPost url contentType _ =>
    url = ServerURL config ++ "/synthesize" /\ contentType = "application/json"
  | EvWrite name _ _ => name = dst
  end.

(** Whatever the environment answers, the program reads no file but [src],
    writes no file but [dst] and calls [client.Post] with the synthesis URL
    only, with the timeout of the configuration. *)
Fixpoint job_footprint {A : Type} (config : AppConfig) (src dst : string)
    (p : Prog A) : Prop :=
  match p with
  | Ret _ => True
  | Now k => forall t, job_footprint config src dst (k t)
  | ReadFile name k => name = src /\ forall r, job_footprint config src dst (k r)
  | Post timeout url contentType _ k =>
    (timeout = Timeout config /\ url = ServerURL config ++ "/synthesize" /\
     contentType = "application/json") /\
    forall r, job_footprint config src dst (k r)
  | WriteFile name _ _ k => name = dst /\ forall r, job_footprint config src dst (k r)
  end.

(** An operation of one of the jobs of the pool. *)
Definition job_event (goos : GOOS) (config : AppConfig) (input : list string)
    (ev : Event) : Prop :=
  exists f, f ∈ input /\ own_event config f (getOutputPath goos f) ev.

Definition footprint_inv (goos : GOOS) (config : AppConfig) (input : list string)
    (w0 : World) (s : Pool) : Prop :=
  (exists evs, log (world s) = (log w0 ++ evs)%list /\
               Forall (job_event goos config input) evs) /\
  (forall path, (forall f, f ∈ input -> getOutputPath goos f <> path) ->
     files (world s) !! path = files w0 !! path) /\
  (forall path, is_Some (files w0 !! path) -> is_Some (files (world s) !! path)) /\
  (forall i f p, workers s !! i = Some (WBody f p) ->
     job_footprint config f (getOutputPath goos f) p).

(** ** Counting the operations of the pool *)

(** The kinds of call that reach the outside world: the reads, the calls
    of [client.Post], the writes, the reads of one file and the writes to one
    file. *)
Inductive Op : Type :=
  | OpRead
  | OpPost
  | OpWrite
  | OpReadOf (name : string)
  | OpWriteTo (name : string).

Definition is_op (o : Op) (ev : Event) : bool :=
  match o, ev with
  | OpRead, EvRead _ => true
  | OpPost, EvPost _ _ _ => true
  | OpWrite, EvWrite _ _ _ => true
  | OpReadOf x, EvRead name => String.eqb name x
  | OpWriteTo x, EvWrite name _ _ => String.eqb name x
  | _, _ => false
  end.

(** The jobs that can perform an operation of kind [o]: every job reads,
    posts and writes; only the job of [x] reads [x], and only a job whose
    output path is [x] writes to [x]. *)
Definition may_use (goos : GOOS) (o : Op) (filePath : string) : bool :=
  match o with
  | OpReadOf x => String.eqb filePath x
  | OpWriteTo x => String.eqb (getOutputPath goos filePath) x
  | _ => true
  end.

(** One unit of the budget [n] is spent when [b] holds. *)
Definition spend (b : bool) (n : nat) (P : nat -> Prop) : Prop :=
  if b then match n with O => False | S m => P m end else P n.

(** Whatever the environment answers, the program performs at most [n]
    operations of kind [o]. *)
Fixpoint uses_within {A : Type} (o : Op) (n : nat) (p : Prog A) : Prop :=
  match p with
  | Ret _ => True
  | Now k => forall t, uses_within o n (k t)
  | ReadFile name k =>
    spend (is_op o (EvRead name)) n (fun m => forall r, uses_within o m (k r))
  | Post _ url contentType body k =>
    spend (is_op o (EvPost url contentType body)) n
          (fun m => forall r, uses_within o m (k r))
  | WriteFile name data _ k =>
    spend (is_op o (EvWrite name data true)) n (fun m => forall r, uses_within o m (k r))
  end.

(** What a worker may still spend on the job it holds. *)
Definition job_budget (o : Op) (wk : Worker) (c : nat) : Prop :=
  match wk with
  | WBody _ p => uses_within o c p
  | _ => c = 0%nat
  end.

(** The operations of kind [o] performed so far, those the workers may
    still perform and the jobs for [o] that have not reached a worker are no
    more than the input files that are jobs for [o]. *)
Definition usage_inv (goos : GOOS) (o : Op) (input : list string) (w0 : World)
    (s : Pool) : Prop :=
  exists evs cs,
    log (world s) = (log w0 ++ evs)%list /\
    Forall2 (job_budget o) (workers s) cs /\
    (length (List.filter (is_op o) evs) + sum_list cs
     + length (List.filter (may_use goos o) (buf (jobs s)))
     + length (List.filter (may_use goos o) (unsent input (main s)))
     <= length (List.filter (may_use goos o) input))%nat.

(** ** Package strings, continued *)

(** [strings.ToLower] on the ASCII letters.  A byte outside ASCII is kept:
    Unicode lower-casing never yields ".", "t" or "x" from a non-ASCII rune,
    so the comparison of a lowered extension with ".txt" is decided by the
    ASCII letters. *)
Definition ascii_lower (c : ascii) : ascii :=
  let n := nat_of_ascii c in
  if ((65 <=? n) && (n <=? 90))%nat then ascii_of_nat (n + 32) else c.

Fixpoint strings_ToLower (s : string) : string :=
  match s with
  | EmptyString => EmptyString
  | String c s' => String (ascii_lower c) (strings_ToLower s')
  end.

(** [strings.Split(s, "/")] *)
Fixpoint split_slash (s : string) : list string :=
  match s with
  | EmptyString => [EmptyString]
  | String c s' =>
    if Ascii.eqb c "/" then EmptyString :: split_slash s'
    else match split_slash s' with
         | e :: es => String c e :: es
         | [] => [String c EmptyString]
         end
  end.

(** ** Package path/filepath on Unix: [Clean], [Join], [Dir]

    Paths are taken apart into their elements.  The Windows versions also
    deal with volume names and are not modelled. *)

(** One element of the path read by [Clean]; [out] holds the elements
    written so far, the last one first.  An empty element and "." are
    dropped; ".." removes the element before it, is dropped at the root and
    is kept at the start of a relative path. *)
Definition clean_step (rooted : bool) (out : list string) (e : string) : list string :=
  if String.eqb e "" || String.eqb e "." then out
  else if String.eqb e ".." then
    match out with
    | top :: rest => if String.eqb top ".." then e :: out else rest
    | [] => if rooted then [] else [e]
    end
  else e :: out.

Definition is_rooted (path : string) : bool :=
  match path with
  | String c _ => Ascii.eqb c "/"
  | EmptyString => false
  end.

(** [filepath.Clean] *)
Definition filepath_Clean (path : string) : string :=
  if String.eqb path "" then "."
  else
    let rooted := is_rooted path in
    let out := fold_left (clean_step rooted) (split_slash path) [] in
    let body := String.concat "/" (rev out) in
    if rooted then "/" ++ body
    else if String.eqb body "" then "." else body.

(** [filepath.Join(a, b)]: the first non-empty element starts the path. *)
Definition filepath_Join (a b : string) : string :=
  if negb (String.eqb a "") then filepath_Clean (a ++ "/" ++ b)
  else if negb (String.eqb b "") then filepath_Clean b
  else "".

(** ** scanner.go: the directory tree and [discoverFiles] *)

(** What is found at a path: a file (anything that is neither a directory
    nor a symbolic link), a symbolic link with what it points to, a directory
    with its entries sorted by name (as [os.ReadDir] and [filepath.Walk] list
    them), or a directory whose entries cannot be read. *)
#[warnings="-register-all"]
Inductive Node : Type :=
| File
| Symlink (target : option Node)
| Dir (entries : list (string * Node))
| Locked (msg : string).

(** [info.IsDir()] after [os.Lstat], [entry.IsDir()] for an entry. *)
Definition IsDir (n : Node) : bool :=
  match n with
  | Dir _ | Locked _ => true
  | File | Symlink _ => false
  end.

(** [os.ReadDir(root)], where [root] is what [os.Lstat] finds at the path
    (or the error it returns): the path is opened, so links are followed. *)
Fixpoint read_dir (n : Node) : list (string * Node) + error :=
  match n with
  | File => inr (SysError false "not a directory")
  | Symlink None => inr (SysError false "no such file or directory")
  | Symlink (Some target) => read_dir target
  | Dir entries => inl entries
  | Locked msg => inr (SysError false msg)
  end.

Definition os_ReadDir (root : Node + string) : list (string * Node) + error :=
  match root with
  | inr msg => inr (SysError false msg)
  | inl n => read_dir n
  end.

(** [strings.ToLower(filepath.Ext(path)) == ".txt"] *)
Definition is_txt (path : string) : bool :=
  String.eqb (strings_ToLower (filepath_Ext Linux path)) ".txt".

(** [filepath.Walk] with the function literal of [discoverFiles]: the
    function returns nil in every case, so the walk visits everything it can
    reach; a directory is listed and its entries are walked in order, a
    directory that cannot be listed is logged and skipped, anything else is
    kept when its path ends in ".txt". *)
Fixpoint walk (path : string) (n : Node) : list string :=
  match n with
  | Dir entries =>
    (fix walk_entries (es : list (string * Node)) : list string :=
       match es with
       | [] => []
       | (name, child) :: es' =>
         (walk (filepath_Join path name) child ++ walk_entries es')%list
       end) entries
  | Locked _ => []
  | File | Symlink _ => if is_txt path then [path] else []
  end.

(** The loop over the entries of the root directory in the non-recursive
    scan. *)
Fixpoint scan_entries (rootPath : string) (entries : list (string * Node)) : list string :=
  match entries with
  | [] => []
  | (name, entry) :: rest =>
    if IsDir entry then scan_entries rootPath rest
    else if is_txt name then filepath_Join rootPath name :: scan_entries rootPath rest
    else scan_entries rootPath rest
  end.

(** [discoverFiles(rootPath, recursive)] *)
Definition discoverFiles (rootPath : string) (recursive : bool) (root : Node + string)
  : list string + error :=
  if recursive then
    inl (match root with
         | inr _ => []        (* the error of Lstat is logged, the walk goes on *)
         | inl n => walk rootPath n
         end)
  else
    match os_ReadDir root with
    | inr err => inr err
    | inl entries => inl (scan_entries rootPath entries)
    end.

(** A name as a directory lists it: not empty, no separator, neither "."
    nor "..". *)
Definition valid_name (name : string) : bool :=
  is_name Linux name && negb (String.eqb name "") && negb (String.eqb name ".")
  && negb (String.eqb name "..").

(** Every entry below the node, or below what it links to, has a valid
    name. *)
Fixpoint valid_tree (n : Node) : Prop :=
  match n with
  | Symlink (Some target) => valid_tree target
  | Dir entries =>
    (fix valid_entries (es : list (string * Node)) : Prop :=
       match es with
       | [] => True
       | (name, child) :: es' =>
         valid_name name = true /\ valid_tree child /\ valid_entries es'
       end) entries
  | _ => True
  end.

(** A small library: two chapters, a cover, notes in upper case, and a
    directory of drafts with a text and a link. *)
Definition library : Node :=
  Dir [("NOTES.TXT", File);
       ("ch1.txt", File);
       ("ch2.txt", File);
       ("cover.jpg", File);
       ("drafts", Dir [("ch3.txt", File); ("old.txt", Symlink (Some File))])].

(** [filepath.Dir] (Unix): the path up to its last separator, cleaned.
    [dir_loop path n] is [i + 1] for the last separator index [i] below
    [n], and 0 when there is none. *)
Fixpoint dir_loop (path : string) (n : nat) : nat :=
  match n with
  | O => O
  | S i =>
    match String.get i path with
    | Some c => if Ascii.eqb c "/" then S i else dir_loop path i
    | None => dir_loop path i
    end
  end.

Definition filepath_Dir (path : string) : string :=
  filepath_Clean (str_take (dir_loop path (String.length path)) path).

(** ** config.go *)

Module ClientConfig.

Record t := {
  ServerURL : string;
  Timeout : Z;     (* in seconds *)
  Workers : Z
}.

End ClientConfig.

Definition DefaultConfig : ClientConfig.t :=
  {| ClientConfig.ServerURL := "http://localhost:8000";
     ClientConfig.Timeout := 600;
     ClientConfig.Workers := 1 |}.

(** [validateConfig(&config)]: the configuration after the call and the
    error returned.  The warnings are log lines. *)
Definition validateConfig (config : ClientConfig.t) : ClientConfig.t * option error :=
  (* Validate server URL *)
  if String.eqb (ClientConfig.ServerURL config) "" then
    (config, Some (Errorf "server_url cannot be empty"))
  else
    (* Validate timeout *)
    let config :=
      if ClientConfig.Timeout config <=? 0
      then {| ClientConfig.ServerURL := ClientConfig.ServerURL config;
              ClientConfig.Timeout := 600;
              ClientConfig.Workers := ClientConfig.Workers config |}
      else config in
    (* Validate workers *)
    let config :=
      if ClientConfig.Workers config <? 1
      then {| ClientConfig.ServerURL := ClientConfig.ServerURL config;
              ClientConfig.Timeout := ClientConfig.Timeout config;
              ClientConfig.Workers := 1 |}
      else config in
    (config, None).

(** [os.IsNotExist(err)] for the error of [os.Stat(path)]: the world holds
    the regular files, and a path without one does not exist. *)
Definition os_Stat_IsNotExist (w : World) (path : string) : bool :=
  bool_decide (files w !! path = None).

Section Config.

(** What [json.Unmarshal(data, &config)] makes of the bytes of a file, for
    a zero [config], and the bytes [json.MarshalIndent] renders for the
    example configuration. *)
Variable json_Unmarshal : bytes -> ClientConfig.t + error.
Variable example_json : bytes.

Definition loadConfigFile (env : Env) (path : string) (w : World)
  : (ClientConfig.t + error) * World :=
  let '(r, w') := os_ReadFile env path w in
  match r with
  | inr err => (inr (Errorf_w "failed to read file" err), w')
  | inl data =>
    match json_Unmarshal data with
    | inr err => (inr (Errorf_w "failed to parse JSON" err), w')
    | inl config => (inl config, w')
    end
  end.

Definition createExampleConfig (env : Env) (path : string) (w : World)
  : option error * World :=
  let '(r, w') := os_WriteFile env path example_json w in
  match r with
  | Some err => (Some (Errorf_w "failed to write file" err), w')
  | None => (None, w')
  end.

(** [LoadConfig()], given what [os.Executable()] returns. *)
Definition LoadConfig (env : Env) (exe : string + error) (w : World)
  : ClientConfig.t * World :=
  match exe with
  | inr _ => (DefaultConfig, w)
  | inl exePath =>
    let exeDir := filepath_Dir exePath in
    let configPath := filepath_Join exeDir "config.json" in
    let examplePath := filepath_Join exeDir "config.example.json" in
    (* Check if config.json exists *)
    if os_Stat_IsNotExist w configPath then
      (* Create config.example.json if it doesn't exist *)
      let w' := if os_Stat_IsNotExist w examplePath
                then snd (createExampleConfig env examplePath w)
                else w in
      (DefaultConfig, w')
    else
      (* Load config.json *)
      let '(r, w') := loadConfigFile env configPath w in
      match r with
      | inr _ => (DefaultConfig, w')
      | inl config =>
        (* Validate configuration *)
        let '(config, err) := validateConfig config in
        match err with
        | Some _ => (DefaultConfig, w')
        | None => (config, w')
        end
      end
  end.

End Config.

(** A configuration that [run] can use. *)
Definition usable (config : ClientConfig.t) : Prop :=
  ClientConfig.ServerURL config <> "" /\ 0 < ClientConfig.Timeout config /\
  1 <= ClientConfig.Workers config.

(** ** main.go: [main] after [flag.Parse()] *)

(** What the command line gives for each flag, if it names the flag. *)
Record CommandLine := {
  cl_workers : option Z;
  cl_scan : option string;
  cl_recursive : option bool;
  cl_verbose : option bool;
  cl_server : option string;
  cl_timeout : option Z
}.

(** The value of a flag variable after [flag.Parse()]. *)
Definition flag {A : Type} (given : option A) (default : A) : A :=
  match given with
  | Some v => v
  | None => default
  end.

(** An [int64] after an operation that overflows. *)
Definition int64 (z : Z) : Z := (z + 2 ^ 63) mod 2 ^ 64 - 2 ^ 63.

Definition time_Second : Z := 1000000000.

(** [main] up to the call of [run]: the configuration [run] is called with,
    or the status of [os.Exit].  [scan_missing] is
    [os.IsNotExist(err)] for [os.Stat(config.ScanPath)]. *)
Definition main_config (clientConfig : ClientConfig.t) (cl : CommandLine)
    (scan_missing : bool) : AppConfig + Z :=
  let workersFlag := flag (cl_workers cl) (ClientConfig.Workers clientConfig) in
  let serverFlag := flag (cl_server cl) (ClientConfig.ServerURL clientConfig) in
  let timeoutFlag := flag (cl_timeout cl) (ClientConfig.Timeout clientConfig) in
  let config :=
    {| Workers := workersFlag;
       ScanPath := flag (cl_scan cl) "";
       Recursive := flag (cl_recursive cl) false;
       Verbose := flag (cl_verbose cl) false;
       ServerURL := serverFlag;
       Timeout := int64 (timeoutFlag * time_Second) |} in
  (* Validate required flags *)
  if String.eqb (ScanPath config) "" then inr 1
  (* Validate scan path exists *)
  else if scan_missing then inr 1
  (* Validate workers count *)
  else if Workers config <? 1 then inr 1
  (* Validate timeout *)
  else if Timeout config <? 1 * time_Second then inr 1
  else inl config.

(** The exit status of [main], given what is found at the scan path and the
    results [processFiles] returns when it is called. *)
Definition main_status (clientConfig : ClientConfig.t) (cl : CommandLine)
    (scan_missing : bool) (root : Node + string) (results : list ProcessResult) : Z :=
  match main_config clientConfig cl scan_missing with
  | inr status => status
  | inl config =>
    main_exit (discoverFiles (ScanPath config) (Recursive config) root) results
  end.

(** The command line [-scan <path>], with [-recursive] or without. *)
Definition scan_only (path : string) (recursive : bool) : CommandLine :=
  {| cl_workers := None; cl_scan := Some path;
     cl_recursive := if recursive then Some true else None;
     cl_verbose := None; cl_server := None; cl_timeout := None |}.

(** An installation with a configuration file next to the executable (its
    bytes stand for the JSON text), and what the file decodes to: a server, a
    timeout of zero, four workers. *)
Definition installed : gmap string bytes :=
  {[ "/opt/maya/config.json" :=
       bytes_of "server_url: https://pod.example:7777, timeout: 0, workers: 4" ]}.

Definition decoded_config : ClientConfig.t :=
  {| ClientConfig.ServerURL := "https://pod.example:7777";
     ClientConfig.Timeout := 0;
     ClientConfig.Workers := 4 |}.

(** The command line [-scan books -timeout <t>]. *)
Definition scan_with_timeout (t : Z) : CommandLine :=
  {| cl_workers := None; cl_scan := Some "books"; cl_recursive := None;
     cl_verbose := None; cl_server := None; cl_timeout := Some t |}.

(** ** main.go: [run], from the scan to the summary *)

(** [run(config)] on Unix can return [err], leaving the world [w'], after
    having printed the counters [summary] (nothing is printed when no file is
    processed). *)
Definition run_returns (env : Env) (config : AppConfig) (root : Node + string)
    (w : World) (err : option error) (summary : option (Z * Z)) (w' : World) : Prop :=
  (* Step 1: Discover text files *)
  match discoverFiles (ScanPath config) (Recursive config) root with
  | inr e => err = Some (Errorf_w "failed to scan files" e) /\ summary = None /\ w' = w
  | inl files =>
    if (length files =? 0)%nat then err = None /\ summary = None /\ w' = w
    else
      (* Step 2: Process files with worker pool; Step 3: Print summary *)
      exists results,
        processFiles_returns Linux env config files w results w' /\
        err = None /\ summary = Some (printSummary results)
  end.

(** A directory "books" with two texts, and its files. *)
Definition books : Node := Dir [("a.txt", File); ("b.txt", File)].

Definition books_files : gmap string bytes :=
  {[ "books/a.txt" := bytes_of "hello"; "books/b.txt" := bytes_of "world" ]}.

(** [main] after [LoadConfig()] and [flag.Parse()], on Unix: it can end
    with the exit status [status] (0 when it returns), leaving the world
    [w']. *)
Definition main_exits (clientConfig : ClientConfig.t) (cl : CommandLine)
    (scan_missing : bool) (root : Node + string) (env : Env) (w : World)
    (status : Z) (w' : World) : Prop :=
  match main_config clientConfig cl scan_missing with
  | inr code => status = code /\ w' = w
  | inl config =>
    (* if err := run(config); err != nil { ...; os.Exit(1) } *)
    exists err summary,
      run_returns env config root w err summary w' /\
      status = match err with Some _ => 1 | None => 0 end
  end.

(** The entries of every directory below the node, or below what it links
    to, have names of their own: a directory never lists a name twice. *)
Fixpoint distinct_names (n : Node) : Prop :=
  match n with
  | Symlink (Some target) => distinct_names target
  | Dir entries =>
    NoDup (map fst entries) /\
    (fix distinct_entries (es : list (string * Node)) : Prop :=
       match es with
       | [] => True
       | (_, child) :: es' => distinct_names child /\ distinct_entries es'
       end) entries
  | _ => True
  end.

(** The elements [Clean] keeps of a path, the last one first. *)
Definition clean_stack (path : string) : list string :=
  fold_left (clean_step (is_rooted path)) (split_slash path) [].

(** What [Clean] leaves on its stack: names other than "" and ".", with
    ".." at the start of a relative path only. *)
Fixpoint stack_ok (rooted : bool) (out : list string) : Prop :=
  match out with
  | [] => True
  | e :: rest =>
    is_name Linux e = true /\ String.eqb e "" = false /\ String.eqb e "." = false /\
    (String.eqb e ".." = true ->
     rooted = false /\ match rest with [] => True | top :: _ => String.eqb top ".." = true end) /\
    stack_ok rooted rest
  end.

(* ===================================================================== *)
(** * Properties *)
(* ===================================================================== *)

(** ** Strings and paths *)

Lemma str_app_cons (c : ascii) (a b : string) : String c a ++ b = String c (a ++ b).
Proof. reflexivity. Qed.

Lemma str_take_drop (n : nat) (s : string) : str_take n s ++ str_drop n s = s.
Proof.
  revert s; induction n as [|n IH]; intros [|c s]; simpl; auto.
  rewrite str_app_cons. f_equal. apply IH.
Qed.

Lemma str_drop_length (n : nat) (s : string) :
  String.length (str_drop n s) = (String.length s - n)%nat.
Proof.
  revert s; induction n as [|n IH]; intros [|c s]; simpl; auto.
Qed.

Lemma str_drop_all (s : string) : str_drop (String.length s) s = "".
Proof. induction s; simpl; auto. Qed.

Lemma str_take_all (s : string) : str_take (String.length s) s = s.
Proof. induction s; simpl; auto. now f_equal. Qed.

Lemma str_app_nil_r (s : string) : s ++ "" = s.
Proof. induction s as [|c s IH]; [reflexivity |]. rewrite str_app_cons. now f_equal. Qed.

Lemma str_get_lt (i : nat) (s : string) (c : ascii) :
  String.get i s = Some c -> (i < String.length s)%nat.
Proof.
  revert i; induction s as [|a s IH]; intros [|i]; simpl; try discriminate; try lia.
  intros H. apply IH in H. lia.
Qed.

Lemma str_get_some (i : nat) (s : string) :
  (i < String.length s)%nat -> exists c, String.get i s = Some c.
Proof.
  revert i; induction s as [|a s IH]; intros [|i]; simpl; try lia; eauto.
  intros H. apply IH. lia.
Qed.

Lemma dot_is_no_separator (goos : GOOS) : os_IsPathSeparator goos "." = false.
Proof. destruct goos; reflexivity. Qed.

(** The loop of [filepath.Ext] finds the last dot after the last separator. *)
Lemma ext_loop_cases (goos : GOOS) (path : string) (n : nat) :
  (n <= String.length path)%nat ->
  (ext_loop goos path n = "" /\
   forall i, (i < n)%nat -> String.get i path = Some "."%char ->
     exists j c, (i < j < n)%nat /\ String.get j path = Some c /\
                 os_IsPathSeparator goos c = true)
  \/
  (exists i, (i < n)%nat /\ String.get i path = Some "."%char /\
     ext_loop goos path n = str_drop i path /\
     forall j c, (i < j < n)%nat -> String.get j path = Some c ->
       c <> "."%char /\ os_IsPathSeparator goos c = false).
Proof.
  induction n as [|n IH]; intros Hn.
  - left. split; [reflexivity | intros i Hi; lia].
  - destruct (str_get_some n path) as [c Hc]; [lia |].
    simpl. rewrite Hc.
    destruct (os_IsPathSeparator goos c) eqn:Hsep.
    + left. split; [reflexivity |]. intros i Hi Hdot.
      destruct (decide (i = n)) as [->|Hne].
      * rewrite Hc in Hdot. injection Hdot as ->.
        rewrite dot_is_no_separator in Hsep. discriminate.
      * exists n, c. repeat split; auto; lia.
    + destruct (Ascii.eqb c ".") eqn:Hdot.
      * apply Ascii.eqb_eq in Hdot. subst c. right.
        exists n. repeat split; auto; lia.
      * apply Ascii.eqb_neq in Hdot.
        destruct IH as [[He Hall]|(i & Hi & Hgi & He & Hall)]; [lia | |].
        -- left. split; [exact He |]. intros i Hi Hgi.
           destruct (decide (i = n)) as [->|Hne]; [congruence |].
           destruct (Hall i) as (j & c' & Hj & Hgj & Hs); [lia | exact Hgi |].
           exists j, c'. repeat split; auto; lia.
        -- right. exists i. repeat split; auto.
           ++ destruct (decide (j = n)) as [->|Hne]; [congruence |].
              apply (Hall j c0); auto; lia.
           ++ destruct (decide (j = n)) as [->|Hne]; [congruence |].
              apply (Hall j c0); auto; lia.
Qed.

Lemma filepath_Ext_final (goos : GOOS) (path : string) :
  final_extension goos path (filepath_Ext goos path).
Proof.
  unfold filepath_Ext, final_extension.
  destruct (ext_loop_cases goos path (String.length path)) as
    [[He Hall]|(i & Hi & Hgi & He & Hall)]; [lia | |].
  - left. split; [exact He |]. intros i Hgi.
    destruct (Hall i) as (j & c & Hj & Hgj & Hs); [eapply str_get_lt; eauto | exact Hgi |].
    exists j, c. repeat split; auto; lia.
  - right. exists i. repeat split; auto.
    + apply (Hall j c); auto. split; [lia |]. eapply str_get_lt; eauto.
    + apply (Hall j c); auto. split; [lia |]. eapply str_get_lt; eauto.
Qed.

Lemma TrimSuffix_drop (i : nat) (s : string) :
  (i <= String.length s)%nat ->
  strings_TrimSuffix s (str_drop i s) = str_take i s.
Proof.
  intros Hi. unfold strings_TrimSuffix, strings_HasSuffix.
  rewrite str_drop_length.
  replace (String.length s - (String.length s - i))%nat with i by lia.
  rewrite String.eqb_refl.
  destruct (Nat.leb_spec (String.length s - i) (String.length s)); [reflexivity | lia].
Qed.

Lemma TrimSuffix_empty (s : string) : strings_TrimSuffix s "" = s.
Proof.
  pose proof (TrimSuffix_drop (String.length s) s (le_n _)) as H.
  now rewrite str_drop_all, str_take_all in H.
Qed.

Lemma getOutputPath_stem (goos : GOOS) (path : string) :
  exists stem, path = stem ++ filepath_Ext goos path /\
               getOutputPath goos path = stem ++ ".mp3".
Proof.
  unfold getOutputPath, filepath_Ext.
  destruct (ext_loop_cases goos path (String.length path)) as
    [[He _]|(i & Hi & _ & He & _)]; [lia | |]; rewrite He.
  - exists path. split; [now rewrite str_app_nil_r |].
    now rewrite TrimSuffix_empty.
  - exists (str_take i path). split; [now rewrite str_take_drop |].
    rewrite TrimSuffix_drop by lia. reflexivity.
Qed.

(** C5. For every source path, [getOutputPath] returns the path with its
    final extension (the suffix from the last dot of the last path element,
    or nothing when that element has no dot) replaced by ".mp3"; in
    particular "chapter1.txt" gives "chapter1.mp3" and "file.txt.backup"
    gives "file.txt.mp3". *)
Theorem getOutputPath_replaces_final_extension (goos : GOOS) (path : string) :
  (exists stem, path = stem ++ filepath_Ext goos path /\
                getOutputPath goos path = stem ++ ".mp3") /\
  final_extension goos path (filepath_Ext goos path) /\
  getOutputPath goos "chapter1.txt" = "chapter1.mp3" /\
  getOutputPath goos "file.txt.backup" = "file.txt.mp3".
Proof.
  split; [apply getOutputPath_stem |].
  split; [apply filepath_Ext_final |].
  destruct goos; split; reflexivity.
Qed.

(** ** Decimal rendering and the status message *)

Lemma string_of_uint_no_colon (d : Decimal.uint) (i : nat) :
  String.get i (NilEmpty.string_of_uint d) <> Some ":"%char.
Proof.
  revert i; induction d; intros [|i]; simpl; try discriminate; auto.
Qed.

Lemma NilZero_string_of_uint_nonnil (d : Decimal.uint) :
  d <> Decimal.Nil -> NilZero.string_of_uint d = NilEmpty.string_of_uint d.
Proof. destruct d; auto; congruence. Qed.

Lemma itoa_no_colon (z : Z) : no_colon (itoa z).
Proof.
  unfold itoa, no_colon. intros i.
  destruct z as [|p|p]; simpl.
  - destruct i as [|[|i]]; simpl; discriminate.
  - rewrite NilZero_string_of_uint_nonnil by apply Unsigned.to_uint_nonnil.
    apply string_of_uint_no_colon.
  - destruct i as [|i]; simpl; [discriminate |].
    rewrite NilZero_string_of_uint_nonnil by apply Unsigned.to_uint_nonnil.
    apply string_of_uint_no_colon.
Qed.

Lemma itoa_inj (a b : Z) : itoa a = itoa b -> a = b.
Proof.
  unfold itoa. intros H.
  assert (Hn : forall z, Z.to_int z <> Decimal.Pos Decimal.Nil /\
                         Z.to_int z <> Decimal.Neg Decimal.Nil).
  { intros [|p|p]; simpl; split; try discriminate;
      intros E; injection E as E; now apply Unsigned.to_uint_nonnil in E. }
  apply to_int_inj.
  pose proof (NilZero.isi (Z.to_int a) (proj1 (Hn a)) (proj2 (Hn a))) as Ha.
  pose proof (NilZero.isi (Z.to_int b) (proj1 (Hn b)) (proj2 (Hn b))) as Hb.
  rewrite H in Ha. congruence.
Qed.

Lemma split_at_colon (s1 s2 r1 r2 : string) :
  no_colon s1 -> no_colon s2 ->
  s1 ++ String ":" r1 = s2 ++ String ":" r2 -> s1 = s2 /\ r1 = r2.
Proof.
  revert s2; induction s1 as [|c s1 IH]; intros [|c2 s2] H1 H2 E.
  - simpl in E. injection E as E. auto.
  - rewrite str_app_cons in E. simpl in E. injection E as Ec E. subst c2.
    exfalso. apply (H2 O). reflexivity.
  - rewrite str_app_cons in E. simpl in E. injection E as Ec E. subst c.
    exfalso. apply (H1 O). reflexivity.
  - rewrite !str_app_cons in E. injection E as Ec E. subst c2.
    destruct (IH s2) as [-> ->]; auto.
    + intros i. apply (H1 (S i)).
    + intros i. apply (H2 (S i)).
Qed.

Lemma str_app_inv_head (p a b : string) : p ++ a = p ++ b -> a = b.
Proof.
  induction p as [|c p IH]; [auto |].
  rewrite !str_app_cons. intros E. injection E as E. auto.
Qed.

Lemma string_of_bytes_inj (a b : bytes) : string_of_bytes a = string_of_bytes b -> a = b.
Proof.
  unfold string_of_bytes. intros H.
  rewrite <- (list_byte_of_string_of_list_byte a), <- (list_byte_of_string_of_list_byte b).
  now rewrite H.
Qed.

(** The status code and the body can be read back from the message. *)
Lemma status_message_inj (s1 s2 : Z) (b1 b2 : bytes) :
  status_message s1 b1 = status_message s2 b2 -> s1 = s2 /\ b1 = b2.
Proof.
  unfold status_message. intros E.
  apply str_app_inv_head in E.
  change (": " ++ ?x) with (String ":" (String " " x)) in E.
  apply split_at_colon in E; try apply itoa_no_colon.
  destruct E as [E1 E2]. injection E2 as E2.
  split; [now apply itoa_inj | now apply string_of_bytes_inj].
Qed.

Lemma getOutputPath_nonempty (goos : GOOS) (path : string) : getOutputPath goos path <> "".
Proof.
  destruct (getOutputPath_stem goos path) as (stem & _ & ->).
  destruct stem; discriminate.
Qed.

(** ** Running programs *)

Lemma run_bind {A B : Type} (env : Env) (p : Prog A) (f : A -> Prog B) (w : World) :
  run env (bind p f) w = run env (f (fst (run env p w))) (snd (run env p w)).
Proof.
  revert w; induction p as [a|k IH|n k IH|t u c b k IH|n d pm k IH]; intros w; simpl.
  - reflexivity.
  - apply IH.
  - apply IH.
  - apply IH.
  - destruct (os_WriteFile env n d w) as [r w'] eqn:E. apply IH.
Qed.

Lemma events_since_app (w w' : World) (evs : list Event) :
  log w' = (log w ++ evs)%list -> events_since w w' = evs.
Proof. intros H. unfold events_since. rewrite H. apply drop_app_length. Qed.

(** ** [processSingleFile], case by case *)

Section Synthesis.

Context (goos : GOOS) (env : Env) (config : AppConfig).

Lemma psf_read_fail (filePath : string) (w : World) (e : error) :
  fst (os_ReadFile env filePath w) = inr e ->
  run env (processSingleFile goos filePath config) w
  = (("", Some (Errorf_w "failed to read file" e)), tick [EvRead filePath] w).
Proof.
  intros H. unfold processSingleFile, readFile. cbn [bind run].
  unfold os_ReadFile in *. cbn [fst] in H. rewrite H. reflexivity.
Qed.

Lemma psf_after_read (filePath : string) (w : World) (content : bytes) :
  fst (os_ReadFile env filePath w) = inl content ->
  let w1 := tick [EvRead filePath] w in
  let w2 := tick [EvPost (request_url config) "application/json" (request_body content)] w1 in
  run env (processSingleFile goos filePath config) w =
  match client_Post (Timeout config) (exchange_at env config (now w1) content) with
  | inr err => (("", Some (Errorf_w "failed to send request" err)), w2)
  | inl resp =>
    if negb (StatusCode resp =? http_StatusOK) then
      (("", Some (Errorf (status_message (StatusCode resp) (fst (Body resp))))), w2)
    else
      match snd (Body resp) with
      | Some err => (("", Some (Errorf_w "failed to read response" err)), w2)
      | None =>
        match os_WriteFile env (getOutputPath goos filePath) (fst (Body resp)) w2 with
        | (Some err, w3) => (("", Some (Errorf_w "failed to write MP3 file" err)), w3)
        | (None, w3) => ((getOutputPath goos filePath, None), w3)
        end
      end
  end.
Proof.
  intros H w1 w2. unfold processSingleFile, readFile, post, writeFile. cbn [bind run].
  unfold os_ReadFile in *. cbn [fst] in H. rewrite H.
  cbn [json_Marshal VoiceDescription Text bind run]. unfold http_Post.
  fold w1. fold (request_url config). fold (request_body content).
  fold (exchange_at env config (now w1) content).
  destruct (client_Post _ _) as [resp|err]; [|reflexivity].
  destruct (negb _).
  - unfold io_ReadAll. destruct (Body resp) as [b e]. reflexivity.
  - unfold io_ReadAll. destruct (Body resp) as [b [e|]]; [reflexivity |].
    cbn [bind run fst snd]. fold w2.
    destruct (os_WriteFile _ _ _ _) as [[e|] w3]; reflexivity.
Qed.

End Synthesis.

Lemma os_WriteFile_inv (env : Env) (name : string) (data : bytes) (w w' : World)
    (r : option error) :
  os_WriteFile env name data w = (r, w') ->
  exists ok, log w' = (log w ++ [EvWrite name data ok])%list /\
    (ok = true <-> r = None) /\
    (ok = true -> files w' !! name = Some data).
Proof.
  unfold os_WriteFile. destruct (write_fault env name); intros [= <- <-]; simpl.
  - exists true. repeat split; auto. intros _. apply lookup_insert_eq.
  - exists false. repeat split; auto; discriminate.
  - exists false. repeat split; auto; discriminate.
Qed.

Section ClientResults.

Context (goos : GOOS) (env : Env) (config : AppConfig).

(** The loop body is [processSingleFile] between two readings of the clock. *)
Lemma worker_body_run (filePath : string) (w : World) :
  let pr := run env (processSingleFile goos filePath config) (tick [] w) in
  run env (worker_body goos filePath config) w =
  ({| FilePath := filePath; OutputPath := fst (fst pr);
      Duration := Z.of_nat (now (snd pr)) - Z.of_nat (now w);
      Error := snd (fst pr) |}, tick [] (snd pr)).
Proof.
  intros pr. unfold worker_body, timeNow. cbn [bind run time_Now].
  rewrite run_bind. fold pr. reflexivity.
Qed.

(** C8. A job whose source file cannot be read yields one result, which
    carries the read error and an empty output path; the only operation on
    the outside world is the attempt to read: no request is sent and no file
    is written. *)
Theorem unreadable_source_yields_read_error
    (filePath : string) (w : World) (e : error) :
  fst (os_ReadFile env filePath w) = inr e ->
  let r := fst (run env (worker_body goos filePath config) w) in
  let w' := snd (run env (worker_body goos filePath config) w) in
  FilePath r = filePath /\
  OutputPath r = "" /\
  Error r = Some (Errorf_w "failed to read file" e) /\
  events_since w w' = [EvRead filePath] /\
  Forall (fun ev => is_post ev = false /\ is_write ev = false) (events_since w w') /\
  files w' = files w.
Proof.
  intros H. cbn zeta. rewrite worker_body_run.
  assert (H' : fst (os_ReadFile env filePath (tick [] w)) = inr e) by exact H.
  cbn zeta. rewrite (psf_read_fail goos env config _ _ _ H').
  cbn [fst snd FilePath OutputPath Error files tick].
  assert (Hev : events_since w (tick [] (tick [EvRead filePath] (tick [] w)))
                = [EvRead filePath]).
  { apply events_since_app. cbn [log tick]. now rewrite !app_nil_r. }
  rewrite Hev. repeat split; auto.
Qed.

Lemma client_Post_complete (timeout headers_at status body_at : Z) (body : bytes)
    (received : nat) (late : TimeoutText) :
  deadline_passed timeout headers_at = false ->
  deadline_passed timeout body_at = false ->
  client_Post timeout (Reply headers_at status body body_at received late)
  = inl {| StatusCode := status; Body := (body, None) |}.
Proof. intros H1 H2. unfold client_Post. now rewrite H1, H2. Qed.

(** A response with a status other than 200, whatever became of its body. *)
Lemma psf_non_200 (filePath : string) (w : World) (content : bytes) (resp : Response) :
  fst (os_ReadFile env filePath w) = inl content ->
  client_Post (Timeout config) (exchange_at env config (S (now w)) content) = inl resp ->
  StatusCode resp <> http_StatusOK ->
  run env (processSingleFile goos filePath config) w =
    (("", Some (Errorf (status_message (StatusCode resp) (fst (Body resp))))),
     tick [EvPost (request_url config) "application/json" (request_body content)]
       (tick [EvRead filePath] w)).
Proof.
  intros Hr Hp Hs. rewrite (psf_after_read goos env config _ _ _ Hr). cbn zeta.
  cbn [now tick]. rewrite Hp.
  destruct (Z.eqb_spec (StatusCode resp) http_StatusOK); [contradiction | reflexivity].
Qed.

(** C7. When the call completes with a status other than 200, the job
    fails with the error "server returned status <code>: <body>", from which
    the code and the whole body can be read back, and nothing is written. *)
Theorem non_200_yields_server_error
    (filePath : string) (w : World) (content body : bytes)
    (headers_at status body_at : Z) (received : nat) (late : TimeoutText) :
  fst (os_ReadFile env filePath w) = inl content ->
  exchange_at env config (S (now w)) content
    = Reply headers_at status body body_at received late ->
  deadline_passed (Timeout config) headers_at = false ->
  deadline_passed (Timeout config) body_at = false ->
  status <> http_StatusOK ->
  exists w',
    run env (processSingleFile goos filePath config) w =
      (("", Some (Errorf (status_message status body))), w') /\
    Error_msg (Errorf (status_message status body)) =
      "server returned status " ++ itoa status ++ ": " ++ string_of_bytes body /\
    (forall status' body',
        status_message status' body' = status_message status body ->
        status' = status /\ body' = body) /\
    files w' = files w /\
    Forall (fun ev => is_write ev = false) (events_since w w').
Proof.
  intros Hr Hx Hh Hb Hs. eexists.
  rewrite (psf_non_200 filePath w content {| StatusCode := status; Body := (body, None) |});
    auto.
  - cbn [StatusCode Body fst]. split; [reflexivity |]. split; [reflexivity |].
    split; [intros s' b' E; now apply status_message_inj |].
    split; [reflexivity |].
    rewrite (events_since_app w _ [EvRead filePath; EvPost (request_url config)
                               "application/json" (request_body content)]).
    + repeat constructor.
    + cbn [log tick]. now rewrite <- app_assoc.
  - rewrite Hx. now apply client_Post_complete.
Qed.

End ClientResults.

(** Case analysis on the six outcomes of [processSingleFile]: status not
    200, unreadable body, failed write, success, failed request, unreadable
    source. *)
Ltac psf_cases goos env config filePath w :=
  let content := fresh "content" in
  let e := fresh "e" in
  destruct (fst (os_ReadFile env filePath w)) as [content|e] eqn:Hread;
  [ rewrite (psf_after_read goos env config _ _ _ Hread); cbn zeta; cbn [now tick];
    destruct (client_Post _ _) as [resp|err] eqn:Hpost;
    [ destruct (negb _) eqn:Hstatus;
      [ | destruct (snd (Body resp)) as [err|] eqn:Hbody;
          [ | destruct (os_WriteFile _ _ _ _) as [[err|] w3] eqn:Hwrite ] ]
    | ]
  | rewrite (psf_read_fail goos env config _ _ _ Hread) ].

Section ClientFailures.

Context (goos : GOOS) (env : Env) (config : AppConfig).

Lemma events_two (w : World) (e1 e2 : Event) :
  events_since w (tick [e2] (tick [e1] w)) = [e1; e2].
Proof. apply events_since_app. cbn [log tick]. now rewrite <- app_assoc. Qed.

Lemma events_one (w : World) (e1 : Event) :
  events_since w (tick [e1] w) = [e1].
Proof. now apply events_since_app. Qed.

Lemma events_three (w w3 : World) (e1 e2 e3 : Event) :
  log w3 = (log (tick [e2] (tick [e1] w)) ++ [e3])%list ->
  events_since w w3 = [e1; e2; e3].
Proof. intros H. apply events_since_app. rewrite H. cbn [log tick]. now rewrite <- !app_assoc. Qed.

(** C4. A job that fails for any reason other than the write itself (the
    file could not be read, the request failed, the status was not 200, the
    body could not be read) has written nothing: the files are as they were.
    A write is only ever attempted at the output path and with the complete
    body of a 200 response. *)
Theorem failed_job_leaves_destination_untouched
    (filePath : string) (w : World) (e : error) :
  snd (fst (run env (processSingleFile goos filePath config) w)) = Some e ->
  (forall cause, e <> Errorf_w "failed to write MP3 file" cause) ->
  let w' := snd (run env (processSingleFile goos filePath config) w) in
  files w' = files w /\
  Forall (fun ev => is_write ev = false) (events_since w w') /\
  (forall filePath' w0 name data ok,
      In (EvWrite name data ok)
         (events_since w0 (snd (run env (processSingleFile goos filePath' config) w0))) ->
      name = getOutputPath goos filePath' /\
      exists content resp,
        fst (os_ReadFile env filePath' w0) = inl content /\
        client_Post (Timeout config) (exchange_at env config (S (now w0)) content) = inl resp /\
        StatusCode resp = http_StatusOK /\ Body resp = (data, None)).
Proof.
  intros He Hnw w'. subst w'. split; [|split].
  - revert He. psf_cases goos env config filePath w; cbn [fst snd]; intros He; try reflexivity.
    + injection He as <-. now destruct (Hnw err).
    + discriminate.
  - revert He. psf_cases goos env config filePath w; cbn [fst snd]; intros He;
      rewrite ?events_two, ?events_one; try (repeat constructor).
    + injection He as <-. now destruct (Hnw err).
    + discriminate.
  - clear. intros filePath w name data ok.
    psf_cases goos env config filePath w; cbn [fst snd]; rewrite ?events_two, ?events_one.
    1-2, 5-6: simpl; intros H; repeat (destruct H as [H|H]; try discriminate); contradiction.
    all: apply os_WriteFile_inv in Hwrite; destruct Hwrite as (ok' & Hlog & _);
      rewrite (events_three _ _ _ _ _ Hlog); simpl; intros H;
      repeat (destruct H as [H|H]; try discriminate); try contradiction;
      injection H as <- <- <-; split; [reflexivity |];
      exists content, resp; repeat split; auto;
      [ apply negb_false_iff in Hstatus; now apply Z.eqb_eq
      | destruct (Body resp); simpl in *; now subst ].
Qed.


(** For the result of one pass through the loop body: the error is nil
    exactly when the pass wrote a file at the result's output path; on
    success the output path is [getOutputPath] of the source and holds the
    written bytes; on failure the output path is empty. *)
Lemma body_result_error_nil_iff_written (filePath : string) (w : World) :
  let r := fst (run env (worker_body goos filePath config) w) in
  let w' := snd (run env (worker_body goos filePath config) w) in
  FilePath r = filePath /\
  (Error r = None <->
   exists data, In (EvWrite (OutputPath r) data true) (events_since w w')) /\
  (Error r = None ->
   OutputPath r = getOutputPath goos filePath /\
   exists data, files w' !! OutputPath r = Some data /\
                In (EvWrite (OutputPath r) data true) (events_since w w')) /\
  (Error r <> None -> OutputPath r = "").
Proof.
  cbn zeta. rewrite worker_body_run. cbn zeta. cbn [fst snd FilePath OutputPath Error].
  split; [reflexivity |].
  assert (Hev : forall w2 evs, log w2 = (log (tick [] w) ++ evs)%list ->
                events_since w (tick [] w2) = evs).
  { intros w2 evs H. apply events_since_app. cbn [log tick] in *.
    rewrite H. now rewrite !app_nil_r. }
  psf_cases goos env config filePath (tick [] w); cbn [fst snd].
  1-2, 5-6:
    (rewrite (Hev _ [EvRead filePath; EvPost (request_url config) "application/json"
                                        (request_body content)])
       by (cbn [log tick]; now rewrite <- !app_assoc))
    || (rewrite (Hev _ [EvRead filePath]) by reflexivity).
  1-4: (split; [split; [discriminate |]; intros [data H]; simpl in H;
          repeat (destruct H as [H|H]; try discriminate); contradiction |];
        split; [discriminate | reflexivity]).
  - apply os_WriteFile_inv in Hwrite. destruct Hwrite as (ok & Hlog & Hok & _).
    assert (ok = false) as -> by (destruct ok; auto; destruct Hok as [Hok _];
                                  specialize (Hok eq_refl); discriminate).
    rewrite (Hev _ [EvRead filePath; EvPost (request_url config) "application/json"
                                       (request_body content);
                    EvWrite (getOutputPath goos filePath) (fst (Body resp)) false])
      by (rewrite Hlog; cbn [log tick]; now rewrite <- !app_assoc).
    split; [split; [discriminate |]; intros [data H]; simpl in H;
          repeat (destruct H as [H|H]; try discriminate); contradiction |].
    split; [discriminate | reflexivity].
  - apply os_WriteFile_inv in Hwrite. destruct Hwrite as (ok & Hlog & Hok & Hfile).
    assert (ok = true) as -> by now apply Hok.
    rewrite (Hev _ [EvRead filePath; EvPost (request_url config) "application/json"
                                       (request_body content);
                    EvWrite (getOutputPath goos filePath) (fst (Body resp)) true])
      by (rewrite Hlog; cbn [log tick]; now rewrite <- !app_assoc).
    assert (Hin : In (EvWrite (getOutputPath goos filePath) (fst (Body resp)) true)
                     [EvRead filePath;
                      EvPost (request_url config) "application/json" (request_body content);
                      EvWrite (getOutputPath goos filePath) (fst (Body resp)) true])
      by (simpl; auto).
    split; [split; [intros _; eauto | reflexivity] |].
    split; [| intros H; now destruct H].
    intros _. split; [reflexivity |].
    exists (fst (Body resp)). split; [| exact Hin].
    cbn [files tick]. now apply Hfile.
Qed.

Lemma os_ReadFile_content (name : string) (w : World) (content : bytes) :
  fst (os_ReadFile env name w) = inl content -> files w !! name = Some content.
Proof.
  unfold os_ReadFile. cbn [fst]. destruct (read_fault env name); [discriminate |].
  destruct (files w !! name); [| discriminate]. now intros [= ->].
Qed.

(** A string goes into the JSON document as it is exactly when it is valid
    UTF-8. *)
Lemma json_string_loop_valid (s : string) :
  forall skip, utf8_valid_loop skip s = true -> json_string_loop skip s = s.
Proof.
  induction s as [|c rest IH]; intros skip; [reflexivity |].
  cbn [utf8_valid_loop json_string_loop].
  destruct skip as [|k]; [destruct (utf8_size (String c rest)) as [|k] |];
    try discriminate; intros H; f_equal; now apply IH.
Qed.

Lemma json_string_loop_length (s : string) :
  forall skip,
    (String.length s <= String.length (json_string_loop skip s))%nat /\
    (utf8_valid_loop skip s = false ->
     (String.length s < String.length (json_string_loop skip s))%nat).
Proof.
  induction s as [|c rest IH]; intros skip; [split; [cbn; lia | discriminate] |].
  cbn [utf8_valid_loop json_string_loop].
  destruct skip as [|k]; [destruct (utf8_size (String c rest)) as [|k] |].
  - destruct (IH 0%nat) as [Hle _]. change (utf8_RuneError ++ json_string_loop 0 rest)
      with (String "239" (String "191" (String "189" (json_string_loop 0 rest)))).
    cbn [String.length].
    split; [lia | intros _; lia].
  - destruct (IH k) as [Hle Hlt]. cbn [String.length].
    split; [lia | intros H; specialize (Hlt H); lia].
  - destruct (IH k) as [Hle Hlt]. cbn [String.length].
    split; [lia | intros H; specialize (Hlt H); lia].
Qed.

Lemma json_string_valid (s : string) :
  json_string s = s <-> utf8_ValidString s = true.
Proof.
  unfold json_string, utf8_ValidString. split.
  - intros H. destruct (utf8_valid_loop 0 s) eqn:E; [reflexivity |].
    destruct (json_string_loop_length s 0) as [_ Hlt]. specialize (Hlt E).
    rewrite H in Hlt. lia.
  - apply json_string_loop_valid.
Qed.

(** C10, as the code has it. Every call of [client.Post] of a job is a POST
    of content type application/json to <server_url>/synthesize whose body
    is the JSON object with the single member "text"; the voice description
    of the request is never set, so that member is absent.  The text is the
    content of the source file as encoding/json renders a Go string, with
    U+FFFD in place of every byte that is not part of the UTF-8 encoding of
    a rune: it is the whole content of the file exactly when the file is
    valid UTF-8.  A readable source does lead to such a call. *)
Theorem request_body_has_only_text (filePath : string) (w : World) :
  let w' := snd (run env (processSingleFile goos filePath config) w) in
  (forall url contentType body,
      In (EvPost url contentType body) (events_since w w') ->
      url = ServerURL config ++ "/synthesize" /\
      contentType = "application/json" /\
      exists content,
        files w !! filePath = Some content /\
        json_Marshal {| Text := string_of_bytes content; VoiceDescription := None |}
          = inl body /\
        body = JObject [("text", JString (json_string (string_of_bytes content)))] /\
        json_keys body = ["text"] /\
        (json_string (string_of_bytes content) = string_of_bytes content <->
         utf8_ValidString (string_of_bytes content) = true)) /\
  (forall content,
      fst (os_ReadFile env filePath w) = inl content ->
      In (EvPost (request_url config) "application/json" (request_body content))
         (events_since w w')).
Proof.
  cbn zeta. split.
  - intros url ct body.
    psf_cases goos env config filePath w; cbn [fst snd];
      rewrite ?events_two, ?events_one.
    3-4: apply os_WriteFile_inv in Hwrite; destruct Hwrite as (ok' & Hlog & _);
      rewrite (events_three _ _ _ _ _ Hlog).
    all: simpl; intros H; repeat (destruct H as [H|H]; try discriminate);
      try contradiction.
    all: injection H as <- <- <-; split; [reflexivity |]; split; [reflexivity |];
      exists content; split; [now apply os_ReadFile_content |];
      split; [reflexivity |]; split; [reflexivity |]; split; [reflexivity |];
      apply json_string_valid.
  - intros content0.
    psf_cases goos env config filePath w; cbn [fst snd];
      rewrite ?events_two, ?events_one; intros [= <-].
    3-4: apply os_WriteFile_inv in Hwrite; destruct Hwrite as (ok' & Hlog & _);
      rewrite (events_three _ _ _ _ _ Hlog).
    all: simpl; auto.
Qed.

(** C3, as the code has it. When the limit is reached before the status
    line arrives, or while the body of a 200 response is read, the job fails
    with an error that wraps the timeout error of the HTTP client, whose
    [Timeout()] is true, so the chain of the error reports a timeout.  A
    network failure (no response, or a connection that breaks while the body
    of a 200 response is read) gives an error with the same wrapping, and
    its chain reports a timeout exactly when the error of the library does,
    although the call did not exceed the configured timeout: there is no
    class of its own for the expired timeout, and [Timeout()] does not set
    it apart from every other failure. *)
Theorem reported_timeout_is_kept_as_cause
    (filePath : string) (w : World) (content : bytes) :
  fst (os_ReadFile env filePath w) = inl content ->
  let x := exchange_at env config (S (now w)) content in
  let r := fst (run env (processSingleFile goos filePath config) w) in
  (timeout_reported (Timeout config) x ->
   exists prefix cause,
     r = ("", Some (Errorf_w prefix cause)) /\
     IsTimeout (Errorf_w prefix cause) = true /\
     Unwrap (Errorf_w prefix cause) = Some cause /\
     match x with
     | NetFail _ _ => False
     | Reply _ _ _ _ _ late | Broken _ _ _ _ _ late =>
       (prefix = "failed to send request" /\ cause = err_awaiting_headers late) \/
       (prefix = "failed to read response" /\ cause = err_reading_body late)
     end) /\
  (forall timeout msg, x = NetFail timeout msg ->
     r = ("", Some (Errorf_w "failed to send request" (SysError timeout msg))) /\
     IsTimeout (Errorf_w "failed to send request" (SysError timeout msg)) = timeout /\
     call_times_out (Timeout config) x = false) /\
  (forall headers_at partial timeout msg late,
     x = Broken headers_at http_StatusOK partial timeout msg late ->
     deadline_passed (Timeout config) headers_at = false ->
     r = ("", Some (Errorf_w "failed to read response" (SysError timeout msg))) /\
     IsTimeout (Errorf_w "failed to read response" (SysError timeout msg)) = timeout /\
     call_times_out (Timeout config) x = false).
Proof.
  intros Hr x r. subst r.
  rewrite (psf_after_read goos env config _ _ _ Hr). cbn zeta. cbn [now tick]. fold x.
  split; [| split].
  - destruct x as [t msg|h st b bt rc late|h st b t msg late]; [contradiction | |];
      cbn [timeout_reported client_Post].
    + intros [Hh|[-> Hb]].
      * rewrite Hh. exists "failed to send request", (err_awaiting_headers late).
        repeat split; auto.
      * destruct (deadline_passed (Timeout config) h).
        -- exists "failed to send request", (err_awaiting_headers late).
           repeat split; auto.
        -- cbn [StatusCode Body negb]. rewrite Hb. cbn [snd fst Z.eqb negb].
           exists "failed to read response", (err_reading_body late).
           repeat split; auto.
    + intros Hh. rewrite Hh. exists "failed to send request", (err_awaiting_headers late).
      repeat split; auto.
  - intros t msg ->. cbn [client_Post fst]. repeat split.
  - intros h partial t msg late -> Hh. cbn [client_Post call_times_out]. rewrite Hh.
    repeat split.
Qed.

End ClientFailures.

(** C3, as stated, fails: the answer of this endpoint (status 500) starts in
    time but its body is still arriving when the timeout is over.  The job
    fails with the same error as for a complete 500 response with the eight
    bytes received, and nothing in it reports a timeout.  Where a timeout is
    reported, it is by the cause alone: the error for a timeout before the
    status line and the error for a refused connection are built by the same
    [fmt.Errorf("failed to send request: %w", err)]; and a cause that reports
    a timeout need not be the configured one, as for the connection attempt
    the transport gives up on. *)
Lemma timeout_swallowed_by_status_error :
  let cfg := the_config 1 in
  let w := world_of one_file in
  let stalling := stalling_endpoint (bytes_of "Internal Server Error") 8 in
  let plain := fixed_endpoint 500 (bytes_of "Internal") in
  call_times_out (Timeout cfg) (exchange_at stalling cfg 1 (bytes_of "hello")) = true /\
  call_times_out (Timeout cfg) (exchange_at plain cfg 1 (bytes_of "hello")) = false /\
  fst (run stalling (processSingleFile Linux "a.txt" cfg) w)
    = ("", Some (Errorf "server returned status 500: Internal")) /\
  fst (run plain (processSingleFile Linux "a.txt" cfg) w)
    = ("", Some (Errorf "server returned status 500: Internal")) /\
  IsTimeout (Errorf "server returned status 500: Internal") = false /\
  fst (run slow_endpoint (processSingleFile Linux "a.txt" cfg) w)
    = ("", Some (Errorf_w "failed to send request" (err_awaiting_headers late_text))) /\
  fst (run refusing_endpoint (processSingleFile Linux "a.txt" cfg) w)
    = ("", Some (Errorf_w "failed to send request" (SysError false refused_text))) /\
  call_times_out (Timeout cfg) (exchange_at unreachable_endpoint cfg 1 (bytes_of "hello"))
    = false /\
  fst (run unreachable_endpoint (processSingleFile Linux "a.txt" cfg) w)
    = ("", Some (Errorf_w "failed to send request" (SysError true dial_timeout_text))) /\
  IsTimeout (Errorf_w "failed to send request" (SysError true dial_timeout_text)) = true.
Proof. cbn zeta. repeat split; vm_compute; reflexivity. Qed.

(** C10, as stated, fails for a source that is not valid UTF-8.  The file
    holds "h", the byte 0xFF and "i" (a text in Latin-1); the job reads it,
    and the text of its request has U+FFFD, three bytes, where the file has
    the byte 0xFF: the text is not the content of the file. *)
Lemma invalid_utf8_is_replaced_in_the_request :
  let content := [Byte.x68; Byte.xff; Byte.x69] in
  let w := world_of {[ "a.txt" := content ]} in
  let w' := snd (run echo_endpoint (processSingleFile Linux "a.txt" (the_config 1)) w) in
  let text := String "h" (utf8_RuneError ++ "i") in
  fst (os_ReadFile echo_endpoint "a.txt" w) = inl content /\
  utf8_ValidString (string_of_bytes content) = false /\
  In (EvPost "http://localhost:8000/synthesize" "application/json"
        (JObject [("text", JString text)]))
     (events_since w w') /\
  (forall url contentType body,
      In (EvPost url contentType body) (events_since w w') ->
      body = JObject [("text", JString text)]) /\
  text <> string_of_bytes content.
Proof.
  cbn zeta. split; [vm_compute; reflexivity |]. split; [vm_compute; reflexivity |].
  split; [vm_compute; right; left; reflexivity |].
  split; [| vm_compute; discriminate].
  intros url ct body H. vm_compute in H.
  destruct H as [H|[H|[H|[]]]]; try discriminate H.
  injection H as <- <- <-. reflexivity.
Qed.

(** ** Instances on concrete environments *)

Lemma missing_file_is_unreadable (env : Env) (name : string) (w : World) :
  read_fault env name = None -> files w !! name = None ->
  fst (os_ReadFile env name w)
  = inr (SysError false ("open " ++ name ++ ": no such file or directory")).
Proof. intros Hf Hn. unfold os_ReadFile. cbn [fst]. now rewrite Hf, Hn. Qed.

Lemma unreadable_source_example :
  let w := world_of one_file in
  let r := fst (run echo_endpoint (worker_body Linux "missing.txt" (the_config 1)) w) in
  let w' := snd (run echo_endpoint (worker_body Linux "missing.txt" (the_config 1)) w) in
  FilePath r = "missing.txt" /\
  OutputPath r = "" /\
  Error r = Some (Errorf_w "failed to read file"
                    (SysError false "open missing.txt: no such file or directory")) /\
  events_since w w' = [EvRead "missing.txt"] /\
  Forall (fun ev => is_post ev = false /\ is_write ev = false) (events_since w w') /\
  files w' = files w.
Proof.
  apply (unreadable_source_yields_read_error Linux echo_endpoint (the_config 1)
           "missing.txt" (world_of one_file)).
  apply missing_file_is_unreadable; reflexivity.
Defined.

Lemma non_200_example :
  exists w',
    run (fixed_endpoint 503 (bytes_of "busy")) (processSingleFile Linux "a.txt" (the_config 1))
        (world_of one_file) =
      (("", Some (Errorf (status_message 503 (bytes_of "busy")))), w') /\
    Error_msg (Errorf (status_message 503 (bytes_of "busy"))) =
      "server returned status " ++ itoa 503 ++ ": " ++ string_of_bytes (bytes_of "busy") /\
    (forall status' body',
        status_message status' body' = status_message 503 (bytes_of "busy") ->
        status' = 503 /\ body' = bytes_of "busy") /\
    files w' = files (world_of one_file) /\
    Forall (fun ev => is_write ev = false) (events_since (world_of one_file) w').
Proof.
  apply (non_200_yields_server_error Linux (fixed_endpoint 503 (bytes_of "busy"))
           (the_config 1) "a.txt" (world_of one_file) (bytes_of "hello") (bytes_of "busy")
           1000000 503 2000000 0 late_text); try reflexivity.
  discriminate.
Defined.

Lemma failed_job_example :
  let w' := snd (run refusing_endpoint (processSingleFile Linux "a.txt" (the_config 1))
                     (world_of one_file)) in
  files w' = files (world_of one_file) /\
  Forall (fun ev => is_write ev = false) (events_since (world_of one_file) w') /\
  (forall filePath' w0 name data ok,
      In (EvWrite name data ok)
         (events_since w0 (snd (run refusing_endpoint
                                    (processSingleFile Linux filePath' (the_config 1)) w0))) ->
      name = getOutputPath Linux filePath' /\
      exists content resp,
        fst (os_ReadFile refusing_endpoint filePath' w0) = inl content /\
        client_Post (Timeout (the_config 1))
          (exchange_at refusing_endpoint (the_config 1) (S (now w0)) content) = inl resp /\
        StatusCode resp = http_StatusOK /\ Body resp = (data, None)).
Proof.
  apply (failed_job_leaves_destination_untouched Linux refusing_endpoint (the_config 1)
           "a.txt" (world_of one_file)
           (Errorf_w "failed to send request" (SysError false refused_text))).
  - reflexivity.
  - intros cause. discriminate.
Defined.

Lemma reported_timeout_example :
  let x := exchange_at slow_endpoint (the_config 1) 1 (bytes_of "hello") in
  let r := fst (run slow_endpoint (processSingleFile Linux "a.txt" (the_config 1))
                    (world_of one_file)) in
  (timeout_reported (Timeout (the_config 1)) x ->
   exists prefix cause,
     r = ("", Some (Errorf_w prefix cause)) /\
     IsTimeout (Errorf_w prefix cause) = true /\
     Unwrap (Errorf_w prefix cause) = Some cause /\
     match x with
     | NetFail _ _ => False
     | Reply _ _ _ _ _ late | Broken _ _ _ _ _ late =>
       (prefix = "failed to send request" /\ cause = err_awaiting_headers late) \/
       (prefix = "failed to read response" /\ cause = err_reading_body late)
     end) /\
  (forall timeout msg, x = NetFail timeout msg ->
     r = ("", Some (Errorf_w "failed to send request" (SysError timeout msg))) /\
     IsTimeout (Errorf_w "failed to send request" (SysError timeout msg)) = timeout /\
     call_times_out (Timeout (the_config 1)) x = false) /\
  (forall headers_at partial timeout msg late,
     x = Broken headers_at http_StatusOK partial timeout msg late ->
     deadline_passed (Timeout (the_config 1)) headers_at = false ->
     r = ("", Some (Errorf_w "failed to read response" (SysError timeout msg))) /\
     IsTimeout (Errorf_w "failed to read response" (SysError timeout msg)) = timeout /\
     call_times_out (Timeout (the_config 1)) x = false).
Proof.
  apply (reported_timeout_is_kept_as_cause Linux slow_endpoint (the_config 1)
           "a.txt" (world_of one_file) (bytes_of "hello")).
  reflexivity.
Defined.

(** ** Programs: what they can return and how long they run *)

Lemma always_bind {A B : Type} (P : B -> Prop) (p : Prog A) (f : A -> Prog B) :
  (forall a, always P (f a)) -> always P (bind p f).
Proof. intros Hf. induction p; simpl; auto. Qed.

Lemma within_S {A : Type} (n : nat) (p : Prog A) : within n p -> within (S n) p.
Proof.
  revert n. induction p as [a|k IH|x k IH|t u c b k IH|x d pm k IH]; intros n Hp.
  - exact I.
  - destruct n; [contradiction |]. intros ?. apply IH, Hp.
  - destruct n; [contradiction |]. intros ?. apply IH, Hp.
  - destruct n; [contradiction |]. intros ?. apply IH, Hp.
  - destruct n; [contradiction |]. intros ?. apply IH, Hp.
Qed.

Lemma within_le {A : Type} (n m : nat) (p : Prog A) :
  (n <= m)%nat -> within n p -> within m p.
Proof. induction 1; auto using within_S. Qed.

Lemma within_bind {A B : Type} (n m : nat) (p : Prog A) (f : A -> Prog B) :
  within n p -> (forall a, within m (f a)) -> within (n + m) (bind p f).
Proof.
  intros Hp Hf. revert n Hp.
  induction p as [a|k IH|x k IH|t u c b k IH|x d pm k IH]; intros n Hp.
  - simpl. apply within_le with m; [lia | apply Hf].
  - destruct n; [contradiction |]. intros ?. apply IH, Hp.
  - destruct n; [contradiction |]. intros ?. apply IH, Hp.
  - destruct n; [contradiction |]. intros ?. apply IH, Hp.
  - destruct n; [contradiction |]. intros ?. apply IH, Hp.
Qed.

Lemma perform_always {A : Type} (P : A -> Prop) (env : Env) (p p' : Prog A) (w w' : World) :
  perform env p w = Some (p', w') -> always P p -> always P p'.
Proof.
  destruct p; simpl; try discriminate.
  - intros [= <- <-]. auto.
  - intros [= <- <-]. auto.
  - intros [= <- <-]. auto.
  - destruct (os_WriteFile env name data w). intros [= <- <-]. auto.
Qed.

Lemma perform_within {A : Type} (n : nat) (env : Env) (p p' : Prog A) (w w' : World) :
  perform env p w = Some (p', w') -> within n p ->
  exists m, n = S m /\ within m p'.
Proof.
  destruct p; simpl; try discriminate.
  - intros [= <- <-]. destruct n; [contradiction |]. eauto.
  - intros [= <- <-]. destruct n; [contradiction |]. eauto.
  - intros [= <- <-]. destruct n; [contradiction |]. eauto.
  - destruct (os_WriteFile env name data w).
    intros [= <- <-]. destruct n; [contradiction |]. eauto.
Qed.

Lemma perform_run {A : Type} (env : Env) (p p' : Prog A) (w w' : World) :
  perform env p w = Some (p', w') -> run env p w = run env p' w'.
Proof.
  destruct p; simpl; try discriminate.
  - intros [= <- <-]. auto.
  - intros [= <- <-]. auto.
  - intros [= <- <-]. auto.
  - destruct (os_WriteFile env name data w). intros [= <- <-]. auto.
Qed.

Lemma perform_Ret_or_some {A : Type} (env : Env) (p : Prog A) (w : World) :
  (exists a, p = Ret a) \/ (exists p' w', perform env p w = Some (p', w')).
Proof.
  destruct p; simpl; eauto.
  destruct (os_WriteFile env name data w); eauto.
Qed.

Section Body.

Context (goos : GOOS) (config : AppConfig).

Lemma processSingleFile_within (filePath : string) :
  within 3 (processSingleFile goos filePath config).
Proof.
  unfold processSingleFile, readFile, post, writeFile. cbn [bind within].
  intros [content|e]; [| exact I]. cbn [json_Marshal bind within].
  intros [resp|e]; [| exact I].
  destruct (negb _); [destruct (io_ReadAll _); exact I |].
  destruct (io_ReadAll _) as [mp3 [e|]]; [exact I |]. cbn [bind within].
  intros [e|]; exact I.
Qed.

Lemma worker_body_within (filePath : string) :
  within 5 (worker_body goos filePath config).
Proof.
  unfold worker_body, timeNow. cbn [bind within]. intros t.
  apply (within_bind 3 1); [apply processSingleFile_within |].
  intros r. unfold finish, timeNow. cbn [bind within]. auto.
Qed.

Lemma worker_body_FilePath (filePath : string) :
  always (fun r => FilePath r = filePath) (worker_body goos filePath config).
Proof.
  unfold worker_body. apply always_bind. intros t. apply always_bind. intros r.
  unfold finish, timeNow. cbn [bind always]. reflexivity.
Qed.

End Body.

(** ** Lists of workers *)

Lemma inflight_app (ws ws' : list Worker) : inflight (ws ++ ws') = (inflight ws ++ inflight ws')%list.
Proof. unfold inflight. now rewrite map_app, concat_app. Qed.

Lemma inflight_insert (ws : list Worker) (i : nat) (wk wk' : Worker) :
  ws !! i = Some wk ->
  inflight (<[i := wk']> ws) ++ job_of wk ≡ₚ inflight ws ++ job_of wk'.
Proof.
  revert i. induction ws as [|x ws IH]; intros [|i]; simpl; try discriminate.
  - intros [= ->]. unfold inflight. simpl.
    rewrite <- !app_assoc. rewrite (Permutation_app_comm (concat _) (job_of wk)).
    rewrite (Permutation_app_comm (concat _) (job_of wk')). now rewrite !app_assoc, (Permutation_app_comm (job_of wk')).
  - intros H. specialize (IH i H). unfold inflight in *. simpl.
    rewrite <- !app_assoc. now rewrite IH.
Qed.

Lemma sum_list_append (l k : list nat) : sum_list (l ++ k) = (sum_list l + sum_list k)%nat.
Proof. induction l as [|x l IH]; simpl; auto. rewrite IH. lia. Qed.

Lemma count_live_app (ws ws' : list Worker) :
  count_live (ws ++ ws') = (count_live ws + count_live ws')%nat.
Proof. unfold count_live. now rewrite map_app, sum_list_append. Qed.

Lemma count_live_insert (ws : list Worker) (i : nat) (wk wk' : Worker) :
  ws !! i = Some wk ->
  (count_live (<[i := wk']> ws) + live wk = count_live ws + live wk')%nat.
Proof.
  revert i. induction ws as [|x ws IH]; intros [|i]; simpl; try discriminate.
  - intros [= ->]. unfold count_live. simpl. lia.
  - intros H. specialize (IH i H). unfold count_live in *. simpl. lia.
Qed.

Lemma count_live_zero (ws : list Worker) (i : nat) (wk : Worker) :
  count_live ws = 0%nat -> ws !! i = Some wk -> wk = WDone.
Proof.
  revert i. induction ws as [|x ws IH]; intros [|i]; simpl; try discriminate.
  - unfold count_live. simpl. intros H [= ->]. destruct wk; simpl in H; auto; lia.
  - unfold count_live in *. simpl. intros H. apply IH. lia.
Qed.

Lemma count_live_pos (ws : list Worker) :
  (0 < count_live ws)%nat -> exists i wk, ws !! i = Some wk /\ wk <> WDone.
Proof.
  induction ws as [|x ws IH]; unfold count_live in *; simpl; [lia |].
  destruct x.
  - intros _. exists 0%nat, WRange. split; [reflexivity | discriminate].
  - intros _. exists 0%nat, (WBody filePath p). split; [reflexivity | discriminate].
  - simpl. intros H. destruct (IH H) as (i & wk & Hi & Hw). exists (S i), wk. auto.
Qed.

Lemma inflight_all_done (ws : list Worker) : count_live ws = 0%nat -> inflight ws = [].
Proof.
  induction ws as [|x ws IH]; unfold count_live, inflight in *; simpl; auto.
  destruct x; simpl; try lia. auto.
Qed.

Lemma sum_list_insert (cs : list nat) (i : nat) (c c' : nat) :
  cs !! i = Some c -> (sum_list (<[i := c']> cs) + c = sum_list cs + c')%nat.
Proof.
  revert i. induction cs as [|x cs IH]; intros [|i]; simpl; try discriminate.
  - intros [= ->]. lia.
  - intros H. specialize (IH i H). lia.
Qed.

(** ** Steps of the pool *)

Ltac pool_simpl :=
  cbn [main jobs results wg workers waiter allResults world
       set_main set_jobs set_results set_wg set_workers set_waiter
       set_allResults set_world set_worker
       buf cap closed chan_put chan_tail chan_close make_chan pool_init] in *.

Section PoolSteps.

Context (goos : GOOS) (env : Env) (config : AppConfig) (input : list string).

Abbreviation step_of := (step_of goos env config input).
Abbreviation step := (step goos env config input).
Abbreviation pool_inv := (pool_inv config input).

(** A worker inside the loop body either sends its result or performs the
    next operation of the body. *)
Lemma step_worker_body (s s' : Pool) (i : nat) (filePath : string)
    (p : Prog ProcessResult) :
  workers s !! i = Some (WBody filePath p) ->
  step_worker goos env config i s = Some s' ->
  (exists result, p = Ret result /\ closed (results s) = false /\
     (length (buf (results s)) < cap (results s))%nat /\
     s' = set_worker i WRange (set_results (chan_put result (results s)) s))
  \/
  (exists p' w', perform env p (world s) = Some (p', w') /\
     s' = set_worker i (WBody filePath p') (set_world w' s)).
Proof.
  intros Hw. unfold step_worker. rewrite Hw.
  destruct p as [result|k|name k|t u c b k|name d pm k].
  - destruct (closed (results s)); [discriminate |].
    destruct (Nat.ltb_spec (length (buf (results s))) (cap (results s))); [|discriminate].
    intros [= <-]. left. eauto 10.
  - destruct (perform _ _ _) as [[p' w']|]; [|discriminate]. intros [= <-]. right. eauto.
  - destruct (perform _ _ _) as [[p' w']|]; [|discriminate]. intros [= <-]. right. eauto.
  - destruct (perform _ _ _) as [[p' w']|]; [|discriminate]. intros [= <-]. right. eauto.
  - destruct (perform _ _ _) as [[p' w']|]; [|discriminate]. intros [= <-]. right. eauto.
Qed.

End PoolSteps.

(** The eleven kinds of step, from [step_of t s = Some s']: the main
    goroutine starts a worker, ends the start loop, sends a job, closes the
    job channel, collects a result, returns; the waiter closes the results;
    a worker receives a job, leaves its loop, sends its result, performs an
    operation. *)
Ltac step_inv H :=
  lazymatch type of H with
  | step_of ?goos ?env ?config ?input ?t ?s = Some ?s' =>
    destruct t as [| |i]; cbn [step_of] in H;
    [ unfold step_main in H;
      destruct (main s) as [k|[|file rest]| |] eqn:Hmain;
      [ destruct (Z.ltb_spec k (numWorkers config input)) as [Hlt|Hlt]
      | idtac
      | destruct (Nat.ltb_spec (length (buf (jobs s))) (cap (jobs s))) as [Hroom|Hroom];
        [|discriminate]
      | destruct (buf (results s)) as [|result rest] eqn:Hbuf;
        [destruct (closed (results s)) eqn:Hclosed; [|discriminate] | idtac]
      | discriminate ]
    | unfold step_waiter in H; destruct (waiter s) eqn:Hwaiter; try discriminate;
      destruct (Nat.eqb_spec (wg s) 0) as [Hwg|Hwg]; [|discriminate]
    | destruct (workers s !! i) as [[|filePath p|]|] eqn:Hworker;
      [ unfold step_worker in H; rewrite Hworker in H;
        destruct (buf (jobs s)) as [|file rest] eqn:Hbuf;
        [destruct (closed (jobs s)) eqn:Hclosed; [|discriminate] | idtac]
      | apply (step_worker_body goos env config s s' i filePath p Hworker) in H;
        destruct H as [(result & -> & Hclosed & Hroom & H)|(p' & w' & Hperf & H)];
        apply (f_equal Some) in H; symmetry in H
      | unfold step_worker in H; rewrite Hworker in H; discriminate
      | unfold step_worker in H; rewrite Hworker in H; discriminate ]
    ];
    injection H as <-
  end.

Section PoolInvariantProofs.

Context (goos : GOOS) (env : Env) (config : AppConfig) (input : list string).

Abbreviation step_of := (step_of goos env config input).
Abbreviation step := (step goos env config input).
Abbreviation pool_inv := (pool_inv config input).
Abbreviation numWorkers := (numWorkers config input).

Lemma pool_inv_init (w : World) : pool_inv (pool_init input w).
Proof.
  constructor; pool_simpl.
  - simpl. now rewrite !app_nil_r.
  - intros i f p. rewrite lookup_nil. discriminate.
  - reflexivity.
  - reflexivity.
  - reflexivity.
  - unfold phase_ok. pool_simpl. repeat split; auto.
  - discriminate.
  - intros i. rewrite lookup_nil. discriminate.
Qed.

Lemma step_keeps_jobs (s s' : Pool) (t : Tid) :
  pool_inv s -> step_of t s = Some s' ->
  input ≡ₚ unsent input (main s') ++ buf (jobs s') ++ inflight (workers s')
            ++ map FilePath (buf (results s') ++ allResults s').
Proof.
  intros [Hjobs Hbody _ _ _ _ _ _] H. step_inv H; pool_simpl.
  all: rewrite ?Hmain, ?Hbuf in *; cbn [unsent tail] in *.
  all: (etransitivity; [exact Hjobs |]); rewrite ?map_app; cbn [map].
  - rewrite inflight_app. cbn. solve_Permutation.
  - solve_Permutation.
  - solve_Permutation.
  - solve_Permutation.
  - solve_Permutation.
  - solve_Permutation.
  - solve_Permutation.
  - pose proof (inflight_insert (workers s) i WRange WDone Hworker) as Hi.
    cbn [job_of] in Hi. rewrite !app_nil_r in Hi. rewrite Hi. solve_Permutation.
  - pose proof (inflight_insert (workers s) i WRange
                  (WBody file (worker_body goos file config)) Hworker) as Hi.
    cbn [job_of] in Hi. rewrite app_nil_r in Hi. rewrite Hi. solve_Permutation.
  - pose proof (inflight_insert (workers s) i (WBody filePath (Ret result)) WRange
                  Hworker) as Hi.
    cbn [job_of] in Hi. rewrite app_nil_r in Hi. rewrite <- Hi.
    specialize (Hbody i filePath (Ret result) Hworker). cbn [always] in Hbody.
    rewrite Hbody. solve_Permutation.
  - pose proof (inflight_insert (workers s) i (WBody filePath p) (WBody filePath p')
                  Hworker) as Hi.
    cbn [job_of] in Hi. apply Permutation_app_inv_r in Hi. rewrite Hi. solve_Permutation.
Qed.

Lemma step_keeps_body (s s' : Pool) (t : Tid) :
  pool_inv s -> step_of t s = Some s' ->
  forall j filePath p, workers s' !! j = Some (WBody filePath p) ->
    always (fun r => FilePath r = filePath) p.
Proof.
  intros [_ Hbody _ _ _ _ _ _] H j f q. step_inv H; pool_simpl; try apply Hbody.
  - intros Hj. apply lookup_app_Some in Hj as [Hj|[_ Hj]]; [eapply Hbody; eauto |].
    destruct (j - length (workers s))%nat as [|[|?]]; discriminate.
  - intros Hj. apply list_lookup_insert_Some in Hj as [(_ & Hj & _)|[_ Hj]];
      [discriminate | eapply Hbody; eauto].
  - intros Hj. apply list_lookup_insert_Some in Hj as [(_ & Hj & _)|[_ Hj]];
      [| eapply Hbody; eauto].
    injection Hj as <- <-. apply worker_body_FilePath.
  - intros Hj. apply list_lookup_insert_Some in Hj as [(_ & Hj & _)|[_ Hj]];
      [discriminate | eapply Hbody; eauto].
  - intros Hj. apply list_lookup_insert_Some in Hj as [(_ & Hj & _)|[_ Hj]];
      [| eapply Hbody; eauto].
    injection Hj as <- <-. eapply perform_always; eauto.
Qed.

Lemma step_keeps_wg (s s' : Pool) (t : Tid) :
  pool_inv s -> step_of t s = Some s' -> wg s' = count_live (workers s').
Proof.
  intros [_ _ Hwg' _ _ _ _ _] H. step_inv H; pool_simpl; try exact Hwg'.
  - rewrite count_live_app, Hwg'. change (count_live [WRange]) with 1%nat. lia.
  - pose proof (count_live_insert (workers s) i WRange WDone Hworker) as Hi.
    simpl in Hi. lia.
  - pose proof (count_live_insert (workers s) i WRange
                  (WBody file (worker_body goos file config)) Hworker) as Hi.
    simpl in Hi. lia.
  - pose proof (count_live_insert (workers s) i (WBody filePath (Ret result)) WRange
                  Hworker) as Hi.
    simpl in Hi. lia.
  - pose proof (count_live_insert (workers s) i (WBody filePath p) (WBody filePath p')
                  Hworker) as Hi.
    simpl in Hi. lia.
Qed.

Lemma step_keeps_caps (s s' : Pool) (t : Tid) :
  pool_inv s -> step_of t s = Some s' ->
  cap (jobs s') = length input /\ cap (results s') = length input.
Proof.
  intros [_ _ _ Hcj Hcr _ _ _] H. step_inv H; pool_simpl; auto.
Qed.

Lemma step_keeps_closed (s s' : Pool) (t : Tid) :
  pool_inv s -> step_of t s = Some s' ->
  closed (results s') = true -> count_live (workers s') = 0%nat.
Proof.
  intros [_ _ Hwg' _ _ Hphase Hcl _] H. unfold phase_ok in Hphase.
  step_inv H; pool_simpl; try (intros; apply Hcl; congruence); rewrite ?Hmain in Hphase.
  - intros Hc. destruct Hphase as (_ & _ & _ & _ & Hr). congruence.
  - intros _. now rewrite <- Hwg'.
  - intros Hc. specialize (Hcl Hc).
    pose proof (count_live_zero _ _ _ Hcl Hworker). discriminate.
  - intros Hc. specialize (Hcl Hc).
    pose proof (count_live_zero _ _ _ Hcl Hworker). discriminate.
  - congruence.
  - intros Hc. specialize (Hcl Hc).
    pose proof (count_live_zero _ _ _ Hcl Hworker). discriminate.
Qed.

Lemma step_keeps_done (s s' : Pool) (t : Tid) :
  pool_inv s -> step_of t s = Some s' ->
  forall j, workers s' !! j = Some WDone ->
    buf (jobs s') = [] /\ closed (jobs s') = true.
Proof.
  intros [_ _ _ _ _ Hphase _ Hdone] H j. unfold phase_ok in Hphase.
  step_inv H; pool_simpl; try apply Hdone; rewrite ?Hmain in Hphase.
  - intros Hj. apply lookup_app_Some in Hj as [Hj|[_ Hj]]; [eapply Hdone; eauto |].
    destruct (j - length (workers s))%nat as [|[|?]]; discriminate.
  - intros Hj. apply Hdone in Hj as [Hj _]. split; auto.
  - intros Hj. apply Hdone in Hj as [_ Hj]. destruct Hphase as (_ & Hc & _). congruence.
  - intros _. auto.
  - intros Hj. apply list_lookup_insert_Some in Hj as [(_ & Hj & _)|[_ Hj]];
      [discriminate |].
    apply Hdone in Hj as [Hj _]. congruence.
  - intros Hj. apply list_lookup_insert_Some in Hj as [(_ & Hj & _)|[_ Hj]];
      [discriminate | eapply Hdone; eauto].
  - intros Hj. apply list_lookup_insert_Some in Hj as [(_ & Hj & _)|[_ Hj]];
      [discriminate | eapply Hdone; eauto].
Qed.

Lemma step_keeps_phase (s s' : Pool) (t : Tid) :
  pool_inv s -> step_of t s = Some s' -> phase_ok config input s'.
Proof.
  intros [_ _ _ _ _ Hphase _ _] H. unfold phase_ok in *.
  step_inv H; pool_simpl; rewrite ?Hmain in *; rewrite ?length_insert; try exact Hphase.
  - destruct Hphase as (-> & Hle & Hrest). rewrite length_app. simpl.
    split; [lia |]. split; [lia | exact Hrest].
  - destruct Hphase as (-> & Hle & Hrest). split; [lia | exact Hrest].
  - destruct Hphase as (Hl & _ & _ & Hr). auto.
  - destruct Hphase as (Hl & Hj & [[Hw Hr]|[Hw Hr]]); [discriminate |]. auto.
  - destruct (main s); intuition congruence.
  - destruct (main s); intuition congruence.
  - destruct (main s); intuition congruence.
Qed.

Lemma pool_inv_step (s s' : Pool) : pool_inv s -> step s s' -> pool_inv s'.
Proof.
  intros Hinv [t H]. constructor.
  - eapply step_keeps_jobs; eauto.
  - eapply step_keeps_body; eauto.
  - eapply step_keeps_wg; eauto.
  - eapply step_keeps_caps; eauto.
  - eapply step_keeps_caps; eauto.
  - eapply step_keeps_phase; eauto.
  - eapply step_keeps_closed; eauto.
  - eapply step_keeps_done; eauto.
Qed.

Lemma pool_inv_reachable (w : World) (s : Pool) :
  rtc step (pool_init input w) s -> pool_inv s.
Proof.
  revert s. apply rtc_ind_r.
  - apply pool_inv_init.
  - intros y z _ Hyz IH. eapply pool_inv_step; eauto.
Qed.

End PoolInvariantProofs.

Section PoolTermination.

Context (goos : GOOS) (env : Env) (config : AppConfig) (input : list string).

Abbreviation sys_step_of := (step_of goos env config input).
Abbreviation sys_step := (step goos env config input).
Abbreviation sys_inv := (pool_inv config input).
Abbreviation sys_potential := (potential config input).
Abbreviation nWorkers := (numWorkers config input).

Lemma inflight_nonempty (ws : list Worker) (i : nat) (filePath : string)
    (p : Prog ProcessResult) :
  ws !! i = Some (WBody filePath p) -> (0 < length (inflight ws))%nat.
Proof.
  intros H. pose proof (inflight_insert ws i _ WRange H) as Hi.
  apply Permutation_length in Hi. rewrite !length_app in Hi. simpl in Hi. lia.
Qed.

Lemma pool_inv_lengths (s : Pool) :
  sys_inv s ->
  length input = (length (unsent input (main s)) + length (buf (jobs s))
                  + length (inflight (workers s)) + length (buf (results s))
                  + length (allResults s))%nat.
Proof.
  intros [Hjobs _ _ _ _ _ _ _]. apply Permutation_length in Hjobs.
  rewrite !length_app, length_map, length_app in Hjobs. lia.
Qed.

(** No goroutine panics and no send ever waits: the channel that is sent
    on or closed is open, there is room for the value sent (both channels
    hold [len(files)] values), and [wg.Done()] finds a positive counter. *)
Lemma pool_never_panics (s : Pool) :
  sys_inv s ->
  (forall rest, main s = MSend rest ->
     closed (jobs s) = false /\
     (rest <> [] -> (length (buf (jobs s)) < cap (jobs s))%nat)) /\
  (waiter s = Waiting -> wg s = 0%nat -> closed (results s) = false) /\
  (forall i filePath result, workers s !! i = Some (WBody filePath (Ret result)) ->
     closed (results s) = false /\
     (length (buf (results s)) < cap (results s))%nat) /\
  (forall i, workers s !! i = Some WRange -> (0 < wg s)%nat).
Proof.
  intros Hinv. pose proof (pool_inv_lengths s Hinv) as Hlen.
  destruct Hinv as [_ _ Hwg Hcj Hcr Hphase Hcl _]. unfold phase_ok in Hphase.
  split; [| split; [| split]].
  - intros rest Hm. rewrite Hm in *. cbn [unsent] in Hlen.
    destruct Hphase as (_ & Hc & _). split; [exact Hc |].
    intros Hne. destruct rest; [contradiction |]. simpl in Hlen. lia.
  - intros Hw Hz. destruct (closed (results s)) eqn:Hc; [| reflexivity].
    destruct (main s); intuition congruence.
  - intros i filePath result Hi.
    pose proof (inflight_nonempty _ _ _ _ Hi) as Hpos. split; [| lia].
    destruct (closed (results s)) eqn:Hc; [| reflexivity].
    pose proof (count_live_zero _ _ _ (Hcl eq_refl) Hi). discriminate.
  - intros i Hi. rewrite Hwg.
    pose proof (count_live_insert (workers s) i WRange WDone Hi) as Hins.
    simpl in Hins. lia.
Qed.

(** No deadlock: as long as [processFiles] has not returned, some
    goroutine can move. *)
Lemma pool_progress (s : Pool) :
  sys_inv s -> main s <> MReturn -> exists s', sys_step s s'.
Proof.
  intros Hinv Hmain. pose proof (pool_inv_lengths s Hinv) as Hlen.
  destruct Hinv as [_ _ Hwg Hcj Hcr Hphase Hcl _]. unfold phase_ok in Hphase.
  unfold step.
  destruct (main s) as [k|[|file rest]| |] eqn:Hm; [| | | |contradiction].
  - exists (match step_main config input s with Some s' => s' | None => s end), TMain.
    cbn [step_of]. unfold step_main. rewrite Hm.
    destruct (k <? nWorkers); reflexivity.
  - eexists; exists TMain. cbn [step_of]. unfold step_main. rewrite Hm. reflexivity.
  - eexists; exists TMain. cbn [step_of]. unfold step_main. rewrite Hm.
    cbn [unsent length] in Hlen.
    destruct (Nat.ltb_spec (length (buf (jobs s))) (cap (jobs s))); [reflexivity | lia].
  - destruct (buf (results s)) as [|result rest] eqn:Hbuf.
    2: { eexists; exists TMain. cbn [step_of]. unfold step_main.
         rewrite Hm, Hbuf. reflexivity. }
    destruct (closed (results s)) eqn:Hclosed.
    { eexists; exists TMain. cbn [step_of]. unfold step_main.
      rewrite Hm, Hbuf, Hclosed. reflexivity. }
    destruct Hphase as (_ & Hjc & [[Hw _]|[_ ?]]); [| discriminate].
    destruct (Nat.eqb_spec (wg s) 0) as [Hz|Hz].
    { eexists; exists TWaiter. cbn [step_of]. unfold step_waiter.
      rewrite Hw, Hz. reflexivity. }
    destruct (count_live_pos (workers s)) as (i & wk & Hi & Hlive); [lia |].
    destruct wk as [|filePath p|]; [| | contradiction].
    + destruct (buf (jobs s)) as [|file rest] eqn:Hjb.
      * eexists; exists (TWorker i). cbn [step_of]. unfold step_worker.
        rewrite Hi, Hjb, Hjc. reflexivity.
      * eexists; exists (TWorker i). cbn [step_of]. unfold step_worker.
        rewrite Hi, Hjb. reflexivity.
    + pose proof (inflight_nonempty _ _ _ _ Hi) as Hpos.
      destruct (perform_Ret_or_some env p (world s)) as [[r ->]|(p' & w' & Hp)].
      * eexists; exists (TWorker i). cbn [step_of]. unfold step_worker.
        rewrite Hi, Hclosed, Hbuf, Hcr. cbn [length].
        destruct (Nat.ltb_spec 0 (length input)); [reflexivity | lia].
      * eexists; exists (TWorker i). cbn [step_of]. unfold step_worker.
        rewrite Hi. destruct p; try discriminate; rewrite Hp; reflexivity.
Qed.

Lemma potential_init (w : World) :
  sys_potential (pool_init input w) (step_bound config input).
Proof.
  exists []. split; [constructor |]. unfold step_bound. pool_simpl. simpl. lia.
Qed.

(** Every step uses up some of the potential. *)
Lemma step_decreases (s s' : Pool) (t : Tid) (n : nat) :
  sys_inv s -> sys_potential s n -> sys_step_of t s = Some s' ->
  exists n', sys_potential s' n' /\ (n' < n)%nat.
Proof.
  intros Hinv (cs & Hcs & ->) H. unfold potential.
  step_inv H; pool_simpl; rewrite ?Hmain, ?Hbuf, ?Hwaiter; cbn [unsent main_weight waiter_weight length tail].
  - eexists. split; [exists (cs ++ [1%nat])%list; split; [| reflexivity] |].
    + apply Forall2_app; [exact Hcs |]. repeat constructor.
    + rewrite sum_list_append. simpl.
      replace (Z.to_nat (nWorkers - k)) with (S (Z.to_nat (nWorkers - (k + 1)))) by lia.
      lia.
  - eexists. split; [exists cs; split; [exact Hcs | reflexivity] |]. lia.
  - eexists. split; [exists cs; split; [exact Hcs | reflexivity] |].
    destruct (waiter s); simpl; lia.
  - eexists. split; [exists cs; split; [exact Hcs | reflexivity] |].
    rewrite length_app. simpl. lia.
  - eexists. split; [exists cs; split; [exact Hcs | reflexivity] |]. lia.
  - eexists. split; [exists cs; split; [exact Hcs | reflexivity] |]. lia.
  - eexists. split; [exists cs; split; [exact Hcs | reflexivity] |]. lia.
  - destruct (Forall2_lookup_l _ _ _ _ _ Hcs Hworker) as (c & Hc & Hwt). simpl in Hwt.
    eexists. split; [exists (<[i := 0%nat]> cs); split; [| reflexivity] |].
    + apply Forall2_insert; [exact Hcs | reflexivity].
    + pose proof (sum_list_insert cs i c 0 Hc). lia.
  - destruct (Forall2_lookup_l _ _ _ _ _ Hcs Hworker) as (c & Hc & Hwt). simpl in Hwt.
    eexists. split; [exists (<[i := 8%nat]> cs); split; [| reflexivity] |].
    + apply Forall2_insert; [exact Hcs |]. exists 5%nat. split; [| reflexivity].
      apply worker_body_within.
    + pose proof (sum_list_insert cs i c 8 Hc). lia.
  - destruct (Forall2_lookup_l _ _ _ _ _ Hcs Hworker) as (c & Hc & d & Hd & ->).
    eexists. split; [exists (<[i := 1%nat]> cs); split; [| reflexivity] |].
    + apply Forall2_insert; [exact Hcs | reflexivity].
    + pose proof (sum_list_insert cs i _ 1 Hc). rewrite length_app. simpl. lia.
  - destruct (Forall2_lookup_l _ _ _ _ _ Hcs Hworker) as (c & Hc & d & Hd & ->).
    destruct (perform_within _ _ _ _ _ _ Hperf Hd) as (m & -> & Hm).
    eexists. split; [exists (<[i := (m + 3)%nat]> cs); split; [| reflexivity] |].
    + apply Forall2_insert; [exact Hcs |]. exists m. auto.
    + pose proof (sum_list_insert cs i _ (m + 3) Hc). lia.
Qed.

Lemma steps_bounded (s s' : Pool) (n k : nat) :
  sys_inv s -> sys_potential s n -> nsteps sys_step k s s' -> (k <= n)%nat.
Proof.
  intros Hinv Hpot Hsteps. revert n Hinv Hpot.
  induction Hsteps as [|k x y z Hxy Hyz IH]; intros n Hinv Hpot; [lia |].
  pose proof Hxy as [t Ht].
  destruct (step_decreases _ _ _ _ Hinv Hpot Ht) as (n' & Hpot' & Hlt).
  assert (k <= n')%nat; [| lia].
  apply IH; auto. eapply pool_inv_step; eauto.
Qed.

Lemma returns_eventually (s : Pool) (n : nat) :
  sys_inv s -> sys_potential s n ->
  exists s', rtc sys_step s s' /\ main s' = MReturn.
Proof.
  revert s. induction n as [n IH] using lt_wf_ind. intros s Hinv Hpot.
  assert (Hdec : main s = MReturn \/ main s <> MReturn)
    by (destruct (main s); auto; right; discriminate).
  destruct Hdec as [Hm|Hm]; [exists s; split; [constructor | auto] |].
  destruct (pool_progress s Hinv Hm) as (s1 & Hstep).
  pose proof Hstep as [t Ht].
  destruct (step_decreases _ _ _ _ Hinv Hpot Ht) as (n' & Hpot' & Hlt).
  destruct (IH n' Hlt s1) as (s' & Hs' & Hr); auto.
  - eapply pool_inv_step; eauto.
  - exists s'. split; [eapply rtc_l; eauto | auto].
Qed.

Lemma returned_complete (s : Pool) :
  1 <= Workers config -> sys_inv s -> main s = MReturn ->
  length (allResults s) = length input /\
  map FilePath (allResults s) ≡ₚ input /\
  Forall (eq WDone) (workers s) /\
  buf (results s) = [] /\ closed (results s) = true /\ buf (jobs s) = [].
Proof.
  intros Hvalid Hinv Hm. pose proof (pool_inv_lengths s Hinv) as Hlen.
  destruct Hinv as [Hjobs _ _ _ _ Hphase Hcl Hdone]. unfold phase_ok in Hphase.
  rewrite Hm in *. cbn [unsent length] in *.
  destruct Hphase as (Hnw & _ & _ & Hrc & Hrb). specialize (Hcl Hrc).
  assert (Hjb : buf (jobs s) = []).
  { destruct (workers s) as [|wk ws] eqn:Hws.
    - assert (length input = 0)%nat as Hz.
      { unfold numWorkers in Hnw. simpl in Hnw.
        destruct (Z.ltb_spec (Z.of_nat (length input)) (Workers config)); lia. }
      destruct (buf (jobs s)); [reflexivity | simpl in Hlen; lia].
    - apply (Hdone 0%nat). simpl. f_equal.
      apply (count_live_zero (wk :: ws) 0 wk Hcl). reflexivity. }
  rewrite Hjb, Hrb, (inflight_all_done _ Hcl) in *. simpl in Hjobs, Hlen.
  split; [lia |]. split; [now symmetry |].
  split; [| auto].
  apply Forall_lookup. intros i wk Hi. symmetry. eapply count_live_zero; eauto.
Qed.

(** C1. With a valid configuration, [processFiles] always returns: no
    schedule runs for more than [step_bound] steps and none gets stuck before
    the return.  When it returns, every worker has returned, both channels
    are drained and the results channel is closed, and the result list has
    one entry per input file: its file paths are the input paths, up to
    order. *)
Theorem processFiles_one_result_per_job (w : World) :
  valid_config config ->
  (forall k s, nsteps sys_step k (pool_init input w) s ->
               (k <= step_bound config input)%nat) /\
  (forall s, rtc sys_step (pool_init input w) s -> main s <> MReturn ->
             exists s', sys_step s s') /\
  (exists s, rtc sys_step (pool_init input w) s /\ main s = MReturn) /\
  (forall s, rtc sys_step (pool_init input w) s -> main s = MReturn ->
     length (allResults s) = length input /\
     map FilePath (allResults s) ≡ₚ input /\
     Forall (eq WDone) (workers s) /\
     buf (results s) = [] /\ closed (results s) = true /\ buf (jobs s) = []).
Proof.
  intros (Hworkers & _ & _). split; [| split; [| split]].
  - intros k s Hk. eapply steps_bounded; eauto using pool_inv_init, potential_init.
  - intros s Hs Hm. apply pool_progress; auto. eapply pool_inv_reachable; eauto.
  - eapply returns_eventually; eauto using pool_inv_init, potential_init.
  - intros s Hs Hm. apply returned_complete; auto. eapply pool_inv_reachable; eauto.
Qed.

End PoolTermination.

(** A configuration without workers is not valid, and for a reason: the
    pool then returns at once, with no result for its one job. *)
Example processFiles_without_workers :
  exec Linux echo_endpoint (the_config 0) ["a.txt"] [TMain; TMain; TMain; TWaiter; TMain]
       (pool_init ["a.txt"] (world_of one_file))
  = Some {| main := MReturn;
            jobs := {| buf := ["a.txt"]; cap := 1; closed := true |};
            results := {| buf := []; cap := 1; closed := true |};
            wg := 0; workers := []; waiter := WaitDone; allResults := [];
            world := world_of one_file |}.
Proof. reflexivity. Qed.

Lemma processFiles_one_result_per_job_example :
  let config := the_config 2 in
  let input := ["a.txt"; "b.txt"] in
  let w := world_of one_file in
  (forall k s, nsteps (step Linux echo_endpoint config input) k (pool_init input w) s ->
               (k <= step_bound config input)%nat) /\
  (forall s, rtc (step Linux echo_endpoint config input) (pool_init input w) s ->
             main s <> MReturn ->
             exists s', step Linux echo_endpoint config input s s') /\
  (exists s, rtc (step Linux echo_endpoint config input) (pool_init input w) s /\
             main s = MReturn) /\
  (forall s, rtc (step Linux echo_endpoint config input) (pool_init input w) s ->
     main s = MReturn ->
     length (allResults s) = length input /\
     map FilePath (allResults s) ≡ₚ input /\
     Forall (eq WDone) (workers s) /\
     buf (results s) = [] /\ closed (results s) = true /\ buf (jobs s) = []).
Proof.
  apply (processFiles_one_result_per_job Linux echo_endpoint (the_config 2)
           ["a.txt"; "b.txt"] (world_of one_file)).
  unfold valid_config. simpl. split; [lia | split; [discriminate | lia]].
Defined.

(** ** Independence of the worker count *)

Lemma perform_bind {A B : Type} (env : Env) (q : Prog A) (g : A -> Prog B)
    (w w' : World) (p' : Prog B) :
  perform env (bind q g) w = Some (p', w') ->
  (exists x, q = Ret x /\ perform env (g x) w = Some (p', w')) \/
  (exists q', perform env q w = Some (q', w') /\ p' = bind q' g).
Proof.
  destruct q; simpl.
  - eauto.
  - intros [= <- <-]. right. eauto.
  - intros [= <- <-]. right. eauto.
  - intros [= <- <-]. right. eauto.
  - destruct (os_WriteFile env name data w). intros [= <- <-]. right. eauto.
Qed.

Lemma os_WriteFile_frame (env : Env) (name : string) (data : bytes) (w : World)
    (path : string) :
  path <> name -> files (snd (os_WriteFile env name data w)) !! path = files w !! path.
Proof.
  intros Hne. unfold os_WriteFile.
  destruct (write_fault env name); simpl; auto; now rewrite lookup_insert_ne.
Qed.

Lemma os_WriteFile_agree (env : Env) (name : string) (data : bytes) (w1 w2 : World)
    (path : string) :
  files w1 !! path = files w2 !! path ->
  fst (os_WriteFile env name data w1) = fst (os_WriteFile env name data w2) /\
  files (snd (os_WriteFile env name data w1)) !! path
  = files (snd (os_WriteFile env name data w2)) !! path.
Proof.
  intros H. unfold os_WriteFile.
  destruct (write_fault env name); simpl; split; auto;
    (destruct (decide (name = path)) as [->|Hne];
     [now rewrite !lookup_insert_eq | now rewrite !lookup_insert_ne]).
Qed.

Lemma perform_confined {A : Type} (env : Env) (src dst : string) (q q' : Prog A)
    (w w' : World) :
  perform env q w = Some (q', w') -> confined src dst q ->
  confined src dst q' /\
  forall path, path <> dst -> files w' !! path = files w !! path.
Proof.
  destruct q; simpl; try discriminate.
  - intros _ [].
  - intros [= <- <-] [_ Hk]. auto.
  - intros [= <- <-] Hk. auto.
  - destruct (os_WriteFile env name data w) as [r w1] eqn:E.
    intros [= <- <-] [-> Hk]. split; [auto |]. intros path Hne.
    change w1 with (snd (r, w1)). rewrite <- E. now apply os_WriteFile_frame.
Qed.

(** A confined program cannot tell two worlds apart that agree on its
    source and on its destination. *)
Lemma run_agree {A : Type} (env : Env) (src dst : string) (q : Prog A) :
  deterministic_endpoint env -> confined src dst q ->
  forall w1 w2,
    files w1 !! src = files w2 !! src -> files w1 !! dst = files w2 !! dst ->
    fst (run env q w1) = fst (run env q w2) /\
    files (snd (run env q w1)) !! dst = files (snd (run env q w2)) !! dst.
Proof.
  intros Hdet. induction q as [a|k IH|name k IH|t u c b k IH|name d pm k IH];
    intros Hq w1 w2 Hsrc Hdst; simpl in *.
  - auto.
  - contradiction.
  - destruct Hq as [-> Hk]. unfold os_ReadFile. rewrite Hsrc. apply IH; auto.
  - unfold http_Post. rewrite (Hdet (now w1) (now w2)). apply IH; auto.
  - destruct Hq as [-> Hk].
    destruct (os_WriteFile_agree env dst d w1 w2 dst Hdst) as [Hr Hd].
    destruct (os_WriteFile_agree env dst d w1 w2 src Hsrc) as [_ Hs].
    destruct (os_WriteFile env dst d w1) as [r1 w1'].
    destruct (os_WriteFile env dst d w2) as [r2 w2']. simpl in *. subst r2.
    apply IH; auto.
Qed.

Lemma processSingleFile_confined (goos : GOOS) (config : AppConfig) (filePath : string) :
  confined filePath (getOutputPath goos filePath) (processSingleFile goos filePath config).
Proof.
  unfold processSingleFile, readFile, post, writeFile. cbn [bind confined].
  split; [reflexivity |]. intros [content|e]; [| exact I].
  cbn [json_Marshal bind confined]. intros [resp|e]; [| exact I].
  destruct (negb _); [destruct (io_ReadAll _); exact I |].
  destruct (io_ReadAll _) as [mp3 [e|]]; [exact I |]. cbn [bind confined].
  split; [reflexivity |]. intros [e|]; exact I.
Qed.

Lemma elem_of_inflight (ws : list Worker) (i : nat) (filePath : string)
    (p : Prog ProcessResult) :
  ws !! i = Some (WBody filePath p) -> filePath ∈ inflight ws.
Proof.
  revert i. induction ws as [|x ws IH]; intros [|i]; simpl; try discriminate.
  - intros [= ->]. unfold inflight. simpl. left.
  - intros H. unfold inflight. simpl. apply elem_of_app. right. eapply IH; eauto.
Qed.

Lemma elem_of_map {A B : Type} (f : A -> B) (l : list A) (x : A) :
  x ∈ l -> f x ∈ map f l.
Proof. induction 1; simpl; [left | now right]. Qed.

Lemma elem_of_map_inv {A B : Type} (f : A -> B) (l : list A) (y : B) :
  y ∈ map f l -> exists x, x ∈ l /\ y = f x.
Proof.
  induction l as [|a l IH]; simpl; intros H.
  - inversion H.
  - apply elem_of_cons in H as [->|H]; [exists a; split; [left | auto] |].
    destruct (IH H) as (x & Hx & ->). exists x. split; [now right | auto].
Qed.

Section Determinism.

Context (goos : GOOS) (env : Env) (config : AppConfig) (input : list string)
        (fs0 : gmap string bytes).

Hypothesis Hdet : deterministic_endpoint env.
Hypothesis Hapart : jobs_apart goos input.

Abbreviation dest := (getOutputPath goos).
Abbreviation sys_inv := (pool_inv config input).
Abbreviation sys_det := (det_inv goos env config fs0 input).
Abbreviation course := (on_course goos env config fs0).

(** The job of a worker is one of the input files, and its destination is
    that of no other job, wherever that job is. *)
Lemma job_apart (s : Pool) (j : nat) (g : string) (p : Prog ProcessResult) :
  sys_inv s -> workers s !! j = Some (WBody g p) ->
  g ∈ input /\
  (forall f, f ∈ (unsent input (main s) ++ buf (jobs s))%list -> dest f <> dest g) /\
  (forall r, r ∈ (buf (results s) ++ allResults s)%list -> dest (FilePath r) <> dest g) /\
  (forall i f q, i <> j -> workers s !! i = Some (WBody f q) -> dest f <> dest g).
Proof.
  intros [Hjobs _ _ _ _ _ _ _] Hj. destruct Hapart as [Hnd _].
  pose proof (inflight_insert (workers s) j _ WRange Hj) as Hi.
  cbn [job_of] in Hi. rewrite app_nil_r in Hi.
  set (rest := (unsent input (main s) ++ buf (jobs s)
                ++ inflight (<[j := WRange]> (workers s))
                ++ map FilePath (buf (results s) ++ allResults s))%list).
  assert (Hperm : input ≡ₚ g :: rest).
  { etransitivity; [exact Hjobs |]. rewrite <- Hi. unfold rest. solve_Permutation. }
  assert (Hfresh : forall f, f ∈ rest -> dest f <> dest g).
  { intros f Hf Heq.
    assert (Hnd' : NoDup (map dest (g :: rest))).
    { pose proof (Permutation_map dest Hperm) as Hpm. now rewrite <- Hpm. }
    simpl in Hnd'. apply NoDup_cons in Hnd' as [Hnot _]. apply Hnot.
    rewrite <- Heq. now apply elem_of_map. }
  split; [rewrite Hperm; left |].
  split; [| split].
  - intros f Hf. apply Hfresh. unfold rest. rewrite app_assoc. apply elem_of_app. now left.
  - intros r Hr. apply Hfresh. unfold rest. rewrite !elem_of_app. right. right. right.
    now apply elem_of_map.
  - intros i f q Hne Hi'. apply Hfresh. unfold rest. rewrite !elem_of_app.
    right. right. left. apply (elem_of_inflight _ i f q).
    rewrite list_lookup_insert_ne; auto.
Qed.

Lemma on_course_stable (f : string) (p : Prog ProcessResult) (w w' : World) :
  course f p w ->
  files w' !! f = files w !! f -> files w' !! dest f = files w !! dest f ->
  course f p w'.
Proof.
  intros [[-> Hd]|[(q & t & -> & Hq & Hr & Hf)|(r & -> & Ho & Hf)]] Hsrc Hdst.
  - left. split; [reflexivity | congruence].
  - right. left. exists q, t. split; [reflexivity |]. split; [exact Hq |].
    destruct (run_agree env f (dest f) q Hdet Hq w' w Hsrc Hdst) as [H1 H2].
    split; congruence.
  - right. right. exists r. split; [reflexivity |]. split; [exact Ho | congruence].
Qed.

Lemma on_course_step (f : string) (p p' : Prog ProcessResult) (w w' : World) :
  files w !! f = fs0 !! f -> course f p w -> perform env p w = Some (p', w') ->
  course f p' w' /\ forall path, path <> dest f -> files w' !! path = files w !! path.
Proof.
  intros Hsrc [[-> Hd]|[(q & t & -> & Hq & Hr & Hf)|(r & -> & Ho & Hf)]] Hp.
  - unfold worker_body, timeNow in Hp. cbn [bind perform time_Now] in Hp.
    injection Hp as <- <-. split; [| reflexivity].
    right. left. exists (processSingleFile goos f config), (now w).
    split; [reflexivity |]. split; [apply processSingleFile_confined |].
    apply (run_agree env f (dest f) _ Hdet (processSingleFile_confined goos config f));
      cbn [files tick world_of]; auto.
  - apply perform_bind in Hp as [(x & -> & Hp)|(q' & Hp & ->)].
    + unfold finish, timeNow in Hp. cbn [bind perform time_Now] in Hp.
      injection Hp as <- <-. split; [| reflexivity].
      right. right. eexists. split; [reflexivity |]. cbn [run fst snd] in Hr, Hf.
      split; [| exact Hf]. unfold outcome, expected. cbn [FilePath OutputPath Error].
      now rewrite <- Hr.
    + destruct (perform_confined env _ _ _ _ _ _ Hp Hq) as [Hq' Hframe].
      split; [| exact Hframe].
      right. left. exists q', t. split; [reflexivity |]. split; [exact Hq' |].
      rewrite <- (perform_run env _ _ _ _ Hp). auto.
  - discriminate.
Qed.

Lemma on_course_Ret (f : string) (r : ProcessResult) (w : World) :
  course f (Ret r) w ->
  outcome r = expected goos env config fs0 f /\
  files w !! dest f = written goos env config fs0 f.
Proof.
  intros [[H _]|[(q & t & H & _)|(r' & [= <-] & Ho & Hf)]]; [| | auto].
  - unfold worker_body, timeNow in H. discriminate.
  - destruct q; discriminate.
Qed.

Abbreviation sys_step_of := (step_of goos env config input).
Abbreviation sys_step := (step goos env config input).

Lemma source_untouched (s : Pool) (f : string) :
  sys_det s -> f ∈ input -> files (world s) !! f = fs0 !! f.
Proof.
  intros [Hframe _ _ _] Hf. apply Hframe. intros g Hg. now apply (proj2 Hapart).
Qed.

(** What a step of a worker inside the loop body does to the files: nothing
    outside the destination of its job. *)
Lemma body_step_frame (s : Pool) (j : nat) (g : string) (p p' : Prog ProcessResult)
    (w' : World) :
  sys_inv s -> sys_det s -> workers s !! j = Some (WBody g p) ->
  perform env p (world s) = Some (p', w') ->
  course g p' w' /\
  forall path, path <> dest g -> files w' !! path = files (world s) !! path.
Proof.
  intros Hinv Hdi Hj Hp.
  destruct (job_apart s j g p Hinv Hj) as (Hg & _).
  apply on_course_step with (p := p); auto.
  - now apply source_untouched.
  - eapply det_busy; eauto.
Qed.

Lemma det_step_frame (s s' : Pool) (t : Tid) :
  sys_inv s -> sys_det s -> sys_step_of t s = Some s' ->
  forall path, (forall f, f ∈ input -> dest f <> path) ->
    files (world s') !! path = fs0 !! path.
Proof.
  intros Hinv Hdi H path Hpath. pose proof (det_frame _ _ _ _ _ _ Hdi path Hpath) as Hold.
  pose proof Hinv as Hinv'. pose proof Hdi as Hdi'.
  step_inv H; pool_simpl; auto.
  destruct (body_step_frame s i filePath p p' w' Hinv' Hdi' Hworker Hperf) as [_ Hfr].
  destruct (job_apart s i filePath p Hinv' Hworker) as (Hg & _).
  rewrite Hfr; auto. intros ->. now apply (Hpath filePath).
Qed.

Lemma det_step_pending (s s' : Pool) (t : Tid) :
  sys_inv s -> sys_det s -> sys_step_of t s = Some s' ->
  forall f, f ∈ (unsent input (main s') ++ buf (jobs s'))%list ->
    files (world s') !! dest f = fs0 !! dest f.
Proof.
  intros Hinv Hdi H f. pose proof (det_pending _ _ _ _ _ _ Hdi f) as Hold.
  pose proof Hinv as Hinv'. pose proof Hdi as Hdi'.
  step_inv H; pool_simpl; rewrite ?Hmain, ?Hbuf in *; cbn [unsent tail] in *; auto.
  - intros Hf. apply Hold. rewrite !elem_of_app in *. rewrite elem_of_cons.
    rewrite list_elem_of_singleton in Hf. tauto.
  - intros Hf. apply Hold. rewrite !elem_of_app in *. rewrite elem_of_cons. tauto.
  - intros Hf.
    destruct (body_step_frame s i filePath p p' w' Hinv' Hdi' Hworker Hperf) as [_ Hfr].
    destruct (job_apart s i filePath p Hinv' Hworker) as (_ & Hpend & _).
    rewrite Hfr; [auto | apply Hpend; auto].
Qed.

Lemma det_step_done (s s' : Pool) (t : Tid) :
  sys_inv s -> sys_det s -> sys_step_of t s = Some s' ->
  forall r, r ∈ (buf (results s') ++ allResults s')%list ->
    outcome r = expected goos env config fs0 (FilePath r) /\
    files (world s') !! dest (FilePath r) = written goos env config fs0 (FilePath r).
Proof.
  intros Hinv Hdi H r. pose proof (det_done _ _ _ _ _ _ Hdi r) as Hold.
  pose proof Hinv as Hinv'. pose proof Hdi as Hdi'.
  step_inv H; pool_simpl; rewrite ?Hbuf in *; cbn [tail] in *; auto.
  - intros Hr. apply Hold. rewrite !elem_of_app in *. rewrite elem_of_cons.
    rewrite list_elem_of_singleton in Hr. tauto.
  - intros Hr. rewrite !elem_of_app, list_elem_of_singleton in Hr.
    destruct Hr as [[Hr| ->]|Hr]; [apply Hold; rewrite elem_of_app; tauto | |
                                   apply Hold; rewrite elem_of_app; tauto].
    pose proof (det_busy _ _ _ _ _ _ Hdi' _ _ _ Hworker) as Hc.
    apply on_course_Ret in Hc as [Ho Hf].
    assert (FilePath result = filePath) as -> by (unfold outcome, expected in Ho; congruence).
    auto.
  - intros Hr.
    destruct (body_step_frame s i filePath p p' w' Hinv' Hdi' Hworker Hperf) as [_ Hfr].
    destruct (job_apart s i filePath p Hinv' Hworker) as (_ & _ & Hdone & _).
    rewrite Hfr; [auto | apply Hdone; auto].
Qed.

Lemma det_step_busy (s s' : Pool) (t : Tid) :
  sys_inv s -> sys_det s -> sys_step_of t s = Some s' ->
  forall j f q, workers s' !! j = Some (WBody f q) -> course f q (world s').
Proof.
  intros Hinv Hdi H j f q. pose proof (det_busy _ _ _ _ _ _ Hdi j f q) as Hold.
  pose proof Hinv as Hinv'. pose proof Hdi as Hdi'.
  step_inv H; pool_simpl; auto.
  - intros Hj. apply lookup_app_Some in Hj as [Hj|[_ Hj]]; [auto |].
    destruct (j - length (workers s))%nat as [|[|?]]; discriminate.
  - intros Hj. apply list_lookup_insert_Some in Hj as [(_ & Hj & _)|[_ Hj]];
      [discriminate | auto].
  - intros Hj. apply list_lookup_insert_Some in Hj as [(_ & Hj & _)|[_ Hj]]; [| auto].
    injection Hj as <- <-. left. split; [reflexivity |].
    apply (det_pending _ _ _ _ _ _ Hdi'). rewrite Hbuf, elem_of_app, elem_of_cons. tauto.
  - intros Hj. apply list_lookup_insert_Some in Hj as [(_ & Hj & _)|[_ Hj]];
      [discriminate | auto].
  - intros Hj.
    destruct (body_step_frame s i filePath p p' w' Hinv' Hdi' Hworker Hperf) as [Hc Hfr].
    apply list_lookup_insert_Some in Hj as [(_ & Hj & _)|[Hne Hj]].
    + injection Hj as <- <-. exact Hc.
    + destruct (job_apart s i filePath p Hinv' Hworker) as (Hg & _ & _ & Hothers).
      destruct (job_apart s j f q Hinv' Hj) as (Hf & _).
      apply on_course_stable with (w := world s); auto.
      * apply Hfr. intros Heq. apply (proj2 Hapart f filePath Hf Hg). now symmetry.
      * apply Hfr. apply (Hothers j f q); auto.
Qed.

Lemma det_inv_step (s s' : Pool) :
  sys_inv s -> sys_det s -> sys_step s s' -> sys_det s'.
Proof.
  intros Hinv Hdi [t H]. constructor.
  - eapply det_step_frame; eauto.
  - eapply det_step_pending; eauto.
  - eapply det_step_done; eauto.
  - eapply det_step_busy; eauto.
Qed.

Lemma det_inv_init (w : World) : files w = fs0 -> sys_det (pool_init input w).
Proof.
  intros Hw. constructor; pool_simpl.
  - intros path _. now rewrite Hw.
  - intros f _. now rewrite Hw.
  - intros r Hr. inversion Hr.
  - intros i f p. rewrite lookup_nil. discriminate.
Qed.

Lemma det_inv_reachable (w : World) (s : Pool) :
  files w = fs0 -> rtc sys_step (pool_init input w) s -> sys_inv s /\ sys_det s.
Proof.
  intros Hw. revert s. apply rtc_ind_r.
  - split; [apply pool_inv_init | now apply det_inv_init].
  - intros y z _ Hyz [Hi Hd]. split; [eapply pool_inv_step; eauto |].
    eapply det_inv_step; eauto.
Qed.

(** Whatever the schedule, the pool returns the results the jobs have one
    by one, and leaves the files as the jobs leave them one by one. *)
Lemma returned_canonical (w : World) (s : Pool) :
  files w = fs0 -> 1 <= Workers config ->
  rtc sys_step (pool_init input w) s -> main s = MReturn ->
  map outcome (allResults s) ≡ₚ map (expected goos env config fs0) input /\
  (forall f, f ∈ input -> files (world s) !! dest f = written goos env config fs0 f) /\
  (forall path, (forall f, f ∈ input -> dest f <> path) ->
     files (world s) !! path = fs0 !! path).
Proof.
  intros Hw Hk Hs Hm. destruct (det_inv_reachable w s Hw Hs) as [Hinv Hdi].
  destruct (returned_complete config input s Hk Hinv Hm)
    as (_ & Hperm & _ & Hrb & _).
  pose proof (det_done _ _ _ _ _ _ Hdi) as Hdone. rewrite Hrb in Hdone. simpl in Hdone.
  split; [| split].
  - rewrite <- Hperm. rewrite map_map.
    clear - Hdone. induction (allResults s) as [|r rs IH]; [reflexivity |].
    simpl. rewrite (proj1 (Hdone r ltac:(left))). constructor.
    apply IH. intros r' Hr'. apply Hdone. now right.
  - intros f Hf. rewrite <- Hperm in Hf. apply elem_of_map_inv in Hf as (r & Hr & ->).
    now apply Hdone.
  - apply (det_frame _ _ _ _ _ _ Hdi).
Qed.

End Determinism.

Lemma exec_rtc (goos : GOOS) (env : Env) (config : AppConfig) (input : list string)
    (sched : list Tid) (s s' : Pool) :
  exec goos env config input sched s = Some s' ->
  rtc (step goos env config input) s s'.
Proof.
  revert s. induction sched as [|t sched IH]; intros s; simpl.
  - intros [= <-]. constructor.
  - destruct (step_of goos env config input t s) as [s1|] eqn:E; [| discriminate].
    intros H. eapply rtc_l; [exists t; exact E | now apply IH].
Qed.

Lemma pool_after_reachable (goos : GOOS) (env : Env) (config : AppConfig)
    (input : list string) (sched : list Tid) (w : World) :
  rtc (step goos env config input) (pool_init input w)
      (pool_after goos env config input sched w).
Proof.
  unfold pool_after.
  destruct (exec goos env config input sched (pool_init input w)) eqn:E.
  - eapply exec_rtc; eauto.
  - constructor.
Qed.

Lemma pool_after_returns (goos : GOOS) (env : Env) (config : AppConfig)
    (input : list string) (sched : list Tid) (w : World) :
  main (pool_after goos env config input sched w) = MReturn ->
  processFiles_returns goos env config input w
    (allResults (pool_after goos env config input sched w))
    (world (pool_after goos env config input sched w)).
Proof.
  intros Hm. eexists. split; [apply pool_after_reachable |].
  split; [exact Hm |]. split; reflexivity.
Qed.

(** C6, as the code has it. For a deterministic endpoint and a job list in
    which no two jobs have the same destination and no destination is the
    source of a job, a run with one worker and a run with K > 1 workers
    return the same results up to order and duration (same job, same output
    path, same error) and leave the same files, whatever the schedules. *)
Theorem results_independent_of_worker_count
    (goos : GOOS) (env : Env) (config : AppConfig) (input : list string)
    (K : Z) (w : World) (rs1 rsK : list ProcessResult) (w1 wK : World) :
  deterministic_endpoint env ->
  jobs_apart goos input ->
  1 < K ->
  processFiles_returns goos env (with_workers 1 config) input w rs1 w1 ->
  processFiles_returns goos env (with_workers K config) input w rsK wK ->
  map outcome rs1 ≡ₚ map outcome rsK /\
  files w1 = files wK.
Proof.
  intros Hdet Hapart HK (s1 & Hs1 & Hm1 & <- & <-) (sK & HsK & HmK & <- & <-).
  destruct (returned_canonical goos env (with_workers 1 config) input (files w)
              Hdet Hapart w s1 eq_refl ltac:(simpl; lia) Hs1 Hm1) as (Hr1 & Hd1 & Hf1).
  destruct (returned_canonical goos env (with_workers K config) input (files w)
              Hdet Hapart w sK eq_refl ltac:(simpl; lia) HsK HmK) as (HrK & HdK & HfK).
  split.
  - rewrite Hr1, HrK. reflexivity.
  - apply map_eq. intros path.
    destruct (decide (path ∈ map (getOutputPath goos) input)) as [Hin|Hout].
    + apply elem_of_map_inv in Hin as (f & Hf & ->).
      rewrite (Hd1 f Hf), (HdK f Hf). reflexivity.
    + rewrite Hf1, HfK; auto; intros f Hf <-; apply Hout; now apply elem_of_map.
Qed.

(** C6, as stated, fails: "a.txt" and "a.TXT" are both written to "a.mp3".
    With one worker the second job writes last; with two workers there is a
    schedule in which the first job writes last.  The endpoint is
    deterministic, the results are the same, and the destination ends up
    with different contents. *)
Lemma destination_depends_on_schedule :
  let config := the_config 1 in
  let input := ["a.txt"; "a.TXT"] in
  let w := world_of two_cases in
  let s1 := pool_after Linux echo_endpoint (with_workers 1 config) input
                       schedule_one_worker w in
  let s2 := pool_after Linux echo_endpoint (with_workers 2 config) input
                       schedule_two_workers w in
  deterministic_endpoint echo_endpoint /\
  processFiles_returns Linux echo_endpoint (with_workers 1 config) input w
    (allResults s1) (world s1) /\
  processFiles_returns Linux echo_endpoint (with_workers 2 config) input w
    (allResults s2) (world s2) /\
  map outcome (allResults s1) ≡ₚ map outcome (allResults s2) /\
  files (world s1) !! "a.mp3" = Some (bytes_of "y") /\
  files (world s2) !! "a.mp3" = Some (bytes_of "x").
Proof.
  cbn zeta. split; [intros t t' url ct body; reflexivity |].
  split; [apply pool_after_returns; vm_compute; reflexivity |].
  split; [apply pool_after_returns; vm_compute; reflexivity |].
  split; [vm_compute; apply perm_swap |].
  split; vm_compute; reflexivity.
Qed.

(** Nor may a destination be the source of a job: with the jobs "a.txt"
    and "a.mp3", one worker reads "a.mp3" after the first job has written it
    and both jobs succeed; with two workers the second job can read first,
    and fails. *)
Lemma classification_depends_on_schedule :
  let config := the_config 1 in
  let input := ["a.txt"; "a.mp3"] in
  let w := world_of one_file in
  let s1 := pool_after Linux echo_endpoint (with_workers 1 config) input
                       schedule_one_worker w in
  let s2 := pool_after Linux echo_endpoint (with_workers 2 config) input
                       schedule_second_reads_first w in
  main s1 = MReturn /\ main s2 = MReturn /\
  map Error (allResults s1) = [None; None] /\
  map outcome (allResults s2) =
    [("a.mp3", "", Some (Errorf_w "failed to read file"
                           (SysError false "open a.mp3: no such file or directory")));
     ("a.txt", "a.mp3", None)].
Proof. cbn zeta. repeat split; vm_compute; reflexivity. Qed.

Lemma jobs_apart_example : jobs_apart Linux ["a.txt"; "b.txt"].
Proof.
  split.
  - change (NoDup ["a.mp3"; "b.mp3"]).
    apply NoDup_cons. split; [| apply NoDup_singleton].
    rewrite list_elem_of_singleton. discriminate.
  - intros f g Hf Hg.
    apply elem_of_cons in Hf as [->|Hf]; [| apply list_elem_of_singleton in Hf as ->];
      (apply elem_of_cons in Hg as [->|Hg]; [| apply list_elem_of_singleton in Hg as ->]);
      vm_compute; discriminate.
Qed.

Lemma results_independent_example :
  let config := the_config 1 in
  let input := ["a.txt"; "b.txt"] in
  let w := world_of two_files in
  let s1 := pool_after Linux echo_endpoint (with_workers 1 config) input
                       schedule_one_worker w in
  let s2 := pool_after Linux echo_endpoint (with_workers 2 config) input
                       schedule_two_workers w in
  map outcome (allResults s1) ≡ₚ map outcome (allResults s2) /\
  files (world s1) = files (world s2).
Proof.
  apply (results_independent_of_worker_count Linux echo_endpoint (the_config 1)
           ["a.txt"; "b.txt"] 2 (world_of two_files)).
  - intros t t' url ct body. reflexivity.
  - exact jobs_apart_example.
  - lia.
  - apply pool_after_returns. vm_compute. reflexivity.
  - apply pool_after_returns. vm_compute. reflexivity.
Defined.

(** ** The exit status *)

Lemma main_exit_after_scan (files : list string) (results : list ProcessResult) :
  main_exit (inl files) results = 0.
Proof. unfold main_exit, run_app. destruct (length files =? 0)%nat; reflexivity. Qed.

(** C2, on the code. Two jobs, an endpoint that answers 500 to every
    request: [processFiles] returns two failed results, the summary counts 0
    successes and 2 failures, and [main] ends with status 0, the status of a
    run in which every job succeeded.  Indeed [main] ends with status 0
    whatever the results are, once the scan has succeeded. *)
Theorem exit_status_is_zero_when_all_jobs_fail :
  let config := the_config 2 in
  let input := ["a.txt"; "b.txt"] in
  let env := fixed_endpoint 500 (bytes_of "Internal Server Error") in
  let w := world_of two_files in
  let s := pool_after Linux env config input schedule_two_failures w in
  let s_ok := pool_after Linux echo_endpoint config input schedule_two_workers w in
  rtc (step Linux env config input) (pool_init input w) s /\
  main s = MReturn /\
  map Error (allResults s) =
    [Some (Errorf "server returned status 500: Internal Server Error");
     Some (Errorf "server returned status 500: Internal Server Error")] /\
  printSummary (allResults s) = (0, 2) /\
  main_exit (inl input) (allResults s) = 0 /\
  printSummary (allResults s_ok) = (2, 0) /\
  main_exit (inl input) (allResults s_ok) = 0 /\
  (forall files results, main_exit (inl files) results = 0).
Proof.
  cbn zeta. split; [apply pool_after_reachable |].
  do 6 (split; [vm_compute; reflexivity |]).
  apply main_exit_after_scan.
Qed.

(** ** The results of the pool and the files they name *)

Lemma good_result_mono (goos : GOOS) (evs evs' : list Event) (f : string)
    (r : ProcessResult) :
  incl evs evs' -> good_result goos evs f r -> good_result goos evs' f r.
Proof.
  intros Hi (Hf & Hok & Herr). split; [exact Hf |]. split; [| exact Herr].
  intros Hn. destruct (Hok Hn) as (Ho & data & Hd). split; [exact Ho |].
  exists data. now apply Hi.
Qed.

Lemma sound_mono (goos : GOOS) (f : string) (p : Prog ProcessResult) :
  forall evs evs', incl evs evs' -> sound goos evs f p -> sound goos evs' f p.
Proof.
  induction p as [r|k IH|name k IH|t u c b k IH|name d pm k IH];
    intros evs evs' Hi; simpl.
  - now apply good_result_mono.
  - intros H x. eapply IH; eauto.
  - intros H x. eapply IH; eauto.
  - intros H x. eapply IH; eauto.
  - intros (Hn & Hok & Herr). split; [exact Hn |]. split.
    + eapply IH; [| exact Hok]. intros ev [<-|Hev]; [now left | right; now apply Hi].
    + intros e. eapply IH; eauto.
Qed.

Lemma worker_body_sound (goos : GOOS) (config : AppConfig) (evs : list Event)
    (filePath : string) :
  sound goos evs filePath (worker_body goos filePath config).
Proof.
  assert (Hfail : forall evs' t e,
             sound goos evs' filePath (finish filePath t ("", Some e))).
  { intros evs' t e. unfold finish, timeNow. cbn [bind sound]. intros t'.
    split; [reflexivity |]. split; [discriminate | reflexivity]. }
  unfold worker_body, timeNow. cbn [bind sound]. intros t.
  unfold processSingleFile, readFile, post, writeFile. cbn [bind sound].
  intros [content|e]; [| apply Hfail].
  cbn [json_Marshal bind sound]. intros [resp|e]; [| apply Hfail].
  destruct (negb _); [destruct (io_ReadAll _); apply Hfail |].
  destruct (io_ReadAll _) as [mp3 [e|]]; [apply Hfail |]. cbn [bind sound].
  split; [apply getOutputPath_nonempty |]. split; [| intros e; apply Hfail].
  unfold finish, timeNow. cbn [bind sound]. intros t'.
  split; [reflexivity |]. split; [| intros H; now destruct H].
  intros _. split; [reflexivity |]. cbn [OutputPath fst]. eexists. left. reflexivity.
Qed.

(** One operation of a sound body: the log grows by the events of the
    operation, files that exist keep existing, a successful write leaves its
    file, and what is left of the body is sound for the longer log. *)
Lemma perform_sound (goos : GOOS) (env : Env) (f : string) (p p' : Prog ProcessResult)
    (w w' : World) (evs : list Event) :
  perform env p w = Some (p', w') -> sound goos evs f p ->
  exists new,
    log w' = (log w ++ new)%list /\
    Forall named_write new /\
    (forall name, is_Some (files w !! name) -> is_Some (files w' !! name)) /\
    (forall name data, In (EvWrite name data true) new -> is_Some (files w' !! name)) /\
    sound goos (evs ++ new) f p'.
Proof.
  destruct p as [r|k|name k|t u c b k|name d pm k]; simpl; try discriminate.
  - intros [= <- <-] H. exists []. cbn [log tick files]. rewrite !app_nil_r.
    split; [reflexivity |]. split; [constructor |]. split; [auto |].
    split; [intros ? ? [] | apply H].
  - intros [= <- <-] H. exists [EvRead name]. cbn [log tick files].
    split; [reflexivity |]. split; [repeat constructor |]. split; [auto |].
    split; [intros ? ? [E|[]]; discriminate |].
    eapply sound_mono; [| apply H]. intros ev Hev. apply in_or_app. now left.
  - intros [= <- <-] H. exists [EvPost u c b]. cbn [log tick files].
    split; [reflexivity |]. split; [repeat constructor |]. split; [auto |].
    split; [intros ? ? [E|[]]; discriminate |].
    eapply sound_mono; [| apply H]. intros ev Hev. apply in_or_app. now left.
  - unfold os_WriteFile. destruct (write_fault env name) as [|msg|n msg];
      intros [= <- <-] (Hn & Hok & Herr).
    + exists [EvWrite name d true]. cbn [log tick set_file files].
      split; [reflexivity |]. split; [repeat constructor; exact Hn |].
      split; [| split].
      * intros x Hx. destruct (decide (name = x)) as [->|Hne];
          [rewrite lookup_insert_eq; eauto | now rewrite lookup_insert_ne].
      * intros x y [[= <- <-]|[]]. rewrite lookup_insert_eq. eauto.
      * eapply sound_mono; [| apply Hok].
        intros ev [<-|Hev]; apply in_or_app; [right; now left | now left].
    + exists [EvWrite name d false]. cbn [log tick files].
      split; [reflexivity |]. split; [repeat constructor; exact Hn |].
      split; [auto |]. split; [intros x y [E|[]]; discriminate |].
      eapply sound_mono; [| apply Herr]. intros ev Hev. apply in_or_app. now left.
    + exists [EvWrite name d false]. cbn [log tick set_file files].
      split; [reflexivity |]. split; [repeat constructor; exact Hn |].
      split; [| split].
      * intros x Hx. destruct (decide (name = x)) as [->|Hne];
          [rewrite lookup_insert_eq; eauto | now rewrite lookup_insert_ne].
      * intros x y [E|[]]. discriminate.
      * eapply sound_mono; [| apply Herr]. intros ev Hev. apply in_or_app. now left.
Qed.

Section PoolResults.

Context (goos : GOOS) (env : Env) (config : AppConfig) (input : list string)
        (w0 : World).

Abbreviation sys_step_of := (step_of goos env config input).
Abbreviation sys_step := (step goos env config input).
Abbreviation res_inv := (results_inv goos w0).

Lemma results_inv_init : res_inv (pool_init input w0).
Proof.
  exists []. pool_simpl. rewrite app_nil_r.
  split; [reflexivity |]. split; [constructor |]. split; [intros ? ? [] |].
  split.
  - intros i f p. rewrite lookup_nil. discriminate.
  - intros r Hr. inversion Hr.
Qed.

Lemma results_inv_step (s s' : Pool) : res_inv s -> sys_step s s' -> res_inv s'.
Proof.
  intros (evs & Hlog & Hnamed & Hfiles & Hbusy & Hdone) [t H].
  step_inv H.
  1-10: (exists evs; pool_simpl; rewrite ?Hbuf in *; cbn [tail] in *;
         split; [exact Hlog |]; split; [exact Hnamed |];
         split; [exact Hfiles |]; split; [try exact Hbusy | try exact Hdone]).
  - intros j f q Hj. apply lookup_app_Some in Hj as [Hj|[_ Hj]]; [eauto |].
    destruct (j - length (workers s))%nat as [|[|?]]; discriminate.
  - intros r Hr. apply Hdone. rewrite !elem_of_app in *.
    rewrite elem_of_cons. rewrite list_elem_of_singleton in Hr. tauto.
  - intros j f q Hj. apply list_lookup_insert_Some in Hj as [(_ & Hj & _)|[_ Hj]];
      [discriminate | eauto].
  - intros j f q Hj. apply list_lookup_insert_Some in Hj as [(_ & Hj & _)|[_ Hj]];
      [| eauto].
    injection Hj as <- <-. apply worker_body_sound.
  - intros j f q Hj. apply list_lookup_insert_Some in Hj as [(_ & Hj & _)|[_ Hj]];
      [discriminate | eauto].
  - intros r Hr. rewrite !elem_of_app, list_elem_of_singleton in Hr.
    destruct Hr as [[Hr| ->]|Hr]; [apply Hdone; rewrite elem_of_app; tauto | |
                                   apply Hdone; rewrite elem_of_app; tauto].
    pose proof (Hbusy _ _ _ Hworker) as Hs. cbn [sound] in Hs.
    destruct Hs as (Hf & Hrest). rewrite Hf. split; auto.
  - destruct (perform_sound goos env filePath p p' (world s) w' evs Hperf
                (Hbusy _ _ _ Hworker)) as (new & Hlog' & Hnamed' & Hkeep & Hnew & Hs).
    exists (evs ++ new)%list. pool_simpl.
    split; [rewrite Hlog', Hlog; now rewrite app_assoc |].
    split; [apply Forall_app; auto |].
    split; [| split].
    + intros name data Hin. apply in_app_or in Hin as [Hin|Hin]; eauto.
    + intros j f q Hj. apply list_lookup_insert_Some in Hj as [(_ & Hj & _)|[_ Hj]].
      * injection Hj as <- <-. exact Hs.
      * eapply sound_mono; [| eapply Hbusy; eauto].
        intros ev Hev. apply in_or_app. now left.
    + intros r Hr. eapply good_result_mono; [| apply Hdone; exact Hr].
      intros ev Hev. apply in_or_app. now left.
Qed.

Lemma results_inv_reachable (s : Pool) :
  rtc sys_step (pool_init input w0) s -> res_inv s.
Proof.
  revert s. apply rtc_ind_r.
  - apply results_inv_init.
  - intros y z _ Hyz IH. eapply results_inv_step; eauto.
Qed.

End PoolResults.

(** C9. Every result of a worker has a nil error exactly when a file was
    written at its output path.  For one pass through the loop body: the
    error is nil iff the pass wrote the file at the result's output path; on
    success that path is [getOutputPath] of the source and holds the written
    bytes; on failure the output path is empty.  For the pool, under any
    schedule: every result sent by a worker has a nil error iff a write to
    its output path has succeeded since the pool started; on success the
    file at the output path exists; on failure the output path is empty. *)
Theorem every_result_error_nil_iff_written (goos : GOOS) (env : Env) (config : AppConfig) :
  (forall filePath w,
     let r := fst (run env (worker_body goos filePath config) w) in
     let w' := snd (run env (worker_body goos filePath config) w) in
     FilePath r = filePath /\
     (Error r = None <->
      exists data, In (EvWrite (OutputPath r) data true) (events_since w w')) /\
     (Error r = None ->
      OutputPath r = getOutputPath goos filePath /\
      exists data, files w' !! OutputPath r = Some data /\
                   In (EvWrite (OutputPath r) data true) (events_since w w')) /\
     (Error r <> None -> OutputPath r = "")) /\
  (forall input w0 s r,
     rtc (step goos env config input) (pool_init input w0) s ->
     r ∈ (buf (results s) ++ allResults s)%list ->
     (Error r = None <->
      exists data, In (EvWrite (OutputPath r) data true) (events_since w0 (world s))) /\
     (Error r = None ->
      OutputPath r = getOutputPath goos (FilePath r) /\
      is_Some (files (world s) !! OutputPath r)) /\
     (Error r <> None -> OutputPath r = "")).
Proof.
  split; [intros filePath w; apply body_result_error_nil_iff_written |].
  intros input w0 s r Hs Hr.
  destruct (results_inv_reachable goos env config input w0 s Hs)
    as (evs & Hlog & Hnamed & Hfiles & _ & Hdone).
  rewrite (events_since_app w0 (world s) evs Hlog).
  destruct (Hdone r Hr) as (_ & Hok & Herr).
  split; [split |]; [| | split].
  - intros Hn. now destruct (Hok Hn).
  - intros [data Hin]. destruct (Error r) as [e|] eqn:He; [| reflexivity].
    rewrite Herr in Hin by discriminate.
    rewrite Forall_forall in Hnamed. apply list_elem_of_In in Hin.
    specialize (Hnamed _ Hin). now destruct Hnamed.
  - intros Hn. destruct (Hok Hn) as (Ho & data & Hin). split; [exact Ho |]. eauto.
  - exact Herr.
Qed.

(** ** [processSingleFile]: the successful job, the kinds of failure, the
    order of the operations *)

Section ClientPipeline.

Context (goos : GOOS) (env : Env) (config : AppConfig).

(** X1. A readable source, a complete 200 response and a write that
    succeeds: the job returns its output path and a nil error, the
    destination holds exactly the response body (an empty body included) and
    every other file is as it was; the job has read, posted and written, once
    each and in this order. *)
Theorem successful_job_writes_the_response_body
    (filePath : string) (w : World) (content body : bytes)
    (headers_at body_at : Z) (received : nat) (late : TimeoutText) :
  fst (os_ReadFile env filePath w) = inl content ->
  exchange_at env config (S (now w)) content
    = Reply headers_at http_StatusOK body body_at received late ->
  deadline_passed (Timeout config) headers_at = false ->
  deadline_passed (Timeout config) body_at = false ->
  write_fault env (getOutputPath goos filePath) = WriteOk ->
  let r := run env (processSingleFile goos filePath config) w in
  fst r = (getOutputPath goos filePath, None) /\
  files (snd r) = <[getOutputPath goos filePath := body]> (files w) /\
  events_since w (snd r) =
    [EvRead filePath;
     EvPost (request_url config) "application/json" (request_body content);
     EvWrite (getOutputPath goos filePath) body true].
Proof.
  intros Hr Hx Hh Hb Hw. cbn zeta.
  rewrite (psf_after_read goos env config _ _ _ Hr). cbn zeta. cbn [now tick].
  rewrite Hx, (client_Post_complete _ _ _ _ _ _ _ Hh Hb).
  cbn [StatusCode Body fst snd]. rewrite Z.eqb_refl. cbn [negb].
  unfold os_WriteFile. rewrite Hw. cbn [fst snd files tick set_file].
  split; [reflexivity |]. split; [reflexivity |].
  apply events_since_app. cbn [log tick set_file]. now rewrite <- !app_assoc.
Qed.


(** X3. One job is one attempt: it calls [os.ReadFile] once, on its source,
    then [client.Post] at most once, then [os.WriteFile] at most once, on its
    own destination; [client.Post] is not called when the source cannot be
    read, and nothing is written before [client.Post] has returned.  The
    program does not retry; the requests the HTTP library sends for the one
    call (it follows redirects) are its own matter. *)
Theorem job_reads_then_posts_then_writes (filePath : string) (w : World) :
  let w' := snd (run env (processSingleFile goos filePath config) w) in
  events_since w w' = [EvRead filePath] \/
  (exists content,
     files w !! filePath = Some content /\
     (events_since w w' =
        [EvRead filePath;
         EvPost (request_url config) "application/json" (request_body content)]
      \/
      exists data ok,
        events_since w w' =
          [EvRead filePath;
           EvPost (request_url config) "application/json" (request_body content);
           EvWrite (getOutputPath goos filePath) data ok])).
Proof.
  cbn zeta. psf_cases goos env config filePath w; cbn [fst snd];
    rewrite ?events_two, ?events_one.
  6: now left.
  all: right; exists content; split; [now apply (os_ReadFile_content env) |].
  1-2, 5: now left.
  all: right; apply os_WriteFile_inv in Hwrite; destruct Hwrite as (ok & Hlog & _);
    rewrite (events_three _ _ _ _ _ Hlog); eauto.
Qed.

(** X4. The status is checked before the body is read: with a status other
    than 200 the job fails with the status error built from the bytes that
    did arrive, and the error of reading the body (a timeout, a broken
    connection) is dropped.  The error has no cause and reports no timeout,
    and nothing is written. *)
Theorem non_200_status_drops_the_body_error
    (filePath : string) (w : World) (content : bytes) (resp : Response) :
  fst (os_ReadFile env filePath w) = inl content ->
  client_Post (Timeout config) (exchange_at env config (S (now w)) content) = inl resp ->
  StatusCode resp <> http_StatusOK ->
  let r := run env (processSingleFile goos filePath config) w in
  let e := Errorf (status_message (StatusCode resp) (fst (Body resp))) in
  fst r = ("", Some e) /\
  Unwrap e = None /\ IsTimeout e = false /\
  files (snd r) = files w /\
  (forall headers_at status body body_at received late,
     exchange_at env config (S (now w)) content
       = Reply headers_at status body body_at received late ->
     deadline_passed (Timeout config) body_at = true ->
     fst (Body resp) = take received body) /\
  (forall headers_at status partial timeout msg late,
     exchange_at env config (S (now w)) content
       = Broken headers_at status partial timeout msg late ->
     fst (Body resp) = partial).
Proof.
  intros Hr Hp Hs. cbn zeta. rewrite (psf_non_200 goos env config _ _ _ _ Hr Hp Hs).
  cbn [fst snd files tick]. repeat (split; [reflexivity |]). split.
  - intros h st b bt rc late Hx Hlate. rewrite Hx in Hp. cbn [client_Post] in Hp.
    destruct (deadline_passed (Timeout config) h); [discriminate |].
    rewrite Hlate in Hp. injection Hp as <-. reflexivity.
  - intros h st partial t msg late Hx. rewrite Hx in Hp. cbn [client_Post] in Hp.
    destruct (deadline_passed (Timeout config) h); [discriminate |].
    injection Hp as <-. reflexivity.
Qed.


End ClientPipeline.

Lemma successful_job_example :
  let env := fixed_endpoint 200 (bytes_of "ID3FAKEMP3") in
  let r := run env (processSingleFile Linux "a.txt" (the_config 1)) (world_of one_file) in
  fst r = (getOutputPath Linux "a.txt", None) /\
  files (snd r) = <[getOutputPath Linux "a.txt" := bytes_of "ID3FAKEMP3"]> one_file /\
  events_since (world_of one_file) (snd r) =
    [EvRead "a.txt";
     EvPost (request_url (the_config 1)) "application/json" (request_body (bytes_of "hello"));
     EvWrite (getOutputPath Linux "a.txt") (bytes_of "ID3FAKEMP3") true].
Proof.
  apply (successful_job_writes_the_response_body Linux
           (fixed_endpoint 200 (bytes_of "ID3FAKEMP3")) (the_config 1) "a.txt"
           (world_of one_file) (bytes_of "hello") (bytes_of "ID3FAKEMP3")
           1000000 2000000 0 late_text); reflexivity.
Defined.


Lemma dropped_body_error_example :
  let env := stalling_endpoint (bytes_of "Internal Server Error") 8 in
  let w := world_of one_file in
  let resp := {| StatusCode := 500;
                 Body := (bytes_of "Internal", Some (err_reading_body late_text)) |} in
  let r := run env (processSingleFile Linux "a.txt" (the_config 1)) w in
  let e := Errorf (status_message (StatusCode resp) (fst (Body resp))) in
  fst r = ("", Some e) /\
  Unwrap e = None /\ IsTimeout e = false /\
  files (snd r) = files w /\
  (forall headers_at status body body_at received late,
     exchange_at env (the_config 1) (S (now w)) (bytes_of "hello")
       = Reply headers_at status body body_at received late ->
     deadline_passed (Timeout (the_config 1)) body_at = true ->
     fst (Body resp) = take received body) /\
  (forall headers_at status partial timeout msg late,
     exchange_at env (the_config 1) (S (now w)) (bytes_of "hello")
       = Broken headers_at status partial timeout msg late ->
     fst (Body resp) = partial).
Proof.
  apply (non_200_status_drops_the_body_error Linux
           (stalling_endpoint (bytes_of "Internal Server Error") 8) (the_config 1)
           "a.txt" (world_of one_file) (bytes_of "hello")
           {| StatusCode := 500;
              Body := (bytes_of "Internal", Some (err_reading_body late_text)) |}).
  - reflexivity.
  - reflexivity.
  - discriminate.
Defined.


(** ** [getOutputPath]: the directory, the last extension, the fixed points *)

Lemma str_forall_get (f : ascii -> bool) (s : string) (i : nat) (c : ascii) :
  str_forall f s = true -> String.get i s = Some c -> f c = true.
Proof.
  revert i. induction s as [|a s IH]; intros [|i]; simpl; try discriminate.
  - intros H [= <-]. now apply andb_true_iff in H.
  - intros H. apply andb_true_iff in H as [_ H]. now apply IH.
Qed.

Lemma str_length_app (a b : string) :
  String.length (a ++ b) = (String.length a + String.length b)%nat.
Proof. induction a as [|c a IH]; [reflexivity |]. rewrite str_app_cons. simpl. now rewrite IH. Qed.

Lemma str_get_app_r (a b : string) (k : nat) :
  String.get (String.length a + k) (a ++ b) = String.get k b.
Proof. induction a as [|c a IH]; [reflexivity |]. rewrite str_app_cons. exact IH. Qed.

Lemma str_drop_app_r (a b : string) (k : nat) :
  str_drop (String.length a + k) (a ++ b) = str_drop k b.
Proof. induction a as [|c a IH]; [reflexivity |]. rewrite str_app_cons. exact IH. Qed.

Lemma str_app_assoc (a b c : string) : (a ++ b) ++ c = a ++ b ++ c.
Proof. induction a as [|x a IH]; [reflexivity |]. rewrite !str_app_cons. now f_equal. Qed.

Lemma str_app_inv_tail (a b t : string) : a ++ t = b ++ t -> a = b.
Proof.
  revert b. induction a as [|x a IH]; intros [|y b] E.
  - reflexivity.
  - exfalso. apply (f_equal String.length) in E.
    rewrite str_app_cons in E. cbn [String.length] in E. rewrite !str_length_app in E. cbn [String.length] in E. lia.
  - exfalso. apply (f_equal String.length) in E.
    rewrite str_app_cons in E. cbn [String.length] in E. rewrite !str_length_app in E. cbn [String.length] in E. lia.
  - rewrite !str_app_cons in E. injection E as -> E. f_equal. now apply IH.
Qed.

(** The scan of [filepath.Ext] never leaves the last element of the path. *)
Lemma ext_loop_last_element (goos : GOOS) (dir name : string) (sep : ascii) (n : nat) :
  os_IsPathSeparator goos sep = true -> is_name goos name = true ->
  (n <= String.length name)%nat ->
  ext_loop goos (dir ++ String sep name) (String.length dir + S n) = ext_loop goos name n.
Proof.
  intros Hsep Hname. induction n as [|n IH]; intros Hn.
  - rewrite Nat.add_1_r. cbn [ext_loop].
    replace (String.length dir) with (String.length dir + 0)%nat at 1 by lia.
    rewrite str_get_app_r. cbn [String.get]. now rewrite Hsep.
  - replace (String.length dir + S (S n))%nat with (S (String.length dir + S n)) by lia.
    cbn [ext_loop]. rewrite str_get_app_r. cbn [String.get].
    destruct (str_get_some n name) as [c Hc]; [lia |]. rewrite Hc.
    pose proof (str_forall_get _ _ _ _ Hname Hc) as Hnc. apply negb_true_iff in Hnc.
    rewrite Hnc. destruct (Ascii.eqb c "."); [| apply IH; lia].
    rewrite (str_drop_app_r dir (String sep name) (S n)). reflexivity.
Qed.

Lemma filepath_Ext_last_element (goos : GOOS) (dir name : string) (sep : ascii) :
  os_IsPathSeparator goos sep = true -> is_name goos name = true ->
  filepath_Ext goos (dir ++ String sep name) = filepath_Ext goos name.
Proof.
  intros Hsep Hname. unfold filepath_Ext. rewrite str_length_app. cbn [String.length].
  now apply ext_loop_last_element.
Qed.

(** A dot followed by plain letters at the end of a path is its extension. *)
Lemma ext_loop_plain (goos : GOOS) (stem e : string) (n : nat) :
  is_plain goos e = true -> (n <= String.length e)%nat ->
  ext_loop goos (stem ++ String "." e) (String.length stem + S n) = String "." e.
Proof.
  intros He. induction n as [|n IH]; intros Hn.
  - rewrite Nat.add_1_r. cbn [ext_loop].
    replace (String.length stem) with (String.length stem + 0)%nat at 1 by lia.
    rewrite str_get_app_r. cbn [String.get]. rewrite dot_is_no_separator.
    cbn [Ascii.eqb Bool.eqb andb].
    replace (String.length stem) with (String.length stem + 0)%nat by lia.
    now rewrite str_drop_app_r.
  - replace (String.length stem + S (S n))%nat with (S (String.length stem + S n)) by lia.
    cbn [ext_loop]. rewrite str_get_app_r. cbn [String.get].
    destruct (str_get_some n e) as [c Hc]; [lia |]. rewrite Hc.
    pose proof (str_forall_get _ _ _ _ He Hc) as Hnc.
    apply andb_true_iff in Hnc as [Hdot Hs]. apply negb_true_iff in Hdot, Hs.
    rewrite Hs, Hdot. apply IH. lia.
Qed.

Lemma filepath_Ext_plain (goos : GOOS) (stem e : string) :
  is_plain goos e = true -> filepath_Ext goos (stem ++ String "." e) = String "." e.
Proof.
  intros He. unfold filepath_Ext. rewrite str_length_app. cbn [String.length].
  now apply ext_loop_plain.
Qed.

Lemma str_take_app (a b : string) : str_take (String.length a) (a ++ b) = a.
Proof. induction a as [|c a IH]; [reflexivity |]. rewrite str_app_cons. simpl. now f_equal. Qed.

Lemma str_drop_app (a b : string) : str_drop (String.length a) (a ++ b) = b.
Proof. induction a as [|c a IH]; [reflexivity |]. rewrite str_app_cons. exact IH. Qed.

Lemma TrimSuffix_app (stem ext : string) : strings_TrimSuffix (stem ++ ext) ext = stem.
Proof.
  pose proof (TrimSuffix_drop (String.length stem) (stem ++ ext)) as H.
  rewrite str_drop_app, str_take_app in H. apply H.
  rewrite str_length_app. lia.
Qed.

(** X6. Only the last extension counts: a path that ends in a dot followed
    by letters (no dot, no separator among them) goes to the path before that
    dot plus ".mp3", whatever the letters are.  So sources that differ in
    their last extension only have one destination; the destination has the
    extension ".mp3" and is its own destination. *)
Theorem getOutputPath_depends_on_stem_only (goos : GOOS) (stem e : string) :
  is_plain goos e = true ->
  getOutputPath goos (stem ++ "." ++ e) = stem ++ ".mp3" /\
  filepath_Ext goos (getOutputPath goos (stem ++ "." ++ e)) = ".mp3" /\
  getOutputPath goos (getOutputPath goos (stem ++ "." ++ e))
  = getOutputPath goos (stem ++ "." ++ e).
Proof.
  intros He.
  assert (Hout : forall e', is_plain goos e' = true ->
            getOutputPath goos (stem ++ "." ++ e') = stem ++ ".mp3").
  { intros e' He'. unfold getOutputPath. change ("." ++ e') with (String "." e').
    rewrite (filepath_Ext_plain goos stem e' He'). now rewrite TrimSuffix_app. }
  assert (Hmp3 : is_plain goos "mp3" = true) by (destruct goos; reflexivity).
  rewrite (Hout e He). split; [reflexivity |]. split.
  - change (stem ++ ".mp3") with (stem ++ String "." "mp3").
    now apply filepath_Ext_plain.
  - apply (Hout "mp3" Hmp3).
Qed.

(** X7. The audio is put next to its source: the directory part of the path
    (everything up to the last separator) is kept, and the file name is
    renamed as it would be on its own. *)
Theorem getOutputPath_keeps_the_directory
    (goos : GOOS) (dir name : string) (sep : ascii) :
  os_IsPathSeparator goos sep = true -> is_name goos name = true ->
  getOutputPath goos (dir ++ String sep name)
  = dir ++ String sep (getOutputPath goos name).
Proof.
  intros Hsep Hname.
  destruct (getOutputPath_stem goos name) as (stem & Hn & Ho).
  destruct (getOutputPath_stem goos (dir ++ String sep name)) as (stem' & Hp & Ho').
  rewrite Ho, Ho'.
  rewrite (filepath_Ext_last_element goos dir name sep Hsep Hname) in Hp.
  rewrite Hn in Hp at 1.
  change (String sep (stem ++ filepath_Ext goos name))
    with (String sep stem ++ filepath_Ext goos name) in Hp.
  rewrite <- str_app_assoc in Hp. apply str_app_inv_tail in Hp. rewrite <- Hp.
  rewrite str_app_assoc. reflexivity.
Qed.

Lemma getOutputPath_stem_example :
  getOutputPath Linux ("books/ch1" ++ "." ++ "TXT") = "books/ch1" ++ ".mp3" /\
  filepath_Ext Linux (getOutputPath Linux ("books/ch1" ++ "." ++ "TXT")) = ".mp3" /\
  getOutputPath Linux (getOutputPath Linux ("books/ch1" ++ "." ++ "TXT"))
  = getOutputPath Linux ("books/ch1" ++ "." ++ "TXT").
Proof.
  apply (getOutputPath_depends_on_stem_only Linux "books/ch1" "TXT"). reflexivity.
Defined.

Lemma getOutputPath_directory_example :
  getOutputPath Windows ("C:\books.v2" ++ String "\" "chapter1.txt")
  = "C:\books.v2" ++ String "\" (getOutputPath Windows "chapter1.txt").
Proof.
  apply (getOutputPath_keeps_the_directory Windows "C:\books.v2" "chapter1.txt" "\");
    reflexivity.
Defined.

(** ** [printSummary]: what the counters count *)

Lemma count_results_spec (results : list ProcessResult) (successful failed : Z) :
  count_results results successful failed =
  (successful + Z.of_nat (length (List.filter succeeded results)),
   failed + Z.of_nat (length (List.filter (fun r => negb (succeeded r)) results))).
Proof.
  revert successful failed. induction results as [|r rs IH]; intros s f.
  - cbn. f_equal; lia.
  - assert (Hr : succeeded r = match Error r with None => true | Some _ => false end)
      by reflexivity.
    cbn [count_results List.filter]. rewrite Hr.
    destruct (Error r); rewrite IH; cbn [negb length]; f_equal; lia.
Qed.

Lemma filter_length_partition {A : Type} (f : A -> bool) (l : list A) :
  (length (List.filter f l) + length (List.filter (fun x => negb (f x)) l) = length l)%nat.
Proof.
  induction l as [|x l IH]; [reflexivity |].
  cbn [List.filter]. destruct (f x); cbn [negb length]; lia.
Qed.

Lemma filter_length_Permutation {A : Type} (f : A -> bool) (l l' : list A) :
  l ≡ₚ l' -> length (List.filter f l) = length (List.filter f l').
Proof.
  induction 1 as [|x l l' _ IH|x y l|l l' l'' _ IH1 _ IH2].
  - reflexivity.
  - cbn [List.filter]. destruct (f x); cbn [length]; now rewrite IH.
  - cbn [List.filter]. destruct (f x), (f y); reflexivity.
  - now rewrite IH1.
Qed.

Lemma filter_length_map {A B : Type} (g : A -> B) (f : B -> bool) (l : list A) :
  length (List.filter f (map g l)) = length (List.filter (fun x => f (g x)) l).
Proof.
  induction l as [|x l IH]; [reflexivity |].
  cbn [map List.filter]. destruct (f (g x)); cbn [length]; now rewrite IH.
Qed.

(** X8. [printSummary] counts the results with a nil error as successful
    and all the others as failed; the two counters add up to the number of
    results, and they do not depend on the order in which the results
    arrived. *)
Theorem printSummary_counts (results : list ProcessResult) :
  printSummary results =
    (Z.of_nat (length (List.filter succeeded results)),
     Z.of_nat (length (List.filter (fun r => negb (succeeded r)) results))) /\
  fst (printSummary results) + snd (printSummary results) = Z.of_nat (length results) /\
  (forall results', results ≡ₚ results' -> printSummary results' = printSummary results).
Proof.
  assert (H : forall rs, printSummary rs =
            (Z.of_nat (length (List.filter succeeded rs)),
             Z.of_nat (length (List.filter (fun r => negb (succeeded r)) rs)))).
  { intros rs. unfold printSummary. now rewrite count_results_spec. }
  split; [apply H |]. split.
  - rewrite H. cbn [fst snd].
    pose proof (filter_length_partition succeeded results). lia.
  - intros results' Hp. rewrite !H.
    now rewrite (filter_length_Permutation _ _ _ Hp),
      (filter_length_Permutation (fun r => negb (succeeded r)) _ _ Hp).
Qed.

(** ** The pool: what it never does *)

Section PoolSafety.

Context (goos : GOOS) (env : Env) (config : AppConfig) (input : list string).

Abbreviation run_step := (step goos env config input).

Lemma numWorkers_min : numWorkers config input = Z.min (Workers config) (Z.of_nat (length input)).
Proof. unfold numWorkers. destruct (Z.ltb_spec (Z.of_nat (length input)) (Workers config)); lia. Qed.

Lemma inflight_length_le (ws : list Worker) : (length (inflight ws) <= length ws)%nat.
Proof.
  induction ws as [|wk ws IH]; [reflexivity |].
  change (inflight (wk :: ws)) with (job_of wk ++ inflight ws)%list.
  rewrite length_app. destruct wk; cbn [job_of length]; lia.
Qed.

(** X10. In no state that [processFiles] can reach does a goroutine panic,
    and no send ever waits: a job is sent on the open job channel, which has
    room for it; [close(jobs)] and [close(results)] find their channel open;
    a worker that holds a result finds the results channel open and with
    room; [wg.Done()] finds a positive counter.  So the main goroutine can
    always move while it starts workers and sends jobs, and a worker inside
    the loop body can always move. *)
Theorem processFiles_never_panics (w : World) (s : Pool) :
  rtc run_step (pool_init input w) s ->
  (forall rest, main s = MSend rest ->
     closed (jobs s) = false /\
     (rest <> [] -> (length (buf (jobs s)) < cap (jobs s))%nat)) /\
  (waiter s = Waiting -> wg s = 0%nat -> closed (results s) = false) /\
  (forall i filePath result, workers s !! i = Some (WBody filePath (Ret result)) ->
     closed (results s) = false /\
     (length (buf (results s)) < cap (results s))%nat) /\
  (forall i, workers s !! i = Some WRange -> (0 < wg s)%nat) /\
  (forall i filePath p, workers s !! i = Some (WBody filePath p) ->
     is_Some (step_of goos env config input (TWorker i) s)) /\
  ((forall i, main s <> MSpawn i) -> main s <> MCollect -> main s <> MReturn ->
   is_Some (step_of goos env config input TMain s)).
Proof.
  intros Hs. pose proof (pool_inv_reachable goos env config input w s Hs) as Hinv.
  destruct (pool_never_panics config input s Hinv) as (Hsend & Hwait & Hres & Hdone).
  split; [exact Hsend |]. split; [exact Hwait |]. split; [exact Hres |].
  split; [exact Hdone |]. split.
  - intros i filePath p Hi. cbn [step_of]. unfold step_worker. rewrite Hi.
    destruct (perform_Ret_or_some env p (world s)) as [[r ->]|(p' & w' & Hp)].
    + destruct (Hres i filePath r Hi) as [Hc Hroom]. rewrite Hc.
      destruct (Nat.ltb_spec (length (buf (results s))) (cap (results s))); [eauto | lia].
    + destruct p; try discriminate; rewrite Hp; eauto.
  - intros Hspawn Hcollect Hreturn. cbn [step_of]. unfold step_main.
    destruct (main s) as [k|[|file rest]| |] eqn:Hm.
    + now destruct (Hspawn k).
    + eauto.
    + destruct (Hsend (file :: rest) eq_refl) as [_ Hroom].
      destruct (Nat.ltb_spec (length (buf (jobs s))) (cap (jobs s)));
        [eauto | specialize (Hroom ltac:(discriminate)); lia].
    + now destruct Hcollect.
    + now destruct Hreturn.
Qed.

(** X11. The pool never runs more workers than [min(config.Workers,
    len(files))], so never more jobs (and requests) at a time than that. *)
Theorem at_most_numWorkers_jobs_at_a_time (w : World) (s : Pool) :
  rtc run_step (pool_init input w) s ->
  Z.of_nat (length (workers s))
    <= Z.max 0 (Z.min (Workers config) (Z.of_nat (length input))) /\
  (length (inflight (workers s)) <= length (workers s))%nat /\
  (forall i filePath p, workers s !! i = Some (WBody filePath p) -> filePath ∈ input).
Proof.
  intros Hs. pose proof (pool_inv_reachable goos env config input w s Hs) as Hinv.
  destruct Hinv as [Hjobs _ _ _ _ Hphase _ _]. unfold phase_ok in Hphase.
  rewrite <- numWorkers_min. split; [| split].
  - destruct (main s); intuition lia.
  - apply inflight_length_le.
  - intros i filePath p Hi. rewrite Hjobs. rewrite !elem_of_app.
    right. right. left. eapply elem_of_inflight; eauto.
Qed.

(** X12. Without a worker nothing is processed and nothing is reported:
    when [config.Workers] is not positive (or there is no file),
    [processFiles] still returns, with an empty result list and without
    having touched the world; the files it was given are silently
    skipped. *)
Theorem no_worker_no_result (w : World) :
  numWorkers config input <= 0 ->
  (exists s, rtc run_step (pool_init input w) s /\ main s = MReturn) /\
  (forall s, rtc run_step (pool_init input w) s ->
     workers s = [] /\ buf (results s) = [] /\ allResults s = [] /\ world s = w).
Proof.
  intros Hn. split.
  - apply (returns_eventually goos env config input _ (step_bound config input));
      [apply pool_inv_init | apply potential_init].
  - apply rtc_ind_r; [now pool_simpl |].
    intros s s' Hs [t H] (Hws & Hres & Hall & Hw).
    pose proof (pool_inv_reachable goos env config input w s Hs) as Hinv.
    destruct Hinv as [_ _ _ _ _ Hphase _ _]. unfold phase_ok in Hphase.
    step_inv H; pool_simpl; rewrite ?Hws in *; try (rewrite lookup_nil in Hworker);
      try discriminate; try congruence; auto.
    destruct Hphase as (Hk & _). cbn [length] in Hk. lia.
Qed.

End PoolSafety.

Lemma processFiles_never_panics_example :
  let config := the_config 2 in
  let input := ["a.txt"; "b.txt"] in
  let s := pool_after Linux echo_endpoint config input schedule_midway
                      (world_of two_files) in
  (forall rest, main s = MSend rest ->
     closed (jobs s) = false /\
     (rest <> [] -> (length (buf (jobs s)) < cap (jobs s))%nat)) /\
  (waiter s = Waiting -> wg s = 0%nat -> closed (results s) = false) /\
  (forall i filePath result, workers s !! i = Some (WBody filePath (Ret result)) ->
     closed (results s) = false /\
     (length (buf (results s)) < cap (results s))%nat) /\
  (forall i, workers s !! i = Some WRange -> (0 < wg s)%nat) /\
  (forall i filePath p, workers s !! i = Some (WBody filePath p) ->
     is_Some (step_of Linux echo_endpoint config input (TWorker i) s)) /\
  ((forall i, main s <> MSpawn i) -> main s <> MCollect -> main s <> MReturn ->
   is_Some (step_of Linux echo_endpoint config input TMain s)).
Proof.
  apply (processFiles_never_panics Linux echo_endpoint (the_config 2) ["a.txt"; "b.txt"]
           (world_of two_files)).
  apply pool_after_reachable.
Defined.

Lemma at_most_numWorkers_example :
  let config := the_config 2 in
  let input := ["a.txt"; "b.txt"] in
  let s := pool_after Linux echo_endpoint config input schedule_midway
                      (world_of two_files) in
  Z.of_nat (length (workers s))
    <= Z.max 0 (Z.min (Workers config) (Z.of_nat (length input))) /\
  (length (inflight (workers s)) <= length (workers s))%nat /\
  (forall i filePath p, workers s !! i = Some (WBody filePath p) -> filePath ∈ input).
Proof.
  apply (at_most_numWorkers_jobs_at_a_time Linux echo_endpoint (the_config 2)
           ["a.txt"; "b.txt"] (world_of two_files)).
  apply pool_after_reachable.
Defined.

Lemma no_worker_example :
  let config := the_config 0 in
  let input := ["a.txt"] in
  let w := world_of one_file in
  (exists s, rtc (step Linux echo_endpoint config input) (pool_init input w) s /\
             main s = MReturn) /\
  (forall s, rtc (step Linux echo_endpoint config input) (pool_init input w) s ->
     workers s = [] /\ buf (results s) = [] /\ allResults s = [] /\ world s = w).
Proof.
  apply (no_worker_no_result Linux echo_endpoint (the_config 0) ["a.txt"]
           (world_of one_file)).
  unfold numWorkers. simpl. lia.
Defined.

(** ** The pool and the single job *)

(** X13. No job influences another: for a deterministic endpoint and jobs
    that keep apart, whatever the number of workers and the schedule, the
    results [processFiles] returns are, job by job, what [processSingleFile]
    returns when the job is run alone on the initial files; every destination
    ends up as that job alone leaves it, and no other file has changed. *)
Theorem each_job_runs_as_if_alone
    (goos : GOOS) (env : Env) (config : AppConfig) (input : list string)
    (w : World) (rs : list ProcessResult) (w' : World) :
  valid_config config -> deterministic_endpoint env -> jobs_apart goos input ->
  processFiles_returns goos env config input w rs w' ->
  map outcome rs ≡ₚ
    map (fun f =>
           let res := fst (run env (processSingleFile goos f config) (world_of (files w))) in
           (f, fst res, snd res))
        input /\
  (forall f, f ∈ input ->
     files w' !! getOutputPath goos f =
     files (snd (run env (processSingleFile goos f config) (world_of (files w))))
       !! getOutputPath goos f) /\
  (forall path, (forall f, f ∈ input -> getOutputPath goos f <> path) ->
     files w' !! path = files w !! path).
Proof.
  intros (Hworkers & _ & _) Hdet Hapart (s & Hs & Hm & <- & <-).
  destruct (returned_canonical goos env config input (files w) Hdet Hapart w s
              eq_refl Hworkers Hs Hm) as (Hperm & Hdest & Hframe).
  split; [| split; [exact Hdest | exact Hframe]].
  rewrite Hperm. reflexivity.
Qed.

Lemma each_job_alone_example :
  let config := the_config 2 in
  let input := ["a.txt"; "b.txt"] in
  let w := world_of two_files in
  let s := pool_after Linux echo_endpoint config input schedule_two_workers w in
  map outcome (allResults s) ≡ₚ
    map (fun f =>
           let res := fst (run echo_endpoint (processSingleFile Linux f config)
                               (world_of (files w))) in
           (f, fst res, snd res))
        input /\
  (forall f, f ∈ input ->
     files (world s) !! getOutputPath Linux f =
     files (snd (run echo_endpoint (processSingleFile Linux f config) (world_of (files w))))
       !! getOutputPath Linux f) /\
  (forall path, (forall f, f ∈ input -> getOutputPath Linux f <> path) ->
     files (world s) !! path = files w !! path).
Proof.
  apply (each_job_runs_as_if_alone Linux echo_endpoint (the_config 2) ["a.txt"; "b.txt"]
           (world_of two_files)).
  - unfold valid_config. simpl. split; [lia | split; [discriminate | lia]].
  - intros t t' url ct body. reflexivity.
  - exact jobs_apart_example.
  - apply pool_after_returns. vm_compute. reflexivity.
Defined.

Section OneWorker.

Context (goos : GOOS) (env : Env) (config : AppConfig) (input : list string).

Hypothesis Hone : numWorkers config input <= 1.

Lemma only_worker (s : Pool) (i : nat) (wk : Worker) :
  pool_inv config input s -> workers s !! i = Some wk ->
  workers s = [wk] /\ i = 0%nat.
Proof.
  intros [_ _ _ _ _ Hphase _ _] Hi. unfold phase_ok in Hphase.
  assert (Hlen : (length (workers s) <= 1)%nat) by (destruct (main s); intuition lia).
  destruct (workers s) as [|x [|y ws]]; [discriminate | | simpl in Hlen; lia].
  destruct i as [|i]; [| discriminate]. injection Hi as ->. auto.
Qed.

Lemma in_order_step (s s' : Pool) :
  pool_inv config input s -> step goos env config input s s' ->
  in_order input s' = in_order input s.
Proof.
  intros Hinv [t H]. unfold in_order. pose proof Hinv as Hinv'.
  destruct Hinv as [_ Hbody _ _ _ _ _ _].
  step_inv H; pool_simpl; rewrite ?Hmain, ?Hbuf; cbn [unsent tail]; try reflexivity.
  - rewrite inflight_app. cbn. now rewrite app_nil_r.
  - now rewrite <- !app_assoc.
  - rewrite <- !app_assoc. reflexivity.
  - destruct (only_worker s i _ Hinv' Hworker) as [-> ->]. reflexivity.
  - destruct (only_worker s i _ Hinv' Hworker) as [-> ->]. reflexivity.
  - destruct (only_worker s i _ Hinv' Hworker) as [Hws ->].
    specialize (Hbody _ _ _ Hworker). cbn [always] in Hbody.
    rewrite Hws. cbn. rewrite !map_app. cbn. rewrite Hbody.
    now rewrite <- !app_assoc.
  - destruct (only_worker s i _ Hinv' Hworker) as [-> ->]. reflexivity.
Qed.

Lemma in_order_reachable (w : World) (s : Pool) :
  rtc (step goos env config input) (pool_init input w) s -> in_order input s = input.
Proof.
  revert s. apply rtc_ind_r; [reflexivity |].
  intros s s' Hs Hstep IH.
  rewrite (in_order_step s s' (pool_inv_reachable goos env config input w s Hs) Hstep).
  exact IH.
Qed.

(** X14. One worker keeps the order: when the pool runs a single worker
    ([config.Workers] is 1, or there is one file), the results come back in
    the order of the input files. *)
Theorem one_worker_keeps_the_order
    (w : World) (rs : list ProcessResult) (w' : World) :
  1 <= Workers config ->
  processFiles_returns goos env config input w rs w' ->
  map FilePath rs = input.
Proof.
  intros Hworkers (s & Hs & Hm & <- & _).
  pose proof (in_order_reachable w s Hs) as Hord.
  pose proof (pool_inv_reachable goos env config input w s Hs) as Hinv.
  destruct (returned_complete config input s Hworkers Hinv Hm)
    as (_ & _ & Hdone & Hrb & _ & Hjb).
  unfold in_order in Hord. rewrite Hrb, Hjb, Hm in Hord. cbn [unsent] in Hord.
  assert (Hin : inflight (workers s) = []).
  { clear - Hdone. induction Hdone as [|wk ws <- _ IH]; [reflexivity | exact IH]. }
  rewrite Hin in Hord. now rewrite !app_nil_r in Hord.
Qed.

End OneWorker.

Lemma one_worker_example :
  let config := the_config 1 in
  let input := ["a.txt"; "b.txt"] in
  let w := world_of two_files in
  map FilePath (allResults (pool_after Linux echo_endpoint config input
                              schedule_one_worker w))
  = input.
Proof.
  apply (one_worker_keeps_the_order Linux echo_endpoint (the_config 1) ["a.txt"; "b.txt"]
           ltac:(unfold numWorkers; simpl; lia) (world_of two_files) _
           (world (pool_after Linux echo_endpoint (the_config 1) ["a.txt"; "b.txt"]
                     schedule_one_worker (world_of two_files)))).
  - simpl. lia.
  - apply pool_after_returns. vm_compute. reflexivity.
Defined.

(** ** The footprint of the pool *)

Lemma job_footprint_bind {A B : Type} (config : AppConfig) (src dst : string)
    (p : Prog A) (f : A -> Prog B) :
  job_footprint config src dst p -> (forall a, job_footprint config src dst (f a)) ->
  job_footprint config src dst (bind p f).
Proof.
  intros Hp Hf. induction p as [a|k IH|name k IH|t u c b k IH|name d pm k IH];
    cbn [bind job_footprint] in *; auto.
  - destruct Hp as [Hn Hk]. auto.
  - destruct Hp as [Hn Hk]. auto.
  - destruct Hp as [Hn Hk]. auto.
Qed.

Lemma worker_body_footprint (goos : GOOS) (config : AppConfig) (filePath : string) :
  job_footprint config filePath (getOutputPath goos filePath)
    (worker_body goos filePath config).
Proof.
  unfold worker_body, timeNow. cbn [bind job_footprint]. intros t.
  apply job_footprint_bind; [| intros r; unfold finish, timeNow; cbn; auto].
  unfold processSingleFile, readFile, post, writeFile. cbn [bind job_footprint].
  split; [reflexivity |]. intros [content|e]; [| exact I].
  cbn [json_Marshal bind job_footprint]. split; [auto |]. intros [resp|e]; [| exact I].
  destruct (negb _); [destruct (io_ReadAll _); exact I |].
  destruct (io_ReadAll _) as [mp3 [e|]]; [exact I |]. cbn [bind job_footprint].
  split; [reflexivity |]. intros [e|]; exact I.
Qed.

Lemma perform_footprint {A : Type} (env : Env) (config : AppConfig) (src dst : string)
    (p p' : Prog A) (w w' : World) :
  perform env p w = Some (p', w') -> job_footprint config src dst p ->
  job_footprint config src dst p' /\
  (exists new, log w' = (log w ++ new)%list /\ Forall (own_event config src dst) new) /\
  (forall path, path <> dst -> files w' !! path = files w !! path) /\
  (forall path, is_Some (files w !! path) -> is_Some (files w' !! path)).
Proof.
  destruct p as [a|k|name k|t u c b k|name d pm k]; cbn [perform job_footprint];
    try discriminate.
  - intros [= <- <-] Hk. split; [apply Hk |]. split; [| split; auto].
    exists []. cbn [log tick]. split; [reflexivity | constructor].
  - intros [= <- <-] [-> Hk]. split; [apply Hk |]. split; [| split; auto].
    exists [EvRead src]. split; [reflexivity |]. repeat constructor.
  - intros [= <- <-] [(_ & -> & ->) Hk]. split; [apply Hk |]. split; [| split; auto].
    eexists. split; [reflexivity |]. repeat constructor.
  - unfold os_WriteFile. intros H [-> Hk].
    destruct (write_fault env dst) as [|msg|n msg]; injection H as <- <-;
      (split; [apply Hk |]); cbn [log tick set_file files].
    + split; [eexists; split; [reflexivity | repeat constructor] |].
      split; [intros path Hne; now rewrite lookup_insert_ne |].
      intros path Hp. destruct (decide (dst = path)) as [->|Hne];
        [rewrite lookup_insert_eq; eauto | now rewrite lookup_insert_ne].
    + split; [eexists; split; [reflexivity | repeat constructor] |]. auto.
    + split; [eexists; split; [reflexivity | repeat constructor] |].
      split; [intros path Hne; now rewrite lookup_insert_ne |].
      intros path Hp. destruct (decide (dst = path)) as [->|Hne];
        [rewrite lookup_insert_eq; eauto | now rewrite lookup_insert_ne].
Qed.

Section PoolFootprint.

Context (goos : GOOS) (env : Env) (config : AppConfig) (input : list string)
        (w0 : World).

Lemma worker_job_in_input (s : Pool) (i : nat) (filePath : string)
    (p : Prog ProcessResult) :
  pool_inv config input s -> workers s !! i = Some (WBody filePath p) ->
  filePath ∈ input.
Proof.
  intros [Hjobs _ _ _ _ _ _ _] Hi. rewrite Hjobs, !elem_of_app.
  right. right. left. eapply elem_of_inflight; eauto.
Qed.

Lemma footprint_inv_init : footprint_inv goos config input w0 (pool_init input w0).
Proof.
  split; [exists []; pool_simpl; rewrite app_nil_r; split; [reflexivity | constructor] |].
  pool_simpl. split; [auto |]. split; [auto |].
  intros i f p. rewrite lookup_nil. discriminate.
Qed.

Lemma footprint_inv_step (s s' : Pool) :
  pool_inv config input s -> footprint_inv goos config input w0 s ->
  step goos env config input s s' -> footprint_inv goos config input w0 s'.
Proof.
  intros Hinv ((evs & Hlog & Hevs) & Hframe & Hkeep & Hbusy) [t H].
  pose proof Hinv as Hinv'.
  step_inv H.
  1-10: (split; [exists evs; pool_simpl; auto |]; pool_simpl;
         split; [exact Hframe |]; split; [exact Hkeep |]).
  - intros j f q Hj. apply lookup_app_Some in Hj as [Hj|[_ Hj]]; [eauto |].
    destruct (j - length (workers s))%nat as [|[|?]]; discriminate.
  - exact Hbusy.
  - exact Hbusy.
  - exact Hbusy.
  - exact Hbusy.
  - exact Hbusy.
  - exact Hbusy.
  - intros j f q Hj. apply list_lookup_insert_Some in Hj as [(_ & Hj & _)|[_ Hj]];
      [discriminate | eauto].
  - intros j f q Hj. apply list_lookup_insert_Some in Hj as [(_ & Hj & _)|[_ Hj]];
      [| eauto].
    injection Hj as <- <-. apply worker_body_footprint.
  - intros j f q Hj. apply list_lookup_insert_Some in Hj as [(_ & Hj & _)|[_ Hj]];
      [discriminate | eauto].
  - pose proof (worker_job_in_input s i filePath p Hinv' Hworker) as Hin.
    destruct (perform_footprint env config filePath (getOutputPath goos filePath)
                p p' (world s) w' Hperf (Hbusy _ _ _ Hworker))
      as (Hp' & (new & Hlog' & Hnew) & Hfr & Hk).
    unfold footprint_inv. pool_simpl. split; [| split; [| split]].
    + exists (evs ++ new)%list. split; [rewrite Hlog', Hlog; now rewrite app_assoc |].
      apply Forall_app. split; [exact Hevs |].
      eapply Forall_impl; [exact Hnew |]. intros ev Hev. exists filePath. auto.
    + intros path Hpath. rewrite Hfr; [auto |]. intros ->. now apply (Hpath filePath).
    + intros path Hp. auto.
    + intros j f q Hj. apply list_lookup_insert_Some in Hj as [(_ & Hj & _)|[_ Hj]];
        [| eauto].
      injection Hj as <- <-. exact Hp'.
Qed.

Lemma footprint_inv_reachable (s : Pool) :
  rtc (step goos env config input) (pool_init input w0) s ->
  footprint_inv goos config input w0 s.
Proof.
  revert s. apply rtc_ind_r; [apply footprint_inv_init |].
  intros s s' Hs Hstep IH. eapply footprint_inv_step; eauto.
  eapply pool_inv_reachable; eauto.
Qed.

(** X15. The footprint of [processFiles]: in every state it can reach,
    whatever the endpoint answers and whatever fails, every [os.ReadFile] it
    has called was on an input file, every [client.Post] was called with the
    URL <server_url>/synthesize and the content type application/json, and
    every [os.WriteFile] was on the destination of an input file.  A file
    that is not the destination of an input file is as it was, and no file
    has been removed.  Where the HTTP library goes from that URL when the
    server redirects it is not part of the statement. *)
Theorem processFiles_touches_only_its_jobs (s : Pool) :
  rtc (step goos env config input) (pool_init input w0) s ->
  Forall (fun ev =>
            match ev with
            | EvRead name => name ∈ input
            | EvPost url contentType _ =>
              url = ServerURL config ++ "/synthesize" /\ contentType = "application/json"
            | EvWrite name _ _ => exists f, f ∈ input /\ name = getOutputPath goos f
            end)
         (events_since w0 (world s)) /\
  (forall path, (forall f, f ∈ input -> getOutputPath goos f <> path) ->
     files (world s) !! path = files w0 !! path) /\
  (forall path, is_Some (files w0 !! path) -> is_Some (files (world s) !! path)).
Proof.
  intros Hs.
  destruct (footprint_inv_reachable s Hs) as ((evs & Hlog & Hevs) & Hframe & Hkeep & _).
  split; [| split; [exact Hframe | exact Hkeep]].
  rewrite (events_since_app w0 (world s) evs Hlog).
  eapply Forall_impl; [exact Hevs |].
  intros [name|url ct body|name data ok] (f & Hf & Hev); cbn [own_event] in Hev.
  - now subst.
  - exact Hev.
  - eauto.
Qed.

End PoolFootprint.

Lemma processFiles_footprint_example :
  let config := the_config 2 in
  let input := ["a.txt"; "b.txt"] in
  let w0 := world_of two_files in
  let s := pool_after Linux echo_endpoint config input schedule_two_workers w0 in
  Forall (fun ev =>
            match ev with
            | EvRead name => name ∈ input
            | EvPost url contentType _ =>
              url = ServerURL config ++ "/synthesize" /\ contentType = "application/json"
            | EvWrite name _ _ => exists f, f ∈ input /\ name = getOutputPath Linux f
            end)
         (events_since w0 (world s)) /\
  (forall path, (forall f, f ∈ input -> getOutputPath Linux f <> path) ->
     files (world s) !! path = files w0 !! path) /\
  (forall path, is_Some (files w0 !! path) -> is_Some (files (world s) !! path)).
Proof.
  apply (processFiles_touches_only_its_jobs Linux echo_endpoint (the_config 2)
           ["a.txt"; "b.txt"] (world_of two_files)).
  apply pool_after_reachable.
Defined.

(** ** One attempt per file *)

Lemma uses_within_le {A : Type} (o : Op) (p : Prog A) :
  forall n m, (n <= m)%nat -> uses_within o n p -> uses_within o m p.
Proof.
  induction p as [a|k IH|name k IH|t u c b k IH|name d pm k IH];
    intros n m Hle; cbn [uses_within]; auto.
  - intros H x. eapply IH; eauto.
  - unfold spend. destruct (is_op o _).
    + destruct n; [contradiction |]. destruct m; [lia |].
      intros H x. eapply IH; [| apply H]. lia.
    + intros H x. eapply IH; eauto.
  - unfold spend. destruct (is_op o _).
    + destruct n; [contradiction |]. destruct m; [lia |].
      intros H x. eapply IH; [| apply H]. lia.
    + intros H x. eapply IH; eauto.
  - unfold spend. destruct (is_op o _).
    + destruct n; [contradiction |]. destruct m; [lia |].
      intros H x. eapply IH; [| apply H]. lia.
    + intros H x. eapply IH; eauto.
Qed.

Lemma uses_within_bind {A B : Type} (o : Op) (p : Prog A) (f : A -> Prog B) :
  forall n, uses_within o n p -> (forall a, uses_within o 0 (f a)) ->
  uses_within o n (bind p f).
Proof.
  induction p as [a|k IH|name k IH|t u c b k IH|name d pm k IH];
    intros n Hp Hf; cbn [bind uses_within] in *.
  - apply uses_within_le with 0%nat; [lia | apply Hf].
  - intros x. apply IH; auto.
  - unfold spend in *. destruct (is_op o _).
    + destruct n; [contradiction |]. intros x. apply IH; auto.
    + intros x. apply IH; auto.
  - unfold spend in *. destruct (is_op o _).
    + destruct n; [contradiction |]. intros x. apply IH; auto.
    + intros x. apply IH; auto.
  - unfold spend in *. destruct (is_op o _).
    + destruct n; [contradiction |]. intros x. apply IH; auto.
    + intros x. apply IH; auto.
Qed.

(** The loop body reads once, posts once and writes once, at most; it reads
    its own file and writes to its own output path only. *)
Lemma worker_body_uses (goos : GOOS) (config : AppConfig) (o : Op)
    (filePath : string) :
  uses_within o (if may_use goos o filePath then 1 else 0)
    (worker_body goos filePath config).
Proof.
  unfold worker_body, timeNow. cbn [bind uses_within]. intros t.
  apply uses_within_bind; [| intros r; unfold finish, timeNow; cbn; auto].
  unfold processSingleFile, readFile, post, writeFile. cbn [bind uses_within].
  destruct o as [| | |x|x]; cbn [is_op may_use spend].
  - intros [content|e]; [| exact I]. cbn [json_Marshal bind uses_within is_op spend].
    intros [resp|e]; [| exact I].
    destruct (negb _); [destruct (io_ReadAll _); exact I |].
    destruct (io_ReadAll _) as [mp3 [e|]]; [exact I |].
    cbn [bind uses_within is_op spend]. intros [e|]; exact I.
  - intros [content|e]; [| exact I]. cbn [json_Marshal bind uses_within is_op spend].
    intros [resp|e]; [| exact I].
    destruct (negb _); [destruct (io_ReadAll _); exact I |].
    destruct (io_ReadAll _) as [mp3 [e|]]; [exact I |].
    cbn [bind uses_within is_op spend]. intros [e|]; exact I.
  - intros [content|e]; [| exact I]. cbn [json_Marshal bind uses_within is_op spend].
    intros [resp|e]; [| exact I].
    destruct (negb _); [destruct (io_ReadAll _); exact I |].
    destruct (io_ReadAll _) as [mp3 [e|]]; [exact I |].
    cbn [bind uses_within is_op spend]. intros [e|]; exact I.
  - destruct (String.eqb filePath x); cbn [spend];
      (intros [content|e]; [| exact I]);
      cbn [json_Marshal bind uses_within is_op spend];
      (intros [resp|e]; [| exact I]);
      (destruct (negb _); [destruct (io_ReadAll _); exact I |]);
      (destruct (io_ReadAll _) as [mp3 [e|]]; [exact I |]);
      cbn [bind uses_within is_op spend]; intros [e|]; exact I.
  - intros [content|e]; [| exact I]. cbn [json_Marshal bind uses_within is_op spend].
    intros [resp|e]; [| exact I].
    destruct (negb _); [destruct (io_ReadAll _); exact I |].
    destruct (io_ReadAll _) as [mp3 [e|]]; [exact I |].
    cbn [bind uses_within is_op spend].
    destruct (String.eqb (getOutputPath goos filePath) x); cbn [spend];
      intros [e|]; exact I.
Qed.

Lemma is_op_write (o : Op) (name : string) (data : bytes) (ok : bool) :
  is_op o (EvWrite name data ok) = is_op o (EvWrite name data true).
Proof. now destruct o. Qed.

Lemma perform_uses {A : Type} (env : Env) (o : Op) (n : nat) (p p' : Prog A)
    (w w' : World) :
  perform env p w = Some (p', w') -> uses_within o n p ->
  exists new m, log w' = (log w ++ new)%list /\ uses_within o m p' /\
    (length (List.filter (is_op o) new) + m <= n)%nat.
Proof.
  destruct p as [a|k|name k|t u c b k|name d pm k]; cbn [perform uses_within];
    try discriminate.
  - intros [= <- <-] H. exists [], n. cbn [log tick]. rewrite app_nil_r.
    split; [reflexivity |]. split; [apply H | cbn; lia].
  - intros [= <- <-] H. unfold spend in H. exists [EvRead name]. cbn [List.filter].
    destruct (is_op o (EvRead name)).
    + destruct n as [|m]; [contradiction |]. exists m.
      split; [reflexivity |]. split; [apply H | cbn; lia].
    + exists n. split; [reflexivity |]. split; [apply H | cbn; lia].
  - intros [= <- <-] H. unfold spend in H. exists [EvPost u c b]. cbn [List.filter].
    destruct (is_op o (EvPost u c b)).
    + destruct n as [|m]; [contradiction |]. exists m.
      split; [reflexivity |]. split; [apply H | cbn; lia].
    + exists n. split; [reflexivity |]. split; [apply H | cbn; lia].
  - unfold os_WriteFile. intros Hp H. unfold spend in H.
    destruct (write_fault env name) as [|msg|wn msg]; injection Hp as <- <-;
      [ exists [EvWrite name d true]
      | exists [EvWrite name d false]
      | exists [EvWrite name d false] ];
      cbn [List.filter log tick set_file]; rewrite ?is_op_write;
      (destruct (is_op o (EvWrite name d true));
       [ destruct n as [|m]; [contradiction |]; exists m;
         split; [reflexivity |]; split; [apply H | cbn; lia]
       | exists n; split; [reflexivity |]; split; [apply H | cbn; lia] ]).
Qed.

Section PoolUsage.

Context (goos : GOOS) (env : Env) (config : AppConfig) (input : list string)
        (w0 : World) (o : Op).

Lemma usage_inv_init : usage_inv goos o input w0 (pool_init input w0).
Proof.
  exists [], []. pool_simpl. rewrite app_nil_r. split; [reflexivity |].
  split; [constructor |]. cbn. lia.
Qed.

Lemma usage_inv_step (s s' : Pool) :
  usage_inv goos o input w0 s -> step goos env config input s s' ->
  usage_inv goos o input w0 s'.
Proof.
  intros (evs & cs & Hlog & Hcs & Hsum) [t H]. unfold usage_inv.
  step_inv H; pool_simpl; rewrite ?Hmain, ?Hbuf in *;
    cbn [unsent tail length List.filter] in *.
  - exists evs, (cs ++ [0%nat])%list. split; [exact Hlog |].
    split; [apply Forall2_app; [exact Hcs | repeat constructor] |].
    rewrite sum_list_append. cbn. lia.
  - exists evs, cs. auto.
  - exists evs, cs. split; [exact Hlog |]. split; [exact Hcs |]. cbn. lia.
  - exists evs, cs. split; [exact Hlog |]. split; [exact Hcs |].
    rewrite List.filter_app, length_app. cbn [List.filter].
    destruct (may_use goos o _); cbn [length] in *; lia.
  - exists evs, cs. auto.
  - exists evs, cs. auto.
  - exists evs, cs. auto.
  - destruct (Forall2_lookup_l _ _ _ _ _ Hcs Hworker) as (c & Hc & Hb). cbn in Hb.
    exists evs, (<[i := 0%nat]> cs). split; [exact Hlog |].
    split; [apply Forall2_insert; [exact Hcs | reflexivity] |].
    pose proof (sum_list_insert cs i c 0 Hc). lia.
  - destruct (Forall2_lookup_l _ _ _ _ _ Hcs Hworker) as (c & Hc & Hb). cbn in Hb.
    exists evs, (<[i := if may_use goos o file then 1%nat else 0%nat]> cs).
    split; [exact Hlog |].
    split; [apply Forall2_insert; [exact Hcs | apply worker_body_uses] |].
    pose proof (sum_list_insert cs i c (if may_use goos o file then 1 else 0) Hc).
    destruct (may_use goos o file); cbn [length] in *; lia.
  - destruct (Forall2_lookup_l _ _ _ _ _ Hcs Hworker) as (c & Hc & Hb).
    exists evs, (<[i := 0%nat]> cs). split; [exact Hlog |].
    split; [apply Forall2_insert; [exact Hcs | reflexivity] |].
    pose proof (sum_list_insert cs i c 0 Hc). lia.
  - destruct (Forall2_lookup_l _ _ _ _ _ Hcs Hworker) as (c & Hc & Hb). cbn in Hb.
    destruct (perform_uses env o c p p' (world s) w' Hperf Hb)
      as (new & m & Hlog' & Hm & Hle).
    exists (evs ++ new)%list, (<[i := m]> cs).
    split; [rewrite Hlog', Hlog; now rewrite app_assoc |].
    split; [apply Forall2_insert; [exact Hcs | exact Hm] |].
    pose proof (sum_list_insert cs i c m Hc).
    rewrite List.filter_app, length_app. lia.
Qed.

Lemma usage_inv_reachable (s : Pool) :
  rtc (step goos env config input) (pool_init input w0) s ->
  usage_inv goos o input w0 s.
Proof.
  revert s. apply rtc_ind_r; [apply usage_inv_init |].
  intros s s' _ Hstep IH. eapply usage_inv_step; eauto.
Qed.

End PoolUsage.

Lemma filter_all_length {A : Type} (l : list A) :
  length (List.filter (fun _ => true) l) = length l.
Proof. induction l as [|a l IH]; cbn [List.filter length]; congruence. Qed.

(** X16. One attempt per file: in every state [processFiles] can reach,
    whatever fails, it has called [os.ReadFile] at most [len(files)] times,
    [client.Post] at most [len(files)] times and [os.WriteFile] at most
    [len(files)] times; it has read no file more often than the file occurs
    in [files], and written to no path more often than there are files with
    that output path.  The program retries nothing; the count is of calls,
    not of the requests the HTTP library sends for a call. *)
Theorem processFiles_makes_one_attempt_per_file
    (goos : GOOS) (env : Env) (config : AppConfig) (input : list string)
    (w0 : World) (s : Pool) :
  rtc (step goos env config input) (pool_init input w0) s ->
  let count o := length (List.filter (is_op o) (events_since w0 (world s))) in
  (count OpRead <= length input)%nat /\
  (count OpPost <= length input)%nat /\
  (count OpWrite <= length input)%nat /\
  (forall name,
     (count (OpReadOf name)
      <= length (List.filter (fun f => String.eqb f name) input))%nat) /\
  (forall path,
     (count (OpWriteTo path)
      <= length (List.filter
                   (fun f => String.eqb (getOutputPath goos f) path) input))%nat).
Proof.
  intros Hs.
  assert (H : forall o, (length (List.filter (is_op o) (events_since w0 (world s)))
                         <= length (List.filter (may_use goos o) input))%nat).
  { intros o.
    destruct (usage_inv_reachable goos env config input w0 o s Hs)
      as (evs & cs & Hlog & _ & Hsum).
    rewrite (events_since_app w0 (world s) evs Hlog). lia. }
  cbn zeta. repeat split.
  - rewrite <- (filter_all_length input). exact (H OpRead).
  - rewrite <- (filter_all_length input). exact (H OpPost).
  - rewrite <- (filter_all_length input). exact (H OpWrite).
  - intros name. exact (H (OpReadOf name)).
  - intros path. exact (H (OpWriteTo path)).
Qed.

Lemma one_attempt_per_file_example :
  let config := the_config 2 in
  let input := ["a.txt"; "b.txt"] in
  let w0 := world_of two_files in
  let s := pool_after Linux echo_endpoint config input schedule_two_workers w0 in
  let count o := length (List.filter (is_op o) (events_since w0 (world s))) in
  (count OpRead <= length input)%nat /\
  (count OpPost <= length input)%nat /\
  (count OpWrite <= length input)%nat /\
  (forall name,
     (count (OpReadOf name)
      <= length (List.filter (fun f => String.eqb f name) input))%nat) /\
  (forall path,
     (count (OpWriteTo path)
      <= length (List.filter
                   (fun f => String.eqb (getOutputPath Linux f) path) input))%nat).
Proof.
  apply (processFiles_makes_one_attempt_per_file Linux echo_endpoint (the_config 2)
           ["a.txt"; "b.txt"] (world_of two_files)).
  apply pool_after_reachable.
Defined.

(** ** Paths on Unix *)

Lemma split_slash_nonempty (s : string) : split_slash s <> [].
Proof.
  induction s as [|c s IH]; cbn [split_slash]; [discriminate |].
  destruct (Ascii.eqb c "/"); [discriminate |].
  destruct (split_slash s); [contradiction | discriminate].
Qed.

Lemma split_slash_name (name : string) :
  is_name Linux name = true -> split_slash name = [name].
Proof.
  unfold is_name. induction name as [|c s IH]; cbn [str_forall split_slash os_IsPathSeparator];
    [reflexivity |].
  intros H. apply andb_true_iff in H as [Hc Hs]. apply negb_true_iff in Hc.
  rewrite Hc, (IH Hs). reflexivity.
Qed.

Lemma split_slash_app (a b : string) :
  split_slash (a ++ String "/" b) = (split_slash a ++ split_slash b)%list.
Proof.
  induction a as [|c a IH].
  - reflexivity.
  - rewrite str_app_cons. cbn [split_slash]. rewrite IH.
    destruct (Ascii.eqb c "/"); [reflexivity |].
    pose proof (split_slash_nonempty a).
    destruct (split_slash a); [contradiction | reflexivity].
Qed.

Lemma concat_snoc (l : list string) (x : string) :
  String.concat "/" (l ++ [x]) =
  match l with
  | [] => x
  | _ => String.concat "/" l ++ String "/" x
  end.
Proof.
  induction l as [|y l IH]; [reflexivity |].
  destruct l as [|z l].
  - reflexivity.
  - change (String.concat "/" ((y :: z :: l) ++ [x]))
      with (y ++ "/" ++ String.concat "/" ((z :: l) ++ [x])).
    rewrite IH.
    change (String.concat "/" (y :: z :: l))
      with (y ++ "/" ++ String.concat "/" (z :: l)).
    now rewrite !str_app_assoc.
Qed.

Lemma valid_name_inv (name : string) :
  valid_name name = true ->
  is_name Linux name = true /\ String.eqb name "" = false /\
  String.eqb name "." = false /\ String.eqb name ".." = false.
Proof.
  unfold valid_name. rewrite !andb_true_iff, !negb_true_iff. tauto.
Qed.

Lemma clean_step_name (rooted : bool) (out : list string) (name : string) :
  valid_name name = true -> clean_step rooted out name = name :: out.
Proof.
  intros H. apply valid_name_inv in H as (_ & H0 & H1 & H2).
  unfold clean_step. now rewrite H0, H1, H2.
Qed.

Lemma str_eqb_app_nonempty (a b : string) :
  String.eqb b "" = false -> String.eqb (a ++ b) "" = false.
Proof.
  intros Hb. destruct a as [|c a]; [exact Hb | reflexivity].
Qed.

(** [Join] puts a valid name at the end of the path, after a separator if
    anything precedes it. *)
Lemma filepath_Join_name (p name : string) :
  valid_name name = true ->
  filepath_Join p name = name \/
  exists dir, filepath_Join p name = dir ++ String "/" name.
Proof.
  intros Hv. pose proof (valid_name_inv name Hv) as (Hn & H0 & _ & _).
  unfold filepath_Join. destruct (String.eqb p "") eqn:Hp; cbn [negb].
  - rewrite H0. cbn [negb]. unfold filepath_Clean. rewrite H0.
    rewrite (split_slash_name name Hn). cbn [fold_left].
    rewrite (clean_step_name _ [] name Hv). cbn [rev app String.concat].
    assert (Hr : is_rooted name = false).
    { destruct name as [|c s]; [reflexivity |]. cbn in Hn |- *.
      apply andb_true_iff in Hn as [Hc _]. now apply negb_true_iff in Hc. }
    rewrite Hr, H0. now left.
  - unfold filepath_Clean.
    change (p ++ "/" ++ name) with (p ++ String "/" name).
    rewrite (str_eqb_app_nonempty p (String "/" name)) by reflexivity.
    rewrite split_slash_app, (split_slash_name name Hn), fold_left_app.
    cbn [fold_left]. rewrite (clean_step_name _ _ name Hv). cbn [rev].
    rewrite concat_snoc.
    set (out := fold_left _ (split_slash p) []).
    destruct (is_rooted (p ++ String "/" name)).
    + right. destruct (rev out) as [|y l].
      * exists "". reflexivity.
      * exists ("/" ++ String.concat "/" (y :: l)). now rewrite str_app_assoc.
    + destruct (rev out) as [|y l].
      * rewrite H0. now left.
      * rewrite (str_eqb_app_nonempty _ (String "/" name)) by reflexivity.
        right. eauto.
Qed.

Lemma filepath_Ext_Join (p name : string) :
  valid_name name = true ->
  filepath_Ext Linux (filepath_Join p name) = filepath_Ext Linux name.
Proof.
  intros Hv. destruct (filepath_Join_name p name Hv) as [->|[dir ->]]; [reflexivity |].
  apply filepath_Ext_last_element; [reflexivity |]. now apply valid_name_inv in Hv.
Qed.

Lemma is_txt_Join (p name : string) :
  valid_name name = true -> is_txt (filepath_Join p name) = is_txt name.
Proof. intros Hv. unfold is_txt. now rewrite filepath_Ext_Join. Qed.

(** ** The scanner *)

(** Induction on a tree: the property holds for what a link points to and
    for every entry of a directory. *)
Lemma Node_induction (P : Node -> Prop) :
  P File ->
  P (Symlink None) ->
  (forall target, P target -> P (Symlink (Some target))) ->
  (forall entries, Forall (fun e => P (snd e)) entries -> P (Dir entries)) ->
  (forall msg, P (Locked msg)) ->
  forall n, P n.
Proof.
  intros HFile HNone HLink HDir HLocked.
  exact (fix IH (n : Node) : P n :=
           match n with
           | File => HFile
           | Symlink None => HNone
           | Symlink (Some target) => HLink target (IH target)
           | Dir entries =>
             HDir entries
                  ((fix entries_ok (es : list (string * Node))
                    : Forall (fun e => P (snd e)) es :=
                      match es with
                      | [] => @List.Forall_nil _ (fun e => P (snd e))
                      | (name, child) :: es' =>
                        @List.Forall_cons _ (fun e => P (snd e)) (name, child) es'
                          (IH child) (entries_ok es')
                      end) entries)
           | Locked msg => HLocked msg
           end).
Qed.

Lemma walk_Dir_cons (path name : string) (child : Node) (es : list (string * Node)) :
  walk path (Dir ((name, child) :: es))
  = (walk (filepath_Join path name) child ++ walk path (Dir es))%list.
Proof. reflexivity. Qed.

Lemma valid_tree_Dir_cons (name : string) (child : Node) (es : list (string * Node)) :
  valid_tree (Dir ((name, child) :: es)) <->
  valid_name name = true /\ valid_tree child /\ valid_tree (Dir es).
Proof. reflexivity. Qed.

Lemma walk_txt (n : Node) : forall path f, f ∈ walk path n -> is_txt f = true.
Proof.
  induction n as [| |target IH|entries IH|msg] using Node_induction; intros path f.
  - cbn [walk]. destruct (is_txt path) eqn:E; [| intros H; inversion H].
    intros H. apply list_elem_of_singleton in H. now subst.
  - cbn [walk]. destruct (is_txt path) eqn:E; [| intros H; inversion H].
    intros H. apply list_elem_of_singleton in H. now subst.
  - cbn [walk]. destruct (is_txt path) eqn:E; [| intros H; inversion H].
    intros H. apply list_elem_of_singleton in H. now subst.
  - induction IH as [|[name child] es Hc _ IHes]; [intros H; inversion H |].
    rewrite walk_Dir_cons, elem_of_app. intros [H|H]; [eapply Hc; exact H | auto].
  - intros H. inversion H.
Qed.

Lemma read_dir_valid (n : Node) :
  forall entries, valid_tree n -> read_dir n = inl entries -> valid_tree (Dir entries).
Proof.
  induction n as [| |target IH|es _|msg] using Node_induction; intros entries Hv;
    cbn [read_dir]; try discriminate.
  - apply IH. exact Hv.
  - now intros [= <-].
Qed.

Lemma scan_entries_txt (rootPath : string) (es : list (string * Node)) (f : string) :
  valid_tree (Dir es) -> f ∈ scan_entries rootPath es -> is_txt f = true.
Proof.
  induction es as [|[name entry] es IH]; [intros _ H; inversion H |].
  rewrite valid_tree_Dir_cons. intros (Hn & _ & Hes). cbn [scan_entries].
  destruct (IsDir entry); [now apply IH |].
  destruct (is_txt name) eqn:E; [| now apply IH].
  rewrite elem_of_cons. intros [->|H]; [| now apply IH].
  now rewrite is_txt_Join.
Qed.

Lemma strings_ToLower_length (s : string) :
  String.length (strings_ToLower s) = String.length s.
Proof. induction s as [|c s IH]; [reflexivity |]. cbn. now rewrite IH. Qed.

Lemma is_txt_ext (f : string) :
  is_txt f = true ->
  String.length (filepath_Ext Linux f) = 4%nat /\ filepath_Ext Linux f <> ".mp3".
Proof.
  unfold is_txt. intros H. apply String.eqb_eq in H. split.
  - rewrite <- strings_ToLower_length, H. reflexivity.
  - intros E. rewrite E in H. discriminate.
Qed.

Lemma filepath_Ext_getOutputPath (goos : GOOS) (path : string) :
  filepath_Ext goos (getOutputPath goos path) = ".mp3".
Proof.
  destruct (getOutputPath_stem goos path) as (stem & _ & ->).
  change (stem ++ ".mp3") with (stem ++ String "." "mp3").
  apply filepath_Ext_plain. now destruct goos.
Qed.

Lemma getOutputPath_txt (f : string) :
  is_txt f = true ->
  getOutputPath Linux f = str_take (String.length f - 4) f ++ ".mp3".
Proof.
  intros H. apply is_txt_ext in H as [Hlen _].
  destruct (getOutputPath_stem Linux f) as (stem & Hf & ->). f_equal.
  set (e := filepath_Ext Linux f) in *. clearbody e. subst f.
  rewrite str_length_app, Hlen.
  replace (String.length stem + 4 - 4)%nat with (String.length stem) by lia.
  now rewrite str_take_app.
Qed.

(** X17. What the scan returns are text files: in both modes, every path
    found ends in ".txt" in some mix of upper and lower case, so its
    destination is the path with these four bytes replaced by ".mp3"; and no
    destination of a file found is itself a file found. *)
Theorem discovered_files_end_in_txt
    (rootPath : string) (recursive : bool) (root : Node + string) (files : list string) :
  match root with inl n => valid_tree n | inr _ => True end ->
  discoverFiles rootPath recursive root = inl files ->
  Forall (fun f => is_txt f = true /\
                   getOutputPath Linux f = str_take (String.length f - 4) f ++ ".mp3")
         files /\
  (forall f g, f ∈ files -> g ∈ files -> getOutputPath Linux g <> f).
Proof.
  intros Hv Hd.
  assert (Htxt : forall f, f ∈ files -> is_txt f = true).
  { unfold discoverFiles in Hd. destruct recursive.
    - injection Hd as <-. destruct root as [n|msg]; [| intros f H; inversion H].
      intros f. apply walk_txt.
    - destruct root as [n|msg]; cbn [os_ReadDir] in Hd; [| discriminate].
      destruct (read_dir n) as [entries|err] eqn:E; [| discriminate].
      injection Hd as <-. intros f. apply scan_entries_txt.
      now apply (read_dir_valid n). }
  split.
  - apply Forall_forall. intros f Hf. split; [auto |]. apply getOutputPath_txt. auto.
  - intros f g Hf _ E. apply Htxt, is_txt_ext in Hf as [_ Hne]. apply Hne.
    rewrite <- E. apply filepath_Ext_getOutputPath.
Qed.

Lemma scan_entries_sublist (rootPath : string) (es : list (string * Node)) :
  valid_tree (Dir es) ->
  sublist (scan_entries rootPath es) (walk rootPath (Dir es)) /\
  (Forall (fun e => IsDir (snd e) = false) es ->
   walk rootPath (Dir es) = scan_entries rootPath es).
Proof.
  induction es as [|[name entry] es IH]; [intros _; split; [constructor | reflexivity] |].
  rewrite valid_tree_Dir_cons. intros (Hn & _ & Hes).
  destruct (IH Hes) as [Hsub Heq]. rewrite walk_Dir_cons. cbn [scan_entries]. split.
  - destruct entry as [|t|sub|msg]; cbn [IsDir walk].
    + rewrite (is_txt_Join rootPath name Hn).
      destruct (is_txt name); [now constructor | exact Hsub].
    + rewrite (is_txt_Join rootPath name Hn).
      destruct (is_txt name); [now constructor | exact Hsub].
    + now apply sublist_inserts_l.
    + exact Hsub.
  - intros Hflat. apply Forall_cons in Hflat as [Hd Hrest]. cbn [snd] in Hd.
    rewrite Hd, (Heq Hrest).
    destruct entry as [|t|sub|msg]; try discriminate; cbn [walk];
      rewrite (is_txt_Join rootPath name Hn); now destruct (is_txt name).
Qed.

(** X18. The recursive scan finds what the flat scan finds, and more: for a
    directory, the files found without [-recursive] are found with it, under
    the same paths and in the same order, among those of the
    subdirectories; when the directory has no subdirectory the two scans
    return the same list. *)
Theorem recursive_scan_extends_flat_scan
    (rootPath : string) (entries : list (string * Node)) :
  valid_tree (Dir entries) ->
  exists flat deep,
    discoverFiles rootPath false (inl (Dir entries)) = inl flat /\
    discoverFiles rootPath true (inl (Dir entries)) = inl deep /\
    sublist flat deep /\
    (Forall (fun e => IsDir (snd e) = false) entries -> deep = flat).
Proof.
  intros Hv. destruct (scan_entries_sublist rootPath entries Hv) as [Hsub Heq].
  exists (scan_entries rootPath entries), (walk rootPath (Dir entries)).
  split; [reflexivity |]. split; [reflexivity |]. split; [exact Hsub | exact Heq].
Qed.

Lemma library_is_valid : valid_tree library.
Proof. cbn. repeat split. Qed.

Lemma discovered_files_example :
  let files := ["books/NOTES.TXT"; "books/ch1.txt"; "books/ch2.txt";
                "books/drafts/ch3.txt"; "books/drafts/old.txt"] in
  Forall (fun f => is_txt f = true /\
                   getOutputPath Linux f = str_take (String.length f - 4) f ++ ".mp3")
         files /\
  (forall f g, f ∈ files -> g ∈ files -> getOutputPath Linux g <> f).
Proof.
  apply (discovered_files_end_in_txt "books" true (inl library)).
  - exact library_is_valid.
  - reflexivity.
Defined.

Lemma recursive_scan_example :
  exists flat deep,
    discoverFiles "books" false (inl library) = inl flat /\
    discoverFiles "books" true (inl library) = inl deep /\
    sublist flat deep /\
    (Forall (fun e => IsDir (snd e) = false)
            [("NOTES.TXT", File); ("ch1.txt", File); ("ch2.txt", File);
             ("cover.jpg", File);
             ("drafts", Dir [("ch3.txt", File); ("old.txt", Symlink (Some File))])] ->
     deep = flat).
Proof.
  apply (recursive_scan_extends_flat_scan "books"). exact library_is_valid.
Defined.

(** X9. The summary accounts for every file: whatever the schedule, the two
    counters printed after [processFiles] add up to the number of input
    files.  With a deterministic endpoint and jobs that keep apart, the
    counters are fixed by the jobs: as many successes as there are files
    whose job succeeds when it is run alone. *)
Theorem summary_accounts_for_every_file
    (goos : GOOS) (env : Env) (config : AppConfig) (input : list string)
    (w : World) (rs : list ProcessResult) (w' : World) :
  valid_config config ->
  processFiles_returns goos env config input w rs w' ->
  fst (printSummary rs) + snd (printSummary rs) = Z.of_nat (length input) /\
  (deterministic_endpoint env -> jobs_apart goos input ->
   printSummary rs =
     (Z.of_nat (length (List.filter (succeeds_alone goos env config (files w)) input)),
      Z.of_nat (length (List.filter
                          (fun f => negb (succeeds_alone goos env config (files w) f))
                          input)))).
Proof.
  intros (Hworkers & _ & _) (s & Hs & Hm & <- & <-).
  pose proof (pool_inv_reachable goos env config input w s Hs) as Hinv.
  destruct (returned_complete config input s Hworkers Hinv Hm) as (Hlen & _).
  unfold printSummary. rewrite count_results_spec. cbn [fst snd]. split.
  - pose proof (filter_length_partition succeeded (allResults s)). lia.
  - intros Hdet Hapart.
    destruct (returned_canonical goos env config input (files w) Hdet Hapart w s
                eq_refl Hworkers Hs Hm) as (Hperm & _).
    assert (Hcount : forall f : string * string * option error -> bool,
               length (List.filter (fun r => f (outcome r)) (allResults s))
               = length (List.filter (fun x => f (expected goos env config (files w) x))
                           input)).
    { intros f.
      rewrite <- (filter_length_map outcome f (allResults s)),
        <- (filter_length_map (expected goos env config (files w)) f input).
      now apply filter_length_Permutation. }
    f_equal; rewrite Z.add_0_l; f_equal.
    + exact (Hcount (fun o => match snd o with None => true | Some _ => false end)).
    + exact (Hcount (fun o => negb match snd o with None => true | Some _ => false end)).
Qed.

Lemma summary_accounts_example :
  let config := the_config 2 in
  let input := ["a.txt"; "b.txt"] in
  let w := world_of two_files in
  let s := pool_after Linux echo_endpoint config input schedule_two_workers w in
  fst (printSummary (allResults s)) + snd (printSummary (allResults s))
  = Z.of_nat (length input) /\
  (deterministic_endpoint echo_endpoint -> jobs_apart Linux input ->
   printSummary (allResults s) =
     (Z.of_nat (length (List.filter
                          (succeeds_alone Linux echo_endpoint config (files w)) input)),
      Z.of_nat (length (List.filter
                          (fun f => negb (succeeds_alone Linux echo_endpoint config
                                            (files w) f))
                          input)))).
Proof.
  apply (summary_accounts_for_every_file Linux echo_endpoint (the_config 2)
           ["a.txt"; "b.txt"] (world_of two_files)
           (allResults (pool_after Linux echo_endpoint (the_config 2) ["a.txt"; "b.txt"]
                          schedule_two_workers (world_of two_files)))
           (world (pool_after Linux echo_endpoint (the_config 2) ["a.txt"; "b.txt"]
                     schedule_two_workers (world_of two_files)))).
  - unfold valid_config. simpl. split; [lia | split; [discriminate | lia]].
  - apply pool_after_returns. vm_compute. reflexivity.
Defined.

(** ** config.go: [validateConfig] and [LoadConfig] *)

Lemma validateConfig_cases (url : string) (t n : Z) :
  validateConfig {| ClientConfig.ServerURL := url; ClientConfig.Timeout := t;
                    ClientConfig.Workers := n |}
  = if String.eqb url "" then
      ({| ClientConfig.ServerURL := url; ClientConfig.Timeout := t;
          ClientConfig.Workers := n |},
       Some (Errorf "server_url cannot be empty"))
    else
      ({| ClientConfig.ServerURL := url;
          ClientConfig.Timeout := if t <=? 0 then 600 else t;
          ClientConfig.Workers := if n <? 1 then 1 else n |}, None).
Proof.
  unfold validateConfig.
  cbn [ClientConfig.ServerURL ClientConfig.Timeout ClientConfig.Workers].
  destruct (String.eqb url ""); [reflexivity |].
  destruct (t <=? 0); cbn [ClientConfig.ServerURL ClientConfig.Timeout ClientConfig.Workers];
    destruct (n <? 1); reflexivity.
Qed.

Lemma validateConfig_usable (config config' : ClientConfig.t) :
  validateConfig config = (config', None) ->
  usable config' /\ ClientConfig.ServerURL config <> "".
Proof.
  destruct config as [url t n]. rewrite validateConfig_cases.
  destruct (String.eqb_spec url "") as [->|Hurl]; [discriminate |].
  intros [= <-]. unfold usable.
  cbn [ClientConfig.ServerURL ClientConfig.Timeout ClientConfig.Workers].
  split; [| exact Hurl]. split; [exact Hurl |].
  destruct (Z.leb_spec t 0), (Z.ltb_spec n 1); lia.
Qed.

Lemma DefaultConfig_usable : usable DefaultConfig.
Proof. unfold usable. cbn. split; [discriminate | lia]. Qed.

(** X19. [validateConfig] rejects exactly the empty server URL, and then it
    has changed nothing.  Otherwise it returns nil and leaves a usable
    configuration: the URL as it was, a timeout that is positive (600 in
    place of a value that was not) and at least one worker (1 in place of a
    value below 1); a worker count above 10 is kept.  Validating twice is
    validating once. *)
Theorem validateConfig_rejects_or_repairs (config : ClientConfig.t) :
  let v := validateConfig config in
  (snd v = None <-> ClientConfig.ServerURL config <> "") /\
  (snd v <> None -> fst v = config) /\
  (snd v = None ->
   usable (fst v) /\
   ClientConfig.ServerURL (fst v) = ClientConfig.ServerURL config /\
   ClientConfig.Timeout (fst v)
   = (if ClientConfig.Timeout config <=? 0 then 600 else ClientConfig.Timeout config) /\
   ClientConfig.Workers (fst v)
   = (if ClientConfig.Workers config <? 1 then 1 else ClientConfig.Workers config)) /\
  validateConfig (fst v) = v.
Proof.
  destruct config as [url t n]. cbn zeta. unfold usable.
  rewrite validateConfig_cases.
  destruct (String.eqb_spec url "") as [->|Hurl].
  - cbn [fst snd ClientConfig.ServerURL]. split; [split; [discriminate | congruence] |].
    split; [reflexivity |]. split; [discriminate | reflexivity].
  - cbn [fst snd ClientConfig.ServerURL ClientConfig.Timeout ClientConfig.Workers].
    split; [split; [auto | reflexivity] |].
    split; [intros Hne; now destruct Hne |].
    split.
    + intros _. split; [| auto]. split; [exact Hurl |].
      destruct (Z.leb_spec t 0), (Z.ltb_spec n 1); lia.
    + unfold validateConfig.
      cbn [ClientConfig.ServerURL ClientConfig.Timeout ClientConfig.Workers].
      destruct (String.eqb_spec url "") as [->|_]; [contradiction |].
      destruct (Z.leb_spec t 0) as [Ht|Ht], (Z.ltb_spec n 1) as [Hn|Hn];
        cbn [Z.leb Z.ltb Z.compare Pos.compare Pos.compare_cont
             ClientConfig.ServerURL ClientConfig.Timeout ClientConfig.Workers].
      * reflexivity.
      * destruct (Z.ltb_spec n 1); [lia | reflexivity].
      * destruct (Z.leb_spec t 0); [lia | reflexivity].
      * destruct (Z.leb_spec t 0); [lia |].
        cbn [ClientConfig.ServerURL ClientConfig.Timeout ClientConfig.Workers].
        destruct (Z.ltb_spec n 1); [lia | reflexivity].
Qed.



Section ConfigProperties.

Context (json_Unmarshal : bytes -> ClientConfig.t + error) (example_json : bytes)
        (env : Env).

Abbreviation load := (LoadConfig json_Unmarshal example_json env).

Lemma LoadConfig_cases (exe : string + error) (w : World) :
  fst (load exe w) = DefaultConfig \/
  exists exePath data decoded,
    exe = inl exePath /\
    files w !! filepath_Join (filepath_Dir exePath) "config.json" = Some data /\
    json_Unmarshal data = inl decoded /\
    ClientConfig.ServerURL decoded <> "" /\
    fst (load exe w) = fst (validateConfig decoded).
Proof.
  unfold LoadConfig. destruct exe as [exePath|err]; cbn zeta; [| left; reflexivity].
  set (configPath := filepath_Join (filepath_Dir exePath) "config.json").
  unfold os_Stat_IsNotExist.
  destruct (decide (files w !! configPath = None)) as [Hc|Hc];
    [rewrite (bool_decide_eq_true_2 _ Hc); left; reflexivity |].
  rewrite (bool_decide_eq_false_2 _ Hc).
  destruct (files w !! configPath) as [data|] eqn:Hfile; [| contradiction].
  unfold loadConfigFile, os_ReadFile. rewrite Hfile.
  destruct (read_fault env configPath); [left; reflexivity |].
  destruct (json_Unmarshal data) as [decoded|err] eqn:Hdec; [| left; reflexivity].
  destruct (validateConfig decoded) as [config [err|]] eqn:Hval; [left; reflexivity |].
  cbn [fst]. destruct (validateConfig_usable decoded config Hval) as [Hu Hurl].
  right. exists exePath, data, decoded.
  split; [reflexivity |]. split; [exact Hfile |]. split; [exact Hdec |].
  split; [exact Hurl | now rewrite Hval].
Qed.

Lemma LoadConfig_usable (exe : string + error) (w : World) : usable (fst (load exe w)).
Proof.
  destruct (LoadConfig_cases exe w)
    as [->|(exePath & data & decoded & _ & _ & _ & Hurl & ->)];
    [apply DefaultConfig_usable |].
  destruct (validateConfig decoded) as [config [err|]] eqn:Hval.
  - exfalso. destruct decoded as [url t n]. rewrite validateConfig_cases in Hval.
    cbn in Hurl. destruct (String.eqb_spec url ""); [contradiction | discriminate].
  - now apply (validateConfig_usable decoded config).
Qed.

(** X20. [LoadConfig] always returns a usable configuration: a non-empty
    server URL, a positive timeout, at least one worker, whatever the
    executable path, the files and the decoder give.  When config.json
    exists next to the executable, can be read, decodes and names a server
    URL, the result is the decoded configuration as [validateConfig] leaves
    it: the URL of the file, its timeout unless that is zero or negative
    (then 600), its workers unless they are less than one (then 1).  In
    every other case the result is the default configuration. *)
Theorem LoadConfig_is_always_usable (exe : string + error) (w : World) :
  usable (fst (load exe w)) /\
  (forall exePath data decoded,
     exe = inl exePath ->
     files w !! filepath_Join (filepath_Dir exePath) "config.json" = Some data ->
     read_fault env (filepath_Join (filepath_Dir exePath) "config.json") = None ->
     json_Unmarshal data = inl decoded ->
     ClientConfig.ServerURL decoded <> "" ->
     fst (load exe w) = fst (validateConfig decoded) /\
     fst (load exe w) =
       {| ClientConfig.ServerURL := ClientConfig.ServerURL decoded;
          ClientConfig.Timeout :=
            if ClientConfig.Timeout decoded <=? 0 then 600
            else ClientConfig.Timeout decoded;
          ClientConfig.Workers :=
            if ClientConfig.Workers decoded <? 1 then 1
            else ClientConfig.Workers decoded |}) /\
  (fst (load exe w) = DefaultConfig \/
   exists exePath data decoded,
     exe = inl exePath /\
     files w !! filepath_Join (filepath_Dir exePath) "config.json" = Some data /\
     read_fault env (filepath_Join (filepath_Dir exePath) "config.json") = None /\
     json_Unmarshal data = inl decoded /\
     ClientConfig.ServerURL decoded <> "" /\
     fst (load exe w) = fst (validateConfig decoded)).
Proof.
  split; [apply LoadConfig_usable |]. split.
  - intros exePath data decoded -> Hfile Hread Hdec Hurl.
    assert (Hload : fst (load (inl exePath) w) = fst (validateConfig decoded)).
    { unfold LoadConfig. cbn zeta.
      set (configPath := filepath_Join (filepath_Dir exePath) "config.json") in *.
      unfold os_Stat_IsNotExist.
      rewrite bool_decide_eq_false_2 by (rewrite Hfile; discriminate).
      unfold loadConfigFile, os_ReadFile. rewrite Hread, Hfile, Hdec.
      destruct (validateConfig decoded) as [config [err|]] eqn:Hval; [| reflexivity].
      exfalso. destruct decoded as [url t n]. rewrite validateConfig_cases in Hval.
      cbn in Hurl. destruct (String.eqb_spec url ""); [contradiction | discriminate]. }
    split; [exact Hload |]. rewrite Hload.
    destruct decoded as [url t n]. rewrite validateConfig_cases.
    cbn [ClientConfig.ServerURL ClientConfig.Timeout ClientConfig.Workers] in *.
    destruct (String.eqb_spec url ""); [contradiction | reflexivity].
  - unfold LoadConfig. destruct exe as [exePath|err]; cbn zeta; [| left; reflexivity].
    set (configPath := filepath_Join (filepath_Dir exePath) "config.json").
    unfold os_Stat_IsNotExist.
    destruct (decide (files w !! configPath = None)) as [Hc|Hc];
      [rewrite (bool_decide_eq_true_2 _ Hc); left; reflexivity |].
    rewrite (bool_decide_eq_false_2 _ Hc).
    destruct (files w !! configPath) as [data|] eqn:Hfile; [| contradiction].
    unfold loadConfigFile, os_ReadFile. rewrite Hfile.
    destruct (read_fault env configPath) eqn:Hread; [left; reflexivity |].
    destruct (json_Unmarshal data) as [decoded|err] eqn:Hdec; [| left; reflexivity].
    destruct (validateConfig decoded) as [config [err|]] eqn:Hval; [left; reflexivity |].
    cbn [fst]. destruct (validateConfig_usable decoded config Hval) as [Hu Hurl].
    right. exists exePath, data, decoded.
    split; [reflexivity |]. split; [exact Hfile |]. split; [exact Hread |].
    split; [exact Hdec |]. split; [exact Hurl | now rewrite Hval].
Qed.

(** X21. All [LoadConfig] may do to the files is create
    config.example.json next to the executable, and only when neither
    config.json nor the example exists: no existing file is changed, and
    config.json is never written. *)
Theorem LoadConfig_only_creates_the_example (exe : string + error) (w : World) :
  let w' := snd (load exe w) in
  (forall path, files w !! path <> None -> files w' !! path = files w !! path) /\
  (forall path, files w' !! path <> files w !! path ->
     exists exePath,
       exe = inl exePath /\
       path = filepath_Join (filepath_Dir exePath) "config.example.json" /\
       files w !! filepath_Join (filepath_Dir exePath) "config.json" = None /\
       files w !! path = None).
Proof.
  cbn zeta.
  assert (H : forall path,
     files (snd (load exe w)) !! path = files w !! path \/
     exists exePath,
       exe = inl exePath /\
       path = filepath_Join (filepath_Dir exePath) "config.example.json" /\
       files w !! filepath_Join (filepath_Dir exePath) "config.json" = None /\
       files w !! path = None).
  { intros path. unfold LoadConfig. destruct exe as [exePath|err]; cbn zeta;
      [| left; reflexivity].
    set (configPath := filepath_Join (filepath_Dir exePath) "config.json").
    set (examplePath := filepath_Join (filepath_Dir exePath) "config.example.json").
    unfold os_Stat_IsNotExist.
    destruct (decide (files w !! configPath = None)) as [Hc|Hc].
    - rewrite (bool_decide_eq_true_2 _ Hc). cbn [snd].
      destruct (decide (files w !! examplePath = None)) as [He|He].
      + rewrite (bool_decide_eq_true_2 _ He). unfold createExampleConfig.
        destruct (os_WriteFile env examplePath example_json w) as [r w1] eqn:Hw.
        assert (Hfr : forall p, p <> examplePath -> files w1 !! p = files w !! p).
        { intros p Hp. change w1 with (snd (r, w1)). rewrite <- Hw.
          now apply os_WriteFile_frame. }
        destruct r; cbn [snd];
          (destruct (decide (path = examplePath)) as [->|Hp];
           [right; exists exePath; auto | left; now apply Hfr]).
      + rewrite (bool_decide_eq_false_2 _ He). left. reflexivity.
    - rewrite (bool_decide_eq_false_2 _ Hc).
      unfold loadConfigFile, os_ReadFile.
      destruct (read_fault env configPath); [left; reflexivity |].
      destruct (files w !! configPath) as [data|]; [| left; reflexivity].
      destruct (json_Unmarshal data) as [decoded|err]; [| left; reflexivity].
      destruct (validateConfig decoded) as [config [err|]]; left; reflexivity. }
  split.
  - intros path Hex. destruct (H path) as [Heq|(_ & _ & _ & _ & Hnone)];
      [exact Heq | contradiction].
  - intros path Hne. destruct (H path) as [Heq|Hex]; [contradiction | exact Hex].
Qed.

End ConfigProperties.

(** ** main.go: from the flags to the exit status *)

Lemma int64_in_range (z : Z) :
  - 9223372036854775808 <= z < 9223372036854775808 -> int64 z = z.
Proof.
  intros Hz. unfold int64.
  change (2 ^ 63) with 9223372036854775808.
  change (2 ^ 64) with 18446744073709551616.
  rewrite Z.mod_small; lia.
Qed.

Lemma main_config_inl (clientConfig : ClientConfig.t) (cl : CommandLine)
    (scan_missing : bool) (config : AppConfig) :
  main_config clientConfig cl scan_missing = inl config <->
  flag (cl_scan cl) "" <> "" /\ scan_missing = false /\
  1 <= flag (cl_workers cl) (ClientConfig.Workers clientConfig) /\
  time_Second
    <= int64 (flag (cl_timeout cl) (ClientConfig.Timeout clientConfig) * time_Second) /\
  config =
    {| Workers := flag (cl_workers cl) (ClientConfig.Workers clientConfig);
       ScanPath := flag (cl_scan cl) "";
       Recursive := flag (cl_recursive cl) false;
       Verbose := flag (cl_verbose cl) false;
       ServerURL := flag (cl_server cl) (ClientConfig.ServerURL clientConfig);
       Timeout := int64 (flag (cl_timeout cl) (ClientConfig.Timeout clientConfig)
                         * time_Second) |}.
Proof.
  unfold main_config. cbn zeta. cbn [ScanPath Workers Timeout].
  destruct (String.eqb_spec (flag (cl_scan cl) "") "") as [Hs|Hs];
    [split; [discriminate | tauto] |].
  destruct scan_missing; [split; [discriminate | intros (_ & ? & _); discriminate] |].
  destruct (Z.ltb_spec (flag (cl_workers cl) (ClientConfig.Workers clientConfig)) 1);
    [split; [discriminate | lia] |].
  rewrite Z.mul_1_l.
  destruct (Z.ltb_spec
              (int64 (flag (cl_timeout cl) (ClientConfig.Timeout clientConfig)
                      * time_Second)) time_Second);
    [split; [discriminate | lia] |].
  split; [intros [= <-]; auto | intros (_ & _ & _ & _ & ->); reflexivity].
Qed.

Lemma main_config_inr (clientConfig : ClientConfig.t) (cl : CommandLine)
    (scan_missing : bool) (status : Z) :
  main_config clientConfig cl scan_missing = inr status -> status = 1.
Proof.
  unfold main_config. cbn zeta.
  repeat match goal with
         | |- context [if ?b then _ else _] => destruct b
         end; congruence.
Qed.

(** X22. The configuration [run] is called with: [main] reaches [run] only
    with a scan path that is not empty and was not reported missing, with
    at least one worker and with a timeout of at least one second.  With
    the defaults of [LoadConfig] that makes a valid configuration, except
    that the server URL of the command line is not checked: the
    configuration is valid exactly when the command line does not give an
    empty [-server]. *)
Theorem run_gets_a_valid_config_unless_server_is_empty
    (json_Unmarshal : bytes -> ClientConfig.t + error) (example_json : bytes)
    (env : Env) (exe : string + error) (w : World)
    (cl : CommandLine) (scan_missing : bool) (config : AppConfig) :
  main_config (fst (LoadConfig json_Unmarshal example_json env exe w)) cl scan_missing
  = inl config ->
  ScanPath config <> "" /\ scan_missing = false /\
  1 <= Workers config /\ time_Second <= Timeout config /\
  (valid_config config <-> cl_server cl <> Some "").
Proof.
  intros H. apply main_config_inl in H as (Hs & Hm & Hw & Ht & ->).
  cbn [ScanPath Workers Timeout ServerURL]. unfold valid_config.
  cbn [ScanPath Workers Timeout ServerURL].
  split; [exact Hs |]. split; [exact Hm |]. split; [exact Hw |]. split; [exact Ht |].
  assert (Hpos : 0 < time_Second) by reflexivity.
  destruct (LoadConfig_usable json_Unmarshal example_json env exe w) as (Hurl & _ & _).
  destruct (cl_server cl) as [url|]; cbn [flag].
  - split; [intros (_ & Hne & _) [= ->]; contradiction |].
    intros Hne. split; [exact Hw |]. split; [| lia]. intros ->. now apply Hne.
  - split; [discriminate |]. intros _. split; [exact Hw |]. split; [exact Hurl | lia].
Qed.

(** X23. The [-timeout] flag counts seconds, as far as an [int64] of
    nanoseconds can hold them: a value from 1 to 9223372036 is accepted and
    gives that many seconds; a value from -9223372036 to 0 is refused with
    status 1.  Beyond that the multiplication by [time.Second] overflows, and
    there are negative values that pass the check. *)
Theorem timeout_flag_counts_seconds
    (clientConfig : ClientConfig.t) (cl : CommandLine) (t : Z) :
  cl_timeout cl = Some t ->
  flag (cl_scan cl) "" <> "" ->
  1 <= flag (cl_workers cl) (ClientConfig.Workers clientConfig) ->
  (1 <= t <= 9223372036 ->
   exists config, main_config clientConfig cl false = inl config /\
                  Timeout config = t * 1000000000) /\
  (- 9223372036 <= t <= 0 -> main_config clientConfig cl false = inr 1) /\
  ((exists config, main_config clientConfig cl false = inl config) <->
   time_Second <= int64 (t * time_Second)) /\
  (exists t', t' < 0 /\ time_Second <= int64 (t' * time_Second)).
Proof.
  intros Ht Hs Hw.
  assert (Hiff : (exists config, main_config clientConfig cl false = inl config) <->
                 time_Second <= int64 (t * time_Second)).
  { split.
    - intros [config H]. apply main_config_inl in H as (_ & _ & _ & H & _).
      now rewrite Ht in H.
    - intros H. eexists. apply main_config_inl. rewrite Ht. cbn [flag]. auto. }
  split; [| split; [| split; [exact Hiff |]]].
  - intros Hr. assert (Hi : int64 (t * time_Second) = t * time_Second)
      by (apply int64_in_range; unfold time_Second; lia).
    destruct (proj2 Hiff) as [config Hc]; [rewrite Hi; unfold time_Second; lia |].
    exists config. split; [exact Hc |].
    apply main_config_inl in Hc as (_ & _ & _ & _ & ->). cbn [Timeout].
    rewrite Ht. cbn [flag]. exact Hi.
  - intros Hr. assert (Hi : int64 (t * time_Second) = t * time_Second)
      by (apply int64_in_range; unfold time_Second; lia).
    destruct (main_config clientConfig cl false) as [config|status] eqn:Hc.
    + exfalso. assert (He : exists c, inl config = inl c :> AppConfig + Z) by eauto.
      apply Hiff in He. rewrite Hi in He. unfold time_Second in He. lia.
    + f_equal. now apply (main_config_inr clientConfig cl false).
  - exists (-18446744072). split; [lia |]. vm_compute. discriminate.
Qed.

(** X24. The exit status of [main], once the flags are parsed, is 0 or 1.
    It is 1 exactly when a flag is refused or the scan fails, and the scan
    fails exactly when it is not recursive and the scan path cannot be
    listed as a directory: with [-recursive] the status is 0 whatever is at
    the scan path, and without it a scan path that names a regular file
    gives 1. *)
Theorem exit_status_is_zero_or_one
    (clientConfig : ClientConfig.t) (cl : CommandLine) (scan_missing : bool)
    (root : Node + string) (results : list ProcessResult) :
  let status := main_status clientConfig cl scan_missing root results in
  (status = 0 \/ status = 1) /\
  (status = 1 <->
   (forall config, main_config clientConfig cl scan_missing <> inl config) \/
   (flag (cl_recursive cl) false = false /\ exists err, os_ReadDir root = inr err)) /\
  (flag (cl_recursive cl) false = false -> root = inl File ->
   status = 1).
Proof.
  cbn zeta. unfold main_status.
  destruct (main_config clientConfig cl scan_missing) as [config|code] eqn:Hc.
  - pose proof Hc as Hc'. apply main_config_inl in Hc' as (_ & _ & _ & _ & Hcfg).
    assert (Hrec : Recursive config = flag (cl_recursive cl) false) by now subst.
    assert (Hscan : ScanPath config = flag (cl_scan cl) "") by now subst.
    rewrite Hrec. unfold discoverFiles.
    destruct (flag (cl_recursive cl) false).
    + rewrite main_exit_after_scan. split; [now left |]. split; [| discriminate].
      split; [discriminate |]. intros [H|[H _]]; [now destruct (H config) | discriminate].
    + destruct (os_ReadDir root) as [entries|err] eqn:Hr.
      * rewrite main_exit_after_scan. split; [now left |]. split.
        -- split; [discriminate |].
           intros [H|[_ [e He]]]; [now destruct (H config) | discriminate].
        -- intros _ ->. discriminate.
      * change (main_exit (inr err) results) with 1. split; [now right |].
        split; [| reflexivity]. split; [| reflexivity]. intros _. right. eauto.
  - apply main_config_inr in Hc as ->. split; [now right |]. split; [| reflexivity].
    split; [| reflexivity]. intros _. left. discriminate.
Qed.

Lemma run_gets_a_valid_config_example :
  let config := {| Workers := 4; ScanPath := "books"; Recursive := true;
                   Verbose := false; ServerURL := "https://pod.example:7777";
                   Timeout := 600000000000 |} in
  ScanPath config <> "" /\ false = false /\
  1 <= Workers config /\ time_Second <= Timeout config /\
  (valid_config config <-> cl_server (scan_only "books" true) <> Some "").
Proof.
  apply (run_gets_a_valid_config_unless_server_is_empty
           (fun _ => inl decoded_config) [] echo_endpoint
           (inl "/opt/maya/MayaSpeechify") (world_of installed)
           (scan_only "books" true) false).
  vm_compute. reflexivity.
Defined.

Lemma timeout_flag_example :
  let cl := scan_with_timeout 1200 in
  (1 <= 1200 <= 9223372036 ->
   exists config, main_config DefaultConfig cl false = inl config /\
                  Timeout config = 1200 * 1000000000) /\
  (- 9223372036 <= 1200 <= 0 -> main_config DefaultConfig cl false = inr 1) /\
  ((exists config, main_config DefaultConfig cl false = inl config) <->
   time_Second <= int64 (1200 * time_Second)) /\
  (exists t', t' < 0 /\ time_Second <= int64 (t' * time_Second)).
Proof.
  apply (timeout_flag_counts_seconds DefaultConfig (scan_with_timeout 1200) 1200).
  - reflexivity.
  - discriminate.
  - cbn. lia.
Defined.

(** ** [run]: the scan, the pool and the summary together *)

Lemma discoverFiles_txt (rootPath : string) (recursive : bool) (root : Node + string)
    (files : list string) :
  match root with inl n => valid_tree n | inr _ => True end ->
  discoverFiles rootPath recursive root = inl files ->
  forall f, f ∈ files -> is_txt f = true.
Proof.
  intros Hv Hd. unfold discoverFiles in Hd. destruct recursive.
  - injection Hd as <-. destruct root as [n|msg]; [| intros f H; inversion H].
    intros f. apply walk_txt.
  - destruct root as [n|msg]; cbn [os_ReadDir] in Hd; [| discriminate].
    destruct (read_dir n) as [entries|err] eqn:E; [| discriminate].
    injection Hd as <-. intros f. apply scan_entries_txt.
    now apply (read_dir_valid n).
Qed.

Lemma txt_is_no_destination (f g : string) :
  is_txt f = true -> getOutputPath Linux g <> f.
Proof.
  intros Hf E. apply is_txt_ext in Hf as [_ Hne]. apply Hne.
  rewrite <- E. apply filepath_Ext_getOutputPath.
Qed.

(** X25. A whole run keeps the sources: when [run] returns after a scan
    that found files, it returns nil, the summary accounts for every file
    found, every text file found is byte for byte what it was, and so is
    every other file that is not the destination of a file found. *)
Theorem run_converts_and_keeps_the_sources
    (env : Env) (config : AppConfig) (root : Node + string) (w : World)
    (found : list string)
    (err : option error) (summary : option (Z * Z)) (w' : World) :
  valid_config config ->
  match root with inl n => valid_tree n | inr _ => True end ->
  discoverFiles (ScanPath config) (Recursive config) root = inl found ->
  run_returns env config root w err summary w' ->
  err = None /\
  (found <> [] ->
   exists successful failed,
     summary = Some (successful, failed) /\
     successful + failed = Z.of_nat (length found)) /\
  (forall f, f ∈ found -> files w' !! f = files w !! f) /\
  (forall path, (forall f, f ∈ found -> getOutputPath Linux f <> path) ->
     files w' !! path = files w !! path).
Proof.
  intros (Hworkers & _ & _) Hv Hd Hrun. unfold run_returns in Hrun. rewrite Hd in Hrun.
  destruct (Nat.eqb_spec (length found) 0) as [Hz|Hz].
  - destruct Hrun as (-> & -> & ->). destruct found; [| discriminate].
    split; [reflexivity |]. split; [intros H; now destruct H |]. auto.
  - destruct Hrun as (results & (s & Hs & Hm & <- & <-) & -> & ->).
    pose proof (pool_inv_reachable Linux env config found w s Hs) as Hinv.
    destruct (returned_complete config found s Hworkers Hinv Hm) as (Hlen & _).
    destruct (footprint_inv_reachable Linux env config found w s Hs)
      as (_ & Hframe & _).
    split; [reflexivity |]. split; [| split; [| exact Hframe]].
    + intros _. unfold printSummary. rewrite count_results_spec. do 2 eexists.
      split; [reflexivity |].
      pose proof (filter_length_partition succeeded (allResults s)). lia.
    + intros f Hf. apply Hframe. intros g _.
      apply txt_is_no_destination. eapply discoverFiles_txt; eauto.
Qed.

Lemma run_keeps_the_sources_example :
  let config := the_config 2 in
  let found := ["books/a.txt"; "books/b.txt"] in
  let w := world_of books_files in
  let s := pool_after Linux echo_endpoint config found schedule_two_workers w in
  None = None :> option error /\
  (found <> [] ->
   exists successful failed,
     Some (printSummary (allResults s)) = Some (successful, failed) /\
     successful + failed = Z.of_nat (length found)) /\
  (forall f, f ∈ found -> files (world s) !! f = files w !! f) /\
  (forall path, (forall f, f ∈ found -> getOutputPath Linux f <> path) ->
     files (world s) !! path = files w !! path).
Proof.
  apply (run_converts_and_keeps_the_sources echo_endpoint (the_config 2) (inl books)
           (world_of books_files) ["books/a.txt"; "books/b.txt"]).
  - unfold valid_config. simpl. split; [lia | split; [discriminate | lia]].
  - cbn. repeat split.
  - reflexivity.
  - unfold run_returns.
    change (discoverFiles (ScanPath (the_config 2)) (Recursive (the_config 2)) (inl books))
      with (inl ["books/a.txt"; "books/b.txt"] : list string + error).
    cbn [length Nat.eqb].
    eexists. split; [apply pool_after_returns; vm_compute; reflexivity |].
    split; reflexivity.
Defined.

(** ** Running the pool again *)

(** A confined program that is run again, on a world whose destination
    already holds what the first run left there, returns the same and leaves
    the same. *)
Lemma run_again {A : Type} (env : Env) (src dst : string) (q : Prog A) :
  deterministic_endpoint env -> src <> dst -> confined src dst q ->
  forall wa wb,
    files wa !! src = files wb !! src ->
    (files wa !! dst = files wb !! dst \/
     files wb !! dst = files (snd (run env q wa)) !! dst) ->
    fst (run env q wb) = fst (run env q wa) /\
    files (snd (run env q wb)) !! dst = files (snd (run env q wa)) !! dst.
Proof.
  intros Hdet Hne.
  induction q as [a|k IH|name k IH|t u c b k IH|name d pm k IH];
    intros Hq wa wb Hsrc Hdst; cbn [confined] in Hq; cbn [run] in *.
  - cbn [fst snd] in *. split; [reflexivity |]. destruct Hdst; congruence.
  - contradiction.
  - destruct Hq as [-> Hk]. unfold os_ReadFile in *. rewrite <- Hsrc.
    apply IH; auto.
  - unfold http_Post in *. rewrite (Hdet (now wb) (now wa)). apply IH; auto.
  - destruct Hq as [-> Hk]. unfold os_WriteFile in *.
    destruct (write_fault env dst) as [|msg|n msg]; apply IH; auto;
      cbn [files tick set_file] in *;
      rewrite ?lookup_insert_eq, ?lookup_insert_ne by congruence; auto.
Qed.

(** X26. Running the batch again changes nothing: for a deterministic
    endpoint and jobs that keep apart, a second run of [processFiles] on the
    world the first run left returns the same results (up to order and
    duration) and leaves every file as the first run left it. *)
Theorem second_run_changes_nothing
    (goos : GOOS) (env : Env) (config : AppConfig) (input : list string)
    (w w1 w2 : World) (rs1 rs2 : list ProcessResult) :
  valid_config config -> deterministic_endpoint env -> jobs_apart goos input ->
  processFiles_returns goos env config input w rs1 w1 ->
  processFiles_returns goos env config input w1 rs2 w2 ->
  map outcome rs1 ≡ₚ map outcome rs2 /\ files w2 = files w1.
Proof.
  intros (Hworkers & _ & _) Hdet Hapart (s1 & Hs1 & Hm1 & <- & <-)
    (s2 & Hs2 & Hm2 & <- & <-).
  destruct (returned_canonical goos env config input (files w) Hdet Hapart w s1
              eq_refl Hworkers Hs1 Hm1) as (Hr1 & Hd1 & Hf1).
  destruct (returned_canonical goos env config input (files (world s1)) Hdet Hapart
              (world s1) s2 eq_refl Hworkers Hs2 Hm2) as (Hr2 & Hd2 & Hf2).
  assert (Hagain : forall f, f ∈ input ->
            fst (alone goos env config (files (world s1)) f)
            = fst (alone goos env config (files w) f) /\
            written goos env config (files (world s1)) f
            = written goos env config (files w) f).
  { intros f Hf. unfold written, alone.
    assert (Hne : f <> getOutputPath goos f)
      by (intros E; now apply (proj2 Hapart f f Hf Hf)).
    apply (run_again env f (getOutputPath goos f) _ Hdet Hne
             (processSingleFile_confined goos config f)).
    - cbn [files world_of]. symmetry. apply Hf1. intros g Hg. now apply (proj2 Hapart).
    - right. cbn [files world_of]. apply (Hd1 f Hf). }
  split.
  - rewrite Hr1, Hr2. clear - Hagain. induction input as [|f fs IH]; [reflexivity |].
    cbn [map]. unfold expected at 1 3.
    rewrite (proj1 (Hagain f ltac:(left))). constructor.
    apply IH. intros g Hg. apply Hagain. now right.
  - apply map_eq. intros path.
    destruct (decide (path ∈ map (getOutputPath goos) input)) as [Hin|Hout].
    + apply elem_of_map_inv in Hin as (f & Hf & ->).
      rewrite (Hd2 f Hf), (proj2 (Hagain f Hf)). symmetry. apply (Hd1 f Hf).
    + apply Hf2. intros f Hf <-. apply Hout. now apply elem_of_map.
Qed.

Lemma second_run_example :
  let config := the_config 2 in
  let input := ["a.txt"; "b.txt"] in
  let s1 := pool_after Linux echo_endpoint config input schedule_two_workers
                       (world_of two_files) in
  let s2 := pool_after Linux echo_endpoint config input schedule_two_workers
                       (world s1) in
  map outcome (allResults s1) ≡ₚ map outcome (allResults s2) /\
  files (world s2) = files (world s1).
Proof.
  apply (second_run_changes_nothing Linux echo_endpoint (the_config 2) ["a.txt"; "b.txt"]
           (world_of two_files)).
  - unfold valid_config. simpl. split; [lia | split; [discriminate | lia]].
  - intros t t' url ct body. reflexivity.
  - exact jobs_apart_example.
  - apply pool_after_returns. vm_compute. reflexivity.
  - apply pool_after_returns. vm_compute. reflexivity.
Defined.

(** ** The whole program *)

(** X27. The program ends, and it only makes audio: on Unix, once the
    flags are parsed, [main] always has a way to end, whatever the
    configuration, the scan path, the files and the endpoint; it ends with
    status 0 or 1; and when it ends, every file whose extension is not ".mp3"
    is as it was, and no file has been removed. *)
Theorem main_ends_and_changes_mp3_only
    (clientConfig : ClientConfig.t) (cl : CommandLine) (scan_missing : bool)
    (root : Node + string) (env : Env) (w : World) :
  (exists status w', main_exits clientConfig cl scan_missing root env w status w') /\
  (forall status w',
     main_exits clientConfig cl scan_missing root env w status w' ->
     (status = 0 \/ status = 1) /\
     (forall path, filepath_Ext Linux path <> ".mp3" ->
        files w' !! path = files w !! path) /\
     (forall path, is_Some (files w !! path) -> is_Some (files w' !! path))).
Proof.
  unfold main_exits, run_returns.
  destruct (main_config clientConfig cl scan_missing) as [config|code] eqn:Hc.
  2: { apply main_config_inr in Hc as ->. split; [eauto |].
       intros status w' [-> ->]. auto. }
  destruct (discoverFiles (ScanPath config) (Recursive config) root)
    as [found|e] eqn:Hd.
  2: { split; [do 4 eexists; split; [eauto | reflexivity] |].
       intros status w' (err & summary & (-> & _ & ->) & ->). auto. }
  destruct (Nat.eqb_spec (length found) 0) as [Hz|Hz].
  { split; [do 4 eexists; split; [eauto | reflexivity] |].
    intros status w' (err & summary & (-> & _ & ->) & ->). auto. }
  split.
  - destruct (returns_eventually Linux env config found (pool_init found w)
                (step_bound config found) (pool_inv_init config found w)
                (potential_init config found w)) as (s & Hs & Hm).
    exists 0, (world s), None, (Some (printSummary (allResults s))).
    split; [| reflexivity]. exists (allResults s).
    split; [| auto]. exists s. auto.
  - intros status w' (err & summary & (results & (s & Hs & _ & _ & <-) & -> & _) & ->).
    destruct (footprint_inv_reachable Linux env config found w s Hs)
      as (_ & Hframe & Hkeep & _).
    split; [now left |]. split; [| exact Hkeep].
    intros path Hext. apply Hframe. intros f _ <-. apply Hext.
    apply filepath_Ext_getOutputPath.
Qed.

(** ** No file is found twice *)

Lemma split_slash_names (s : string) :
  Forall (fun e => is_name Linux e = true) (split_slash s).
Proof.
  induction s as [|c s IH]; cbn [split_slash].
  - repeat constructor.
  - destruct (Ascii.eqb c "/") eqn:Hc; [constructor; [reflexivity | exact IH] |].
    destruct (split_slash s) as [|e es]; [repeat constructor; cbn; now rewrite Hc |].
    inversion IH as [|? ? He Hes]; subst. constructor; [| exact Hes].
    unfold is_name in *. cbn [str_forall os_IsPathSeparator] in He |- *.
    now rewrite Hc, He.
Qed.

Lemma clean_step_ok (rooted : bool) (out : list string) (e : string) :
  stack_ok rooted out -> is_name Linux e = true -> stack_ok rooted (clean_step rooted out e).
Proof.
  intros Hout He. unfold clean_step.
  destruct (String.eqb e "") eqn:H0; [exact Hout |].
  destruct (String.eqb e ".") eqn:H1; [exact Hout |]. cbn [orb].
  destruct (String.eqb e "..") eqn:H2.
  - destruct out as [|top rest].
    + destruct rooted; [exact I |]. cbn [stack_ok]. auto 10.
    + destruct (String.eqb top "..") eqn:Ht.
      * pose proof Hout as (_ & _ & _ & Hc & _). destruct (Hc Ht) as [Hr _].
        change (stack_ok rooted (e :: top :: rest))
          with (is_name Linux e = true /\ String.eqb e "" = false /\
                String.eqb e "." = false /\
                (String.eqb e ".." = true -> rooted = false /\ String.eqb top ".." = true) /\
                stack_ok rooted (top :: rest)).
        auto 10.
      * cbn [stack_ok] in Hout. tauto.
  - cbn [stack_ok]. split; [exact He |]. split; [exact H0 |]. split; [exact H1 |].
    split; [congruence | exact Hout].
Qed.

Lemma fold_clean_step_ok (rooted : bool) (es : list string) :
  forall out, stack_ok rooted out -> Forall (fun e => is_name Linux e = true) es ->
  stack_ok rooted (fold_left (clean_step rooted) es out).
Proof.
  induction es as [|e es IH]; intros out Hout Hes; [exact Hout |].
  inversion Hes as [|? ? He Hes']; subst. cbn [fold_left].
  apply IH; [apply clean_step_ok |]; auto.
Qed.

Lemma clean_stack_ok (path : string) : stack_ok (is_rooted path) (clean_stack path).
Proof. apply fold_clean_step_ok; [exact I | apply split_slash_names]. Qed.

Lemma stack_ok_names (rooted : bool) (out : list string) :
  stack_ok rooted out -> Forall (fun e => is_name Linux e = true) out.
Proof.
  induction out as [|e out IH]; [constructor |]. cbn [stack_ok].
  intros (Hn & _ & _ & _ & Hrest). constructor; auto.
Qed.

(** Reading a stack again gives the stack. *)
Lemma fold_clean_step_rev (rooted : bool) (out : list string) :
  stack_ok rooted out -> fold_left (clean_step rooted) (rev out) [] = out.
Proof.
  induction out as [|e rest IH]; [reflexivity |]. cbn [stack_ok rev].
  intros (_ & H0 & H1 & H2 & Hrest). rewrite fold_left_app, (IH Hrest). cbn [fold_left].
  unfold clean_step. rewrite H0, H1. cbn [orb].
  destruct (String.eqb e "..") eqn:He; [| reflexivity].
  destruct (H2 eq_refl) as [-> Htop].
  destruct rest as [|top rest]; [reflexivity |]. now rewrite Htop.
Qed.

Lemma split_slash_concat (l : list string) :
  l <> [] -> Forall (fun e => is_name Linux e = true) l ->
  split_slash (String.concat "/" l) = l.
Proof.
  induction l as [|x l IH]; [congruence |]. intros _ Hl.
  inversion Hl as [|? ? Hx Hl']; subst.
  destruct l as [|y l]; [now apply split_slash_name |].
  change (String.concat "/" (x :: y :: l))
    with (x ++ String "/" (String.concat "/" (y :: l))).
  rewrite split_slash_app, (split_slash_name x Hx), IH; [reflexivity | discriminate | exact Hl'].
Qed.

Lemma is_rooted_name (e s : string) :
  is_name Linux e = true -> String.eqb e "" = false -> is_rooted (e ++ s) = false.
Proof.
  destruct e as [|c e]; [discriminate |]. unfold is_name. cbn.
  intros H _. apply andb_true_iff in H as [Hc _]. now apply negb_true_iff in Hc.
Qed.

Lemma concat_head (x : string) (l : list string) :
  exists s, String.concat "/" (x :: l) = x ++ s.
Proof.
  destruct l as [|y l]; [exists ""; cbn; now rewrite str_app_nil_r |].
  now exists ("/" ++ String.concat "/" (y :: l)).
Qed.

(** [Clean] is idempotent: a cleaned path has the stack and the root of the
    path it was made from. *)
Lemma clean_stack_Clean (path : string) :
  clean_stack (filepath_Clean path) = clean_stack path /\
  is_rooted (filepath_Clean path) = is_rooted path.
Proof.
  unfold filepath_Clean. destruct (String.eqb_spec path "") as [->|Hne]; [now split |].
  fold (clean_stack path). pose proof (clean_stack_ok path) as Hok.
  set (out := clean_stack path) in *. clearbody out.
  pose proof (stack_ok_names _ _ Hok) as Hnames.
  assert (Hrev : Forall (fun e => is_name Linux e = true) (rev out)).
  { now apply List.Forall_rev. }
  destruct (is_rooted path) eqn:Hr.
  - split; [| reflexivity]. unfold clean_stack.
    change (is_rooted ("/" ++ String.concat "/" (rev out))) with true.
    change (split_slash ("/" ++ String.concat "/" (rev out)))
      with ("" :: split_slash (String.concat "/" (rev out))).
    cbn [fold_left]. change (clean_step true [] "") with (@nil string).
    destruct (rev out) as [|x l] eqn:E.
    + apply (f_equal (@rev string)) in E. rewrite rev_involutive in E. now subst.
    + rewrite split_slash_concat; [| discriminate | exact Hrev].
      rewrite <- E. now apply fold_clean_step_rev.
  - destruct (rev out) as [|x l] eqn:E.
    + apply (f_equal (@rev string)) in E. rewrite rev_involutive in E. now subst.
    + assert (Hx : is_name Linux x = true /\ String.eqb x "" = false).
      { assert (Hin : In x out) by (apply in_rev; rewrite E; now left).
        clear - Hok Hin. induction out as [|e out IH]; [contradiction |].
        cbn [stack_ok] in Hok. destruct Hok as (Hn & H0 & _ & _ & Hrest).
        destruct Hin as [->|Hin]; auto. }
      destruct Hx as [Hxn Hx0].
      destruct (concat_head x l) as [s Hs].
      assert (Hbody : String.eqb (String.concat "/" (x :: l)) "" = false).
      { rewrite Hs. destruct x; [discriminate | reflexivity]. }
      rewrite Hbody. unfold clean_stack.
      assert (Hroot : is_rooted (String.concat "/" (x :: l)) = false).
      { rewrite Hs. now apply is_rooted_name. }
      rewrite Hroot. split; [| reflexivity].
      rewrite split_slash_concat; [| discriminate | exact Hrev].
      rewrite <- E. now apply fold_clean_step_rev.
Qed.

(** [Join] with a valid name puts the name on the stack of the path. *)
Lemma clean_stack_Join (a b : string) :
  valid_name b = true -> clean_stack (filepath_Join a b) = b :: clean_stack a.
Proof.
  intros Hv. pose proof (valid_name_inv b Hv) as (Hn & H0 & _ & _).
  unfold filepath_Join. destruct (String.eqb_spec a "") as [->|Hne]; cbn [negb].
  - rewrite H0. cbn [negb]. rewrite (proj1 (clean_stack_Clean b)).
    unfold clean_stack. rewrite (split_slash_name b Hn). cbn [fold_left].
    now rewrite clean_step_name.
  - rewrite (proj1 (clean_stack_Clean _)). unfold clean_stack.
    change (a ++ "/" ++ b) with (a ++ String "/" b).
    rewrite split_slash_app, (split_slash_name b Hn), fold_left_app. cbn [fold_left].
    assert (Hr : is_rooted (a ++ String "/" b) = is_rooted a).
    { destruct a; [congruence | reflexivity]. }
    rewrite Hr. now rewrite clean_step_name.
Qed.

(** The paths found below a path keep the stack of that path. *)
Lemma walk_stack (n : Node) :
  forall q f, valid_tree n -> f ∈ walk q n ->
  exists more, clean_stack f = (more ++ clean_stack q)%list.
Proof.
  induction n as [| |target IH|entries IH|msg] using Node_induction; intros q f Hv.
  - cbn [walk]. destruct (is_txt q); [| intros H; inversion H].
    intros H. apply list_elem_of_singleton in H as ->. now exists [].
  - cbn [walk]. destruct (is_txt q); [| intros H; inversion H].
    intros H. apply list_elem_of_singleton in H as ->. now exists [].
  - cbn [walk]. destruct (is_txt q); [| intros H; inversion H].
    intros H. apply list_elem_of_singleton in H as ->. now exists [].
  - revert Hv. induction IH as [|[name child] es Hc _ IHes]; [intros _ H; inversion H |].
    rewrite valid_tree_Dir_cons, walk_Dir_cons, elem_of_app.
    intros (Hname & Hchild & Hes) [H|H]; [| auto].
    destruct (Hc _ _ Hchild H) as [more Hmore]. cbn [snd] in *.
    rewrite (clean_stack_Join q name Hname) in Hmore.
    exists (more ++ [name])%list. now rewrite <- app_assoc.
  - intros H. inversion H.
Qed.

(** A path found in a directory has the name of an entry above the stack
    of the directory. *)
Lemma walk_Dir_stack (q f : string) (es : list (string * Node)) :
  valid_tree (Dir es) -> f ∈ walk q (Dir es) ->
  exists name more, name ∈ map fst es /\
    clean_stack f = (more ++ name :: clean_stack q)%list.
Proof.
  induction es as [|[name child] es IH]; [intros _ H; inversion H |].
  rewrite valid_tree_Dir_cons, walk_Dir_cons, elem_of_app.
  intros (Hname & Hchild & Hes) [H|H].
  - destruct (walk_stack child _ _ Hchild H) as [more Hmore].
    rewrite (clean_stack_Join q name Hname) in Hmore.
    exists name, more. split; [cbn; left | exact Hmore].
  - destruct (IH Hes H) as (name' & more & Hin & Hst).
    exists name', more. split; [cbn; now right | exact Hst].
Qed.

Lemma stack_name_inj (more1 more2 : list string) (n1 n2 : string) (st : list string) :
  (more1 ++ n1 :: st = more2 ++ n2 :: st)%list -> n1 = n2.
Proof.
  change (n1 :: st) with ([n1] ++ st)%list. change (n2 :: st) with ([n2] ++ st)%list.
  rewrite !app_assoc. intros H. apply app_inv_tail in H.
  now apply app_inj_tail in H.
Qed.

Lemma distinct_names_Dir_cons (name : string) (child : Node) (es : list (string * Node)) :
  distinct_names (Dir ((name, child) :: es)) <->
  (name ∉ map fst es) /\ distinct_names child /\ distinct_names (Dir es).
Proof.
  cbn [distinct_names map fst]. rewrite NoDup_cons. tauto.
Qed.

Lemma walk_NoDup (n : Node) :
  forall q, valid_tree n -> distinct_names n -> NoDup (walk q n).
Proof.
  induction n as [| |target IH|entries IH|msg] using Node_induction; intros q Hv Hd.
  - cbn [walk]. destruct (is_txt q); [apply NoDup_singleton | constructor].
  - cbn [walk]. destruct (is_txt q); [apply NoDup_singleton | constructor].
  - cbn [walk]. destruct (is_txt q); [apply NoDup_singleton | constructor].
  - revert Hv Hd. induction IH as [|[name child] es Hc _ IHes]; [constructor |].
    rewrite valid_tree_Dir_cons, distinct_names_Dir_cons, walk_Dir_cons.
    intros (Hname & Hchild & Hes) (Hnew & Hdc & Hdes). cbn [snd] in *.
    apply NoDup_app. split; [now apply Hc |]. split; [| now apply IHes].
    intros f Hf1 Hf2.
    destruct (walk_stack child _ _ Hchild Hf1) as [more1 H1].
    rewrite (clean_stack_Join q name Hname) in H1.
    destruct (walk_Dir_stack q f es Hes Hf2) as (name' & more2 & Hin & H2).
    rewrite H1 in H2. apply stack_name_inj in H2. now subst.
  - constructor.
Qed.

Lemma scan_entries_names (rootPath : string) (es : list (string * Node)) (f : string) :
  f ∈ scan_entries rootPath es ->
  exists name, name ∈ map fst es /\ f = filepath_Join rootPath name.
Proof.
  induction es as [|[name entry] es IH]; [intros H; inversion H |].
  cbn [scan_entries map fst].
  assert (Hrest : f ∈ scan_entries rootPath es ->
                  exists name0, name0 ∈ name :: map fst es /\ f = filepath_Join rootPath name0).
  { intros H. destruct (IH H) as (n & Hn & Hf). exists n. split; [now right | exact Hf]. }
  destruct (IsDir entry); [exact Hrest |].
  destruct (is_txt name); [| exact Hrest].
  rewrite elem_of_cons. intros [->|H]; [| auto].
  exists name. split; [left | reflexivity].
Qed.

Lemma valid_tree_names (es : list (string * Node)) (name : string) :
  valid_tree (Dir es) -> name ∈ map fst es -> valid_name name = true.
Proof.
  induction es as [|[n c] es IH]; [intros _ H; inversion H |].
  rewrite valid_tree_Dir_cons. cbn [map fst]. rewrite elem_of_cons.
  intros (Hn & _ & Hes) [->|H]; auto.
Qed.

Lemma scan_entries_NoDup (rootPath : string) (es : list (string * Node)) :
  valid_tree (Dir es) -> NoDup (map fst es) -> NoDup (scan_entries rootPath es).
Proof.
  induction es as [|[name entry] es IH]; [constructor |].
  rewrite valid_tree_Dir_cons. cbn [map fst]. rewrite NoDup_cons.
  intros (Hname & _ & Hes) [Hnew Hnd]. cbn [scan_entries].
  destruct (IsDir entry); [now apply IH |].
  destruct (is_txt name); [| now apply IH].
  apply NoDup_cons. split; [| now apply IH].
  intros Hin. destruct (scan_entries_names _ _ _ Hin) as (name' & Hin' & Heq).
  apply (f_equal clean_stack) in Heq.
  rewrite (clean_stack_Join rootPath name Hname),
          (clean_stack_Join rootPath name' (valid_tree_names es name' Hes Hin')) in Heq.
  injection Heq as ->. contradiction.
Qed.

Lemma read_dir_distinct (n : Node) :
  forall entries, distinct_names n -> read_dir n = inl entries -> NoDup (map fst entries).
Proof.
  induction n as [| |target IH|es _|msg] using Node_induction; intros entries Hd;
    cbn [read_dir]; try discriminate.
  - apply IH. exact Hd.
  - intros [= <-]. exact (proj1 Hd).
Qed.

Lemma filter_eqb_NoDup (name : string) (l : list string) :
  NoDup l -> (length (List.filter (fun f => String.eqb f name) l) <= 1)%nat.
Proof.
  induction l as [|x l IH]; [cbn; lia |]. rewrite NoDup_cons. intros [Hx Hl].
  cbn [List.filter]. destruct (String.eqb_spec x name) as [->|Hne]; [| auto].
  cbn [length]. enough (List.filter (fun f => String.eqb f name) l = []) as -> by (cbn; lia).
  clear IH Hl. induction l as [|y l IH]; [reflexivity |].
  rewrite not_elem_of_cons in Hx. destruct Hx as [Hy Hl]. cbn [List.filter].
  destruct (String.eqb_spec y name) as [->|_]; [congruence | auto].
Qed.

(** X28. No file is found twice: when the names the directories list are
    valid and no directory lists a name twice, [discoverFiles] returns, on
    Unix, a list without repetition, with or without [recursive]; and
    [processFiles] on that list reads every file at most once, whatever the
    endpoint and the schedule. *)
Theorem discovered_files_are_distinct
    (rootPath : string) (recursive : bool) (root : Node + string) (found : list string) :
  match root with inl n => valid_tree n /\ distinct_names n | inr _ => True end ->
  discoverFiles rootPath recursive root = inl found ->
  NoDup found /\
  (forall env config w0 s name,
     rtc (step Linux env config found) (pool_init found w0) s ->
     (length (List.filter (is_op (OpReadOf name)) (events_since w0 (world s))) <= 1)%nat).
Proof.
  intros Hroot Hfound.
  assert (Hnd : NoDup found).
  { unfold discoverFiles in Hfound. destruct recursive.
    - injection Hfound as <-. destruct root as [n|msg]; [| constructor].
      now apply walk_NoDup.
    - destruct (os_ReadDir root) as [entries|err] eqn:Hrd; [| discriminate].
      injection Hfound as <-. destruct root as [n|msg]; [| discriminate].
      cbn [os_ReadDir] in Hrd. destruct Hroot as [Hv Hd].
      apply scan_entries_NoDup;
        [eapply read_dir_valid | eapply read_dir_distinct]; eauto. }
  split; [exact Hnd |].
  intros env config w0 s name Hs.
  destruct (usage_inv_reachable Linux env config found w0 (OpReadOf name) s Hs)
    as (evs & cs & Hlog & _ & Hsum).
  rewrite (events_since_app w0 (world s) evs Hlog).
  pose proof (filter_eqb_NoDup name found Hnd) as Hle.
  change (may_use Linux (OpReadOf name)) with (fun f => String.eqb f name) in Hsum.
  lia.
Qed.

Lemma library_is_distinct : distinct_names library.
Proof.
  cbn [library distinct_names map fst].
  repeat split; apply (bool_decide_unpack _); vm_compute; exact I.
Qed.

Lemma discovered_files_distinct_example :
  let found := ["books/NOTES.TXT"; "books/ch1.txt"; "books/ch2.txt";
                "books/drafts/ch3.txt"; "books/drafts/old.txt"] in
  NoDup found /\
  (forall env config w0 s name,
     rtc (step Linux env config found) (pool_init found w0) s ->
     (length (List.filter (is_op (OpReadOf name)) (events_since w0 (world s))) <= 1)%nat).
Proof.
  apply (discovered_files_are_distinct "books" true (inl library)).
  - split; [apply library_is_valid | apply library_is_distinct].
  - reflexivity.
Defined.
